(** * pyctr: selective virtualization of Python functions

    A shallow embedding of the parts of pyctr that decide how names are
    classified (transformers/virtualization/scoping.py), how the default
    overload stores and evaluates (overloads/py_defaults.py,
    overloads/staging.py), how the rewrite passes reshape the tree
    (transformers/virtualization/{variables,control_flow,logical_ops}.py)
    and how the closure of a converted function is rebuilt
    (api/conversion.py).

    Layout: Part I holds every definition, one module per source file;
    Part II holds the lemmas and theorems. *)

From Stdlib Require Import ZArith String List Lia.
From stdpp Require Import base option list gmap sets strings pretty.

Open Scope string_scope.
Open Scope list_scope.
Open Scope nat_scope.
Open Scope stdpp_scope.
Set Warnings "-register-all,-clear-no-such-hyp".

(* ===================================================================== *)
(** * Part I: definitions *)
(* ===================================================================== *)

(** ** Python objects, exceptions and outcomes *)

(** The exceptions the modelled code raises, by class.  [RuntimeError] only
    marks states a Python heap cannot be in (a reference to an object that
    was never allocated). *)
Inductive exn : Type :=
| PyctUnboundLocalError (msg : string)
| NotImplementedError (msg : string)
| ValueError (msg : string)
| AttributeError (msg : string)
| IndexError (msg : string)
| KeyError (key : string)
| TypeError (msg : string)
| AssertionError
| RecursionError
| RuntimeError (msg : string).

(** Outcome of a call: a returned value or a raised exception. *)
Inductive result (A : Type) : Type :=
| Ok (a : A)
| Raise (e : exn).
Arguments Ok {A} a.
Arguments Raise {A} e.

Definition bind {A B : Type} (m : result A) (k : A → result B) : result B :=
  match m with
  | Ok a => k a
  | Raise e => Raise e
  end.

Notation "'let*' x ':=' m 'in' k" := (bind m (fun x => k))
  (at level 10, x name, m at level 100, k at level 200, only parsing).
Notation "'let*' ( x , y ) ':=' m 'in' k" :=
  (bind m (fun p => let (x, y) := p in k))
  (at level 10, x name, y name, m at level 100, k at level 200, only parsing).

(** Identity of a heap object (a [Variable] or a [Scope]). *)
Abbreviation ref := nat (only parsing).

(** The Python values the modelled functions handle.  [VUndefined] is an
    instance of py_defaults.Undefined, [VVar] a reference to an instance of
    py_defaults.Variable. *)
Inductive value : Type :=
| VNone
| VBool (b : bool)
| VInt (z : Z)
| VStr (s : string)
| VTuple (vs : list value)
| VList (vs : list value)
| VUndefined (name : string)
| VVar (r : ref).

(** Truth value testing: None, False, zero and empty sequences are false;
    instances of classes without [__bool__] or [__len__] (Undefined,
    Variable) are true. *)
Definition truthy (v : value) : bool :=
  match v with
  | VNone => false
  | VBool b => b
  | VInt z => negb (Z.eqb z 0)
  | VStr s => negb (Nat.eqb (String.length s) 0)
  | VTuple vs => negb (Nat.eqb (List.length vs) 0)
  | VList vs => negb (Nat.eqb (List.length vs) 0)
  | VUndefined _ => true
  | VVar _ => true
  end.

(** ** The syntax tree (gast) *)

(** The node kinds the passes have visitor methods for (FunctionDef, Assign,
    AugAssign, For, While, If, Nonlocal, Global, Name, BoolOp, UnaryOp),
    the ones their templates produce, and a selection of the kinds they
    leave to [generic_visit]. *)

Module gast.

Inductive expr_context : Type := Load | Store | Param.
Inductive boolop : Type := And | Or.
Inductive unaryop : Type := Not | USub.
Inductive operator : Type := Add | Sub | Mult.
Inductive cmpop : Type := Eq | NotEq | Lt | Gt.

(** Expressions.  A parameter of a [Lambda] is a [Name] in [Param]
    context, as gast has it. *)
Inductive expr : Type :=
| Name (id : string) (ctx : expr_context)
| Num (n : Z)
| Str (s : string)
| NameConstant (v : option bool)
| Attribute (value : expr) (attr : string) (ctx : expr_context)
| Subscript (value : expr) (slice : expr) (ctx : expr_context)
| Starred (value : expr) (ctx : expr_context)
| Tuple (elts : list expr) (ctx : expr_context)
| List (elts : list expr) (ctx : expr_context)
| BoolOp (op : boolop) (values : list expr)
| BinOp (left : expr) (op : operator) (right : expr)
| UnaryOp (op : unaryop) (operand : expr)
| Compare (left : expr) (ops : list cmpop) (comparators : list expr)
| Call (func : expr) (args : list expr) (keywords : list (string * expr))
| Lambda (args : list expr) (body : expr).

(** What the activity analysis attaches to a block: the names written in
    it ([Scope.modified]). *)
Record activity_scope : Type := mkActivity {
  modified : gset string
}.

(** The annotations [anno.Static.BODY_SCOPE] and [anno.Static.ORELSE_SCOPE]
    of an [If], [While] or [For]; absent on a node no analysis has seen. *)
Record annotations : Type := mkAnno {
  BODY_SCOPE : option activity_scope;
  ORELSE_SCOPE : option activity_scope
}.

Definition no_anno : annotations := mkAnno None None.

(** Statements.  [nid] is the identity of a [FunctionDef] object
    ([id(node)]); the parameters are given by name, each being a
    [Name(id, Param)] in gast. *)
Inductive stmt : Type :=
| FunctionDef (nid : nat) (name : string) (args : list string) (body : list stmt)
| Return (value : option expr)
| Assign (targets : list expr) (value : expr)
| AugAssign (target : expr) (op : operator) (value : expr)
| For (target : expr) (iter : expr) (body orelse : list stmt) (anno : annotations)
| While (test : expr) (body orelse : list stmt) (anno : annotations)
| If (test : expr) (body orelse : list stmt) (anno : annotations)
| Expr (value : expr)
| Pass
| Nonlocal (names : list string)
| Global (names : list string).

(** [P] holds of every child expression of [node]. *)
Definition children_all (P : expr → Prop) (node : expr) : Prop :=
  match node with
  | Name _ _ | Num _ | Str _ | NameConstant _ => True
  | Attribute value _ _ | Starred value _ | UnaryOp _ value => P value
  | Subscript a b _ | BinOp a _ b => P a ∧ P b
  | Tuple elts _ | List elts _ | BoolOp _ elts => Forall P elts
  | Compare lhs _ comparators => P lhs ∧ Forall P comparators
  | Call func args keywords =>
    P func ∧ Forall P args ∧ Forall (fun kw => P (snd kw)) keywords
  | Lambda args body => Forall P args ∧ P body
  end.

(** [P] holds of every statement directly inside [node]. *)
Definition blocks_all (P : stmt → Prop) (node : stmt) : Prop :=
  match node with
  | FunctionDef _ _ _ body => Forall P body
  | For _ _ body orelse _ | While _ body orelse _ | If _ body orelse _ =>
    Forall P body ∧ Forall P orelse
  | _ => True
  end.

(** [isinstance(node, gast.Name)] *)
Definition is_Name (node : expr) : bool :=
  match node with Name _ _ => true | _ => false end.

(** A for-target the passes take: a plain name, or a tuple or list of
    plain names. *)
Definition name_or_names (target : expr) : bool :=
  match target with
  | Name _ _ => true
  | Tuple elts _ | List elts _ => forallb is_Name elts
  | _ => false
  end.

(** What the scope analysis takes without raising: for-targets that are
    names or sequences of names, and [nonlocal] and [global] only inside a
    function ([in_func]). *)
Fixpoint analyzable (in_func : bool) (node : stmt) : bool :=
  match node with
  | FunctionDef _ _ _ body => forallb (analyzable true) body
  | For target _ body orelse _ =>
    name_or_names target &&
    forallb (analyzable in_func) body && forallb (analyzable in_func) orelse
  | While _ body orelse _ | If _ body orelse _ =>
    forallb (analyzable in_func) body && forallb (analyzable in_func) orelse
  | Nonlocal _ | Global _ => in_func
  | _ => true
  end.

(** Both annotations are present on every [If], [While] and [For], as the
    activity analysis leaves the tree. *)
Definition has_anno (anno : annotations) : bool :=
  match BODY_SCOPE anno, ORELSE_SCOPE anno with
  | Some _, Some _ => true
  | _, _ => false
  end.

Fixpoint annotated (node : stmt) : bool :=
  match node with
  | FunctionDef _ _ _ body => forallb annotated body
  | For _ _ body orelse anno | While _ body orelse anno
  | If _ body orelse anno =>
    has_anno anno && forallb annotated body && forallb annotated orelse
  | _ => true
  end.

(** The statement is, or holds at some depth, an augmented assignment. *)
Fixpoint contains_AugAssign (node : stmt) : bool :=
  match node with
  | AugAssign _ _ _ => true
  | FunctionDef _ _ _ body => existsb contains_AugAssign body
  | For _ _ body orelse _ | While _ body orelse _ | If _ body orelse _ =>
    existsb contains_AugAssign body || existsb contains_AugAssign orelse
  | _ => false
  end.

(** The statement is, or holds at some depth, a for-loop whose target is
    neither a plain name nor a tuple or list of plain names. *)
Fixpoint contains_bad_For (node : stmt) : bool :=
  match node with
  | For target _ body orelse _ =>
    negb (name_or_names target) ||
    existsb contains_bad_For body || existsb contains_bad_For orelse
  | FunctionDef _ _ _ body => existsb contains_bad_For body
  | While _ body orelse _ | If _ body orelse _ =>
    existsb contains_bad_For body || existsb contains_bad_For orelse
  | _ => false
  end.

(** The statement is, or holds at some depth, the FunctionDef object
    [nid]. *)
Fixpoint defines (nid : nat) (node : stmt) : bool :=
  match node with
  | FunctionDef nid' _ _ body => Nat.eqb nid' nid || existsb (defines nid) body
  | For _ _ body orelse _ | While _ body orelse _ | If _ body orelse _ =>
    existsb (defines nid) body || existsb (defines nid) orelse
  | _ => false
  end.

(** [p] holds of the expression or of an expression inside it. *)
Fixpoint expr_exists (p : expr → bool) (node : expr) : bool :=
  p node ||
  match node with
  | Name _ _ | Num _ | Str _ | NameConstant _ => false
  | Attribute value _ _ | Starred value _ | UnaryOp _ value => expr_exists p value
  | Subscript a b _ | BinOp a _ b => expr_exists p a || expr_exists p b
  | Tuple elts _ | List elts _ | BoolOp _ elts => existsb (expr_exists p) elts
  | Compare lhs _ comparators =>
    expr_exists p lhs || existsb (expr_exists p) comparators
  | Call func args keywords =>
    expr_exists p func || existsb (expr_exists p) args ||
    existsb (fun kw => expr_exists p (snd kw)) keywords
  | Lambda args body => existsb (expr_exists p) args || expr_exists p body
  end.

(** [p] holds of an expression somewhere in the statement. *)
Fixpoint stmt_exists_expr (p : expr → bool) (node : stmt) : bool :=
  match node with
  | FunctionDef _ _ _ body => existsb (stmt_exists_expr p) body
  | Return None => false
  | Return (Some value) => expr_exists p value
  | Assign targets value => existsb (expr_exists p) targets || expr_exists p value
  | AugAssign target _ value => expr_exists p target || expr_exists p value
  | For target iter body orelse _ =>
    expr_exists p target || expr_exists p iter ||
    existsb (stmt_exists_expr p) body || existsb (stmt_exists_expr p) orelse
  | While test body orelse _ | If test body orelse _ =>
    expr_exists p test ||
    existsb (stmt_exists_expr p) body || existsb (stmt_exists_expr p) orelse
  | Expr value => expr_exists p value
  | Pass | Nonlocal _ | Global _ => false
  end.

(** [p] holds of the statement or of a statement inside it. *)
Fixpoint stmt_exists (p : stmt → bool) (node : stmt) : bool :=
  p node ||
  match node with
  | FunctionDef _ _ _ body => existsb (stmt_exists p) body
  | For _ _ body orelse _ | While _ body orelse _ | If _ body orelse _ =>
    existsb (stmt_exists p) body || existsb (stmt_exists p) orelse
  | _ => false
  end.

(** The identities of the function definitions in the statement, each
    before the ones inside it. *)
Fixpoint function_ids (node : stmt) : list nat :=
  match node with
  | FunctionDef nid _ _ body => nid :: flat_map function_ids body
  | For _ _ body orelse _ | While _ body orelse _ | If _ body orelse _ =>
    flat_map function_ids body ++ flat_map function_ids orelse
  | _ => []
  end.

(** [isinstance(node, gast.FunctionDef)] *)
Definition is_FunctionDef (node : stmt) : bool :=
  match node with FunctionDef _ _ _ _ => true | _ => false end.

(** The statement holds no function definition, loop or conditional. *)
Definition is_simple (node : stmt) : bool :=
  match node with
  | FunctionDef _ _ _ _ | For _ _ _ _ _ | While _ _ _ _ | If _ _ _ _ => false
  | _ => true
  end.

(** What the Variables pass takes inside a function without raising: no
    augmented assignment, assignments whose first target is a name, and
    for-targets that are a name or a tuple or list of at least one name. *)
Fixpoint supported (node : stmt) : bool :=
  match node with
  | FunctionDef _ _ _ body => forallb supported body
  | Assign targets _ =>
    match targets with
    | Name _ _ :: _ => true
    | _ => false
    end
  | AugAssign _ _ _ => false
  | For target _ body orelse _ =>
    match target with
    | Name _ _ => true
    | Tuple elts _ | List elts _ =>
      forallb is_Name elts && negb (Nat.eqb (length elts) 0)
    | _ => false
    end && forallb supported body && forallb supported orelse
  | While _ body orelse _ | If _ body orelse _ =>
    forallb supported body && forallb supported orelse
  | _ => true
  end.

(** The statement is a for-loop whose target is not a plain name. *)
Definition unpacks (node : stmt) : bool :=
  match node with
  | For target _ _ _ _ => negb (is_Name target)
  | _ => false
  end.

(** Induction over trees that reaches the elements of every list. *)

Section expr_induction.
Variable P : expr → Prop.
Hypothesis HName : ∀ id ctx, P (Name id ctx).
Hypothesis HNum : ∀ n, P (Num n).
Hypothesis HStr : ∀ s, P (Str s).
Hypothesis HNameConstant : ∀ v, P (NameConstant v).
Hypothesis HAttribute : ∀ value attr ctx, P value → P (Attribute value attr ctx).
Hypothesis HSubscript : ∀ value slice ctx,
  P value → P slice → P (Subscript value slice ctx).
Hypothesis HStarred : ∀ value ctx, P value → P (Starred value ctx).
Hypothesis HTuple : ∀ elts ctx, Forall P elts → P (Tuple elts ctx).
Hypothesis HList : ∀ elts ctx, Forall P elts → P (List elts ctx).
Hypothesis HBoolOp : ∀ op values, Forall P values → P (BoolOp op values).
Hypothesis HBinOp : ∀ lhs op rhs, P lhs → P rhs → P (BinOp lhs op rhs).
Hypothesis HUnaryOp : ∀ op operand, P operand → P (UnaryOp op operand).
Hypothesis HCompare : ∀ lhs ops comparators,
  P lhs → Forall P comparators → P (Compare lhs ops comparators).
Hypothesis HCall : ∀ func args keywords,
  P func → Forall P args → Forall (fun kw => P (snd kw)) keywords →
  P (Call func args keywords).
Hypothesis HLambda : ∀ args body, Forall P args → P body → P (Lambda args body).

Fixpoint expr_nested_ind (e : expr) : P e :=
  let fix all (l : list expr) : Forall P l :=
    match l with
    | [] => List.Forall_nil P
    | x :: l' => List.Forall_cons P x l' (expr_nested_ind x) (all l')
    end in
  let fix all_kw (l : list (string * expr))
      : Forall (fun kw => P (snd kw)) l :=
    match l with
    | [] => List.Forall_nil _
    | x :: l' => List.Forall_cons _ x l' (expr_nested_ind (snd x)) (all_kw l')
    end in
  match e with
  | Name id ctx => HName id ctx
  | Num n => HNum n
  | Str s => HStr s
  | NameConstant v => HNameConstant v
  | Attribute value attr ctx => HAttribute value attr ctx (expr_nested_ind value)
  | Subscript value slice ctx =>
    HSubscript value slice ctx (expr_nested_ind value) (expr_nested_ind slice)
  | Starred value ctx => HStarred value ctx (expr_nested_ind value)
  | Tuple elts ctx => HTuple elts ctx (all elts)
  | List elts ctx => HList elts ctx (all elts)
  | BoolOp op values => HBoolOp op values (all values)
  | BinOp lhs op rhs =>
    HBinOp lhs op rhs (expr_nested_ind lhs) (expr_nested_ind rhs)
  | UnaryOp op operand => HUnaryOp op operand (expr_nested_ind operand)
  | Compare lhs ops comparators =>
    HCompare lhs ops comparators (expr_nested_ind lhs) (all comparators)
  | Call func args keywords =>
    HCall func args keywords (expr_nested_ind func) (all args) (all_kw keywords)
  | Lambda args body => HLambda args body (all args) (expr_nested_ind body)
  end.
End expr_induction.

Section stmt_induction.
Variable P : stmt → Prop.
Hypothesis HFunctionDef : ∀ nid name args body,
  Forall P body → P (FunctionDef nid name args body).
Hypothesis HReturn : ∀ value, P (Return value).
Hypothesis HAssign : ∀ targets value, P (Assign targets value).
Hypothesis HAugAssign : ∀ target op value, P (AugAssign target op value).
Hypothesis HFor : ∀ target iter body orelse anno,
  Forall P body → Forall P orelse → P (For target iter body orelse anno).
Hypothesis HWhile : ∀ test body orelse anno,
  Forall P body → Forall P orelse → P (While test body orelse anno).
Hypothesis HIf : ∀ test body orelse anno,
  Forall P body → Forall P orelse → P (If test body orelse anno).
Hypothesis HExpr : ∀ value, P (Expr value).
Hypothesis HPass : P Pass.
Hypothesis HNonlocal : ∀ names, P (Nonlocal names).
Hypothesis HGlobal : ∀ names, P (Global names).

Fixpoint stmt_nested_ind (s : stmt) : P s :=
  let fix all (l : list stmt) : Forall P l :=
    match l with
    | [] => List.Forall_nil P
    | x :: l' => List.Forall_cons P x l' (stmt_nested_ind x) (all l')
    end in
  match s with
  | FunctionDef nid name args body => HFunctionDef nid name args body (all body)
  | Return value => HReturn value
  | Assign targets value => HAssign targets value
  | AugAssign target op value => HAugAssign target op value
  | For target iter body orelse anno =>
    HFor target iter body orelse anno (all body) (all orelse)
  | While test body orelse anno =>
    HWhile test body orelse anno (all body) (all orelse)
  | If test body orelse anno => HIf test body orelse anno (all body) (all orelse)
  | Expr value => HExpr value
  | Pass => HPass
  | Nonlocal names => HNonlocal names
  | Global names => HGlobal names
  end.
End stmt_induction.

End gast.

(** ** sct/transformer.py: the visitor framework *)

Module transformer.
Import gast.

(** A visitor method: it reads and updates the transformer's state, and
    returns or raises. *)
Definition M (S A : Type) : Type := S → result (A * S).

Definition ret {S A : Type} (a : A) : M S A := fun st => Ok (a, st).

Definition raise {S A : Type} (e : exn) : M S A := fun _ => Raise e.

Definition mbind {S A B : Type} (m : M S A) (k : A → M S B) : M S B :=
  fun st =>
    match m st with
    | Ok (a, st') => k a st'
    | Raise e => Raise e
    end.

Notation "'do' x '<-' m ';' k" := (mbind m (fun x => k))
  (at level 10, x name, m at level 100, k at level 200, only parsing).

(** The call raises, whatever the state. *)
Definition fails {S A : Type} (m : M S A) : Prop :=
  ∀ st, ∃ e, m st = Raise e.

(** [f] hands back its argument whenever it returns. *)
Definition returns_same {S A : Type} (f : A → M S A) (x : A) : Prop :=
  ∀ st y st', f x st = Ok (y, st') → y = x.

(** The visit of a statement hands back that statement, alone. *)
Definition returns_stmt {S : Type} (visit : stmt → M S (list stmt))
    (node : stmt) : Prop :=
  ∀ st out st', visit node st = Ok (out, st') → out = [node].

(** From a state satisfying [I], the call returns, in a state satisfying
    [I]. *)
Definition total {S A : Type} (I : S → Prop) (m : M S A) : Prop :=
  ∀ st, I st → ∃ a st', m st = Ok (a, st') ∧ I st'.

(** A call that returns from a state satisfying [I] leaves a state
    satisfying [I]. *)
Definition preserves {S A : Type} (I : S → Prop) (m : M S A) : Prop :=
  ∀ st a st', I st → m st = Ok (a, st') → I st'.

(** Whatever the call returns satisfies [Q]. *)
Definition yields {S A : Type} (Q : A → Prop) (m : M S A) : Prop :=
  ∀ st a st', m st = Ok (a, st') → Q a.

(** The call never raises [e]. *)
Definition never_raises {S A : Type} (e : exn) (m : M S A) : Prop :=
  ∀ st, m st ≠ Raise e.

(** Visit every element, left to right. *)
Fixpoint mapM {S A B : Type} (f : A → M S B) (l : list A) : M S (list B) :=
  match l with
  | [] => ret []
  | x :: l' =>
    do y <- f x;
    do ys <- mapM f l';
    ret (y :: ys)
  end.

(** Modelled from the spec: [Base.visit_block] of sct/transformer.py, which
    is not among the sources.  Each statement is visited in order, and a
    visit that returns a list of statements has them spliced in. *)
Fixpoint visit_block {S : Type} (visit : stmt → M S (list stmt))
    (nodes : list stmt) : M S (list stmt) :=
  match nodes with
  | [] => ret []
  | node :: nodes' =>
    do replacement <- visit node;
    do rest <- visit_block visit nodes';
    ret (replacement ++ rest)
  end.

(** Modelled from the spec: [generic_visit] as [Base] inherits it from
    [ast.NodeTransformer].  The children are visited in field order and put
    back; an exception raised by a child's visit leaves with its class and
    message unchanged. *)
Definition generic_visit_expr {S : Type} (visit : expr → M S expr)
    (node : expr) : M S expr :=
  match node with
  | Name id ctx => ret (Name id ctx)
  | Num n => ret (Num n)
  | Str s => ret (Str s)
  | NameConstant v => ret (NameConstant v)
  | Attribute value attr ctx =>
    do value' <- visit value; ret (Attribute value' attr ctx)
  | Subscript value slice ctx =>
    do value' <- visit value;
    do slice' <- visit slice;
    ret (Subscript value' slice' ctx)
  | Starred value ctx => do value' <- visit value; ret (Starred value' ctx)
  | Tuple elts ctx => do elts' <- mapM visit elts; ret (Tuple elts' ctx)
  | List elts ctx => do elts' <- mapM visit elts; ret (List elts' ctx)
  | BoolOp op values => do values' <- mapM visit values; ret (BoolOp op values')
  | BinOp lhs op rhs =>
    do lhs' <- visit lhs;
    do rhs' <- visit rhs;
    ret (BinOp lhs' op rhs')
  | UnaryOp op operand => do operand' <- visit operand; ret (UnaryOp op operand')
  | Compare lhs ops comparators =>
    do lhs' <- visit lhs;
    do comparators' <- mapM visit comparators;
    ret (Compare lhs' ops comparators')
  | Call func args keywords =>
    do func' <- visit func;
    do args' <- mapM visit args;
    do keywords' <-
      mapM (fun kw => do v <- visit (snd kw); ret (fst kw, v)) keywords;
    ret (Call func' args' keywords')
  | Lambda args body =>
    do args' <- mapM visit args;
    do body' <- visit body;
    ret (Lambda args' body')
  end.

Definition generic_visit_stmt {S : Type} (visit_expr : expr → M S expr)
    (visit_stmt : stmt → M S (list stmt)) (node : stmt) : M S stmt :=
  match node with
  | FunctionDef nid name args body =>
    do body' <- visit_block visit_stmt body;
    ret (FunctionDef nid name args body')
  | Return None => ret (Return None)
  | Return (Some value) => do value' <- visit_expr value; ret (Return (Some value'))
  | Assign targets value =>
    do targets' <- mapM visit_expr targets;
    do value' <- visit_expr value;
    ret (Assign targets' value')
  | AugAssign target op value =>
    do target' <- visit_expr target;
    do value' <- visit_expr value;
    ret (AugAssign target' op value')
  | For target iter body orelse anno =>
    do target' <- visit_expr target;
    do iter' <- visit_expr iter;
    do body' <- visit_block visit_stmt body;
    do orelse' <- visit_block visit_stmt orelse;
    ret (For target' iter' body' orelse' anno)
  | While test body orelse anno =>
    do test' <- visit_expr test;
    do body' <- visit_block visit_stmt body;
    do orelse' <- visit_block visit_stmt orelse;
    ret (While test' body' orelse' anno)
  | If test body orelse anno =>
    do test' <- visit_expr test;
    do body' <- visit_block visit_stmt body;
    do orelse' <- visit_block visit_stmt orelse;
    ret (If test' body' orelse' anno)
  | Expr value => do value' <- visit_expr value; ret (Expr value')
  | Pass => ret Pass
  | Nonlocal names => ret (Nonlocal names)
  | Global names => ret (Global names)
  end.

(** [node.id] *)
Definition get_id (node : expr) : result string :=
  match node with
  | Name id _ => Ok id
  | _ => Raise (AttributeError "object has no attribute 'id'")
  end.

Definition lift {S A : Type} (m : result A) : M S A := fun st =>
  match m with
  | Ok a => Ok (a, st)
  | Raise e => Raise e
  end.

(** [type(node)] as [str.format] prints it. *)
Definition type_repr (node : expr) : string :=
  match node with
  | Name _ _ => "<class 'gast.gast.Name'>"
  | Num _ => "<class 'gast.gast.Num'>"
  | Str _ => "<class 'gast.gast.Str'>"
  | NameConstant _ => "<class 'gast.gast.NameConstant'>"
  | Attribute _ _ _ => "<class 'gast.gast.Attribute'>"
  | Subscript _ _ _ => "<class 'gast.gast.Subscript'>"
  | Starred _ _ => "<class 'gast.gast.Starred'>"
  | Tuple _ _ => "<class 'gast.gast.Tuple'>"
  | List _ _ => "<class 'gast.gast.List'>"
  | BoolOp _ _ => "<class 'gast.gast.BoolOp'>"
  | BinOp _ _ _ => "<class 'gast.gast.BinOp'>"
  | UnaryOp _ _ => "<class 'gast.gast.UnaryOp'>"
  | Compare _ _ _ => "<class 'gast.gast.Compare'>"
  | Call _ _ _ => "<class 'gast.gast.Call'>"
  | Lambda _ _ => "<class 'gast.gast.Lambda'>"
  end.

(** The targets of a for-loop as [visit_For] of the Variables and
    Control-Flow passes collects them. *)
Definition for_targets (target : expr) : result (list expr) :=
  match target with
  | Tuple elts _ | List elts _ => Ok elts
  | Name _ _ => Ok [target]
  | _ =>
    Raise (ValueError
             ("For target must be gast.Tuple, gast.List, or gast.Name, got "
              +:+ type_repr target +:+ "."))
  end.

(** The exception [visit_For] of the Variables and Control-Flow passes
    raises for a target, if any: the explicit ValueError for a node that is
    no Name, Tuple or List, and the AttributeError of [.id] for a Tuple or
    List with an element that is no Name. *)
Definition for_target_error (target : expr) : option exn :=
  match for_targets target with
  | Raise e => Some e
  | Ok elts =>
    if forallb is_Name elts then None
    else Some (AttributeError "object has no attribute 'id'")
  end.

(** [api/config.py]: the overload module, given by the names of its
    attributes, and the symbol the rewritten tree calls it by. *)
Record VirtualizationConfig : Type := mkConfig {
  module : gset string;
  symbol_name : string
}.

(** [hasattr(overload.module, attr)] *)
Definition hasattr (overload : VirtualizationConfig) (attr : string) : bool :=
  bool_decide (attr ∈ module overload).

(** Modelled from the spec: what [templates.replace] of sct/templates.py,
    which is not among the sources, makes of the fragment
    [overload.attr(args)]: the placeholder [overload] becomes the overload's
    symbol and each argument placeholder the node supplied for it. *)
Definition overload_call (overload : VirtualizationConfig) (attr : string)
    (args : list expr) : expr :=
  Call (Attribute (Name (symbol_name overload) Load) attr Load) args [].

End transformer.

(** ** transformers/virtualization/scoping.py *)

Module scoping.

(** A Scope object.  [parent] is a reference to the enclosing Scope object,
    which the analysis keeps mutating after the child was created. *)
Record Scope : Type := mkScope {
  parent : option ref;
  locals : gset string;
  free : gset string;
  nonlocals : gset string;
  globals : gset string;
  func_name : option string
}.

(** [Scope.__init__] *)
Definition new_Scope (parent : option ref) (func_name : option string) : Scope :=
  mkScope parent ∅ ∅ ∅ ∅ func_name.

Definition add_free (var : string) (s : Scope) : Scope :=
  mkScope (parent s) (locals s) (free s ∪ {[var]}) (nonlocals s) (globals s)
          (func_name s).

Definition add_local (var : string) (s : Scope) : Scope :=
  let free' := if decide (var ∈ free s) then free s ∖ {[var]} else free s in
  mkScope (parent s) (locals s ∪ {[var]}) free' (nonlocals s) (globals s)
          (func_name s).

Definition add_nonlocal (var : string) (s : Scope) : Scope :=
  let locals' := if decide (var ∈ locals s) then locals s ∖ {[var]} else locals s in
  mkScope (parent s) locals' (free s) (nonlocals s ∪ {[var]}) (globals s)
          (func_name s).

Definition add_global (var : string) (s : Scope) : Scope :=
  let locals' := if decide (var ∈ locals s) then locals s ∖ {[var]} else locals s in
  mkScope (parent s) locals' (free s) (nonlocals s) (globals s ∪ {[var]})
          (func_name s).

Definition is_local (var : string) (s : Scope) : bool := bool_decide (var ∈ locals s).
Definition is_free (var : string) (s : Scope) : bool := bool_decide (var ∈ free s).
Definition is_global (var : string) (s : Scope) : bool := bool_decide (var ∈ globals s).
Definition is_nonlocal (var : string) (s : Scope) : bool := bool_decide (var ∈ nonlocals s).

(** The Scope objects allocated so far; a reference is an index. *)
Abbreviation scope_heap := (list Scope) (only parsing).

(** [Scope.should_virtualize], [depth] bounding the recursion through
    [parent].  [self.parent and self.parent.should_virtualize(var)] returns
    [None] when there is no parent. *)
Fixpoint should_virtualize_rec (depth : nat) (σ : scope_heap) (self : ref)
    (var : string) : result value :=
  match depth with
  | O => Raise RecursionError
  | S depth' =>
    match σ !! self with
    | None => Raise (RuntimeError "no such Scope")
    | Some s =>
      if is_local var s then Ok (VBool true)
      else if is_nonlocal var s || is_free var s then
        match parent s with
        | None => Ok VNone
        | Some p => should_virtualize_rec depth' σ p var
        end
      else Ok (VBool false)
    end
  end.

(** A parent is allocated before its children, so [S self] calls suffice. *)
Definition should_virtualize (σ : scope_heap) (self : ref) (var : string)
    : result value :=
  should_virtualize_rec (S self) σ self var.

(** Every Scope's parent is an older object: what [Scope(self.scope, name)]
    builds. *)
Definition heap_wf (σ : scope_heap) : Prop :=
  ∀ r s p, σ !! r = Some s → parent s = Some p → p < r.

(** The call [σ[self].should_virtualize(var)] returns a true value. *)
Definition virtualizes (σ : scope_heap) (self : ref) (var : string) : Prop :=
  ∃ v, should_virtualize σ self var = Ok v ∧ truthy v = true.

(** [Scope.is_bound], [depth] bounding the recursion through [parent].
    When none of the three tests holds the [or] chain yields its last
    operand, [self.parent and self.parent.is_bound(var)]: [None] without a
    parent, the parent's answer with one. *)
Fixpoint is_bound_rec (depth : nat) (σ : scope_heap) (self : ref)
    (var : string) : result value :=
  match depth with
  | O => Raise RecursionError
  | S depth' =>
    match σ !! self with
    | None => Raise (RuntimeError "no such Scope")
    | Some s =>
      if is_local var s || is_global var s || is_nonlocal var s
      then Ok (VBool true)
      else
        match parent s with
        | None => Ok VNone
        | Some p => is_bound_rec depth' σ p var
        end
    end
  end.

Definition is_bound (σ : scope_heap) (self : ref) (var : string)
    : result value :=
  is_bound_rec (S self) σ self var.

(** [on_chain σ self a]: the Scope [a] is [self] or is reached from it by
    following [parent]. *)
Inductive on_chain (σ : scope_heap) : ref → ref → Prop :=
| on_chain_self self : on_chain σ self self
| on_chain_parent self s p a :
    σ !! self = Some s → parent s = Some p → on_chain σ p a →
    on_chain σ self a.

(** [deferred σ var self a]: the Scope [a] is reached from [self] through
    Scopes that leave the decision on [var] to their parent, [var] being
    outside their [locals] and inside their [nonlocals] or [free]. *)
Inductive deferred (σ : scope_heap) (var : string) : ref → ref → Prop :=
| deferred_here self : deferred σ var self self
| deferred_up self s p a :
    σ !! self = Some s → var ∉ locals s →
    var ∈ nonlocals s ∨ var ∈ free s →
    parent s = Some p → deferred σ var p a →
    deferred σ var self a.

(** [scoped scopes σ cur node]: what the analysis records for the function
    definitions of a statement visited with current Scope [cur].  Each has
    an entry in [scopes]; the Scope it names has [cur] as parent, and is the
    current Scope of the statements of the function's body. *)
Inductive scoped (scopes : gmap nat ref) (σ : scope_heap)
    : option ref → gast.stmt → Prop :=
| scoped_FunctionDef cur nid name args body r s :
    scopes !! nid = Some r → σ !! r = Some s → parent s = cur →
    Forall (scoped scopes σ (Some r)) body →
    scoped scopes σ cur (gast.FunctionDef nid name args body)
| scoped_For cur target iter body orelse anno :
    Forall (scoped scopes σ cur) body → Forall (scoped scopes σ cur) orelse →
    scoped scopes σ cur (gast.For target iter body orelse anno)
| scoped_While cur test body orelse anno :
    Forall (scoped scopes σ cur) body → Forall (scoped scopes σ cur) orelse →
    scoped scopes σ cur (gast.While test body orelse anno)
| scoped_If cur test body orelse anno :
    Forall (scoped scopes σ cur) body → Forall (scoped scopes σ cur) orelse →
    scoped scopes σ cur (gast.If test body orelse anno)
| scoped_simple cur node :
    gast.is_simple node = true → scoped scopes σ cur node.

(** The scope of [f] in [def f(): global g; def g(): ...] once the analysis
    has seen both statements: [add_global] by visit_Global, [add_local] by
    visit_FunctionDef of [g]. *)
Definition scope_global_then_def : Scope :=
  add_local "g" (add_global "g" (new_Scope None (Some "f"))).

(** *** class ScopeTransformer *)

Import gast transformer.

(** The transformer's fields, with the Scope objects it has allocated:
    [scopes] maps the identity of a FunctionDef to its Scope, [scope] is the
    current Scope or None. *)
Record ScopeTransformer : Type := mkScopeTransformer {
  scope_objs : list Scope;
  scopes : gmap nat ref;
  scope : option ref
}.

(** [ScopeTransformer.__init__] *)
Definition new_ScopeTransformer : ScopeTransformer :=
  mkScopeTransformer [] ∅ None.

(** Call a mutating method of the Scope object [r]. *)
Definition update_scope (r : ref) (method : Scope → Scope)
    : M ScopeTransformer unit := fun st =>
  match scope_objs st !! r with
  | Some s =>
    Ok (tt, mkScopeTransformer (<[r := method s]> (scope_objs st))
              (scopes st) (scope st))
  | None => Raise (RuntimeError "no such Scope")
  end.

(** [_check_local(node, name)], [ctx] being [node.ctx]. *)
Definition _check_local (ctx : expr_context) (name : string)
    : M ScopeTransformer unit := fun st =>
  match scope st with
  | None => Ok (tt, st)
  | Some r =>
    match scope_objs st !! r with
    | None => Raise (RuntimeError "no such Scope")
    | Some s =>
      if is_global name s || is_nonlocal name s then Ok (tt, st)
      else
        match ctx with
        | Store => update_scope r (add_local name) st
        | _ =>
          if negb (is_local name s)
          then update_scope r (add_free name) st
          else Ok (tt, st)
        end
    end
  end.

(** [visit_Name] *)
Definition visit_Name (id : string) (ctx : expr_context)
    : M ScopeTransformer expr :=
  do _ <- _check_local ctx id;
  ret (Name id ctx).

Fixpoint visit_expr (node : expr) : M ScopeTransformer expr :=
  match node with
  | Name id ctx => visit_Name id ctx
  | _ => generic_visit_expr visit_expr node
  end.

(** The first part of [visit_For]: the names of the target are recorded
    with the target's context; reading [.id] raises on anything but a
    [Name]. *)
Definition visit_For_target (target : expr) : M ScopeTransformer unit :=
  match target with
  | Tuple elts ctx | List elts ctx =>
    do _ <- mapM (fun elt => do id <- lift (get_id elt); _check_local ctx id) elts;
    ret tt
  | Name id ctx => _check_local ctx id
  | _ => raise (AttributeError "object has no attribute 'id'")
  end.

(** [self.scope.add_nonlocal] or [self.scope.add_global], looked up before
    the names are walked: without a current scope the lookup fails. *)
Definition _visit_free (callback : string → Scope → Scope)
    (names : list string) : M ScopeTransformer unit := fun st =>
  match scope st with
  | None => Raise (AttributeError "'NoneType' object has no attribute")
  | Some r =>
    (do _ <- mapM (fun name => update_scope r (callback name)) names;
     ret tt) st
  end.

Definition get_scope : M ScopeTransformer (option ref) := fun st =>
  Ok (scope st, st).

Definition set_scope (r : option ref) : M ScopeTransformer unit := fun st =>
  Ok (tt, mkScopeTransformer (scope_objs st) (scopes st) r).

(** [scope = Scope(self.scope, name); self.scopes[id(node)] = scope;
    self.scope = scope] *)
Definition enter_scope (nid : nat) (name : string)
    : M ScopeTransformer ref := fun st =>
  let r := length (scope_objs st) in
  Ok (r, mkScopeTransformer
           (scope_objs st ++ [new_Scope (scope st) (Some name)])
           (<[nid := r]> (scopes st)) (Some r)).

(** [self.scope.parent], which fails without a current scope. *)
Definition scope_parent : M ScopeTransformer (option ref) := fun st =>
  match scope st with
  | None => Raise (AttributeError "'NoneType' object has no attribute 'parent'")
  | Some r =>
    match scope_objs st !! r with
    | None => Raise (RuntimeError "no such Scope")
    | Some s => Ok (parent s, st)
    end
  end.

Fixpoint visit_stmt (node : stmt) : M ScopeTransformer (list stmt) :=
  match node with
  | FunctionDef nid name args body =>
    (* visit_FunctionDef *)
    do outer <- get_scope;
    do _ <- match outer with
            | Some r => update_scope r (add_local name)
            | None => ret tt
            end;
    do r <- enter_scope nid name;
    do _ <- mapM (fun arg => update_scope r (add_local arg)) args;
    do node' <- generic_visit_stmt visit_expr visit_stmt node;
    do p <- scope_parent;
    do _ <- match p with
            | Some pr => update_scope pr (add_local name)
            | None => ret tt
            end;
    do p' <- scope_parent;
    do _ <- set_scope p';
    ret [node']
  | Nonlocal names =>
    do _ <- _visit_free add_nonlocal names; ret [Nonlocal names]
  | Global names =>
    do _ <- _visit_free add_global names; ret [Global names]
  | For target iter body orelse anno =>
    (* visit_For *)
    do _ <- visit_For_target target;
    do iter' <- generic_visit_expr visit_expr iter;
    do body' <- visit_block visit_stmt body;
    do orelse' <- visit_block visit_stmt orelse;
    ret [For target iter' body' orelse' anno]
  | _ =>
    do node' <- generic_visit_stmt visit_expr visit_stmt node;
    ret [node']
  end.

(** The current scope, if any, is an allocated object, and parents are
    older than their children. *)
Definition st_ok (st : ScopeTransformer) : Prop :=
  (∀ r, scope st = Some r → r < length (scope_objs st)) ∧
  heap_wf (scope_objs st).

(** [st'] has every Scope object of [st], with the same parent. *)
Definition extends (st st' : ScopeTransformer) : Prop :=
  ∀ r s, scope_objs st !! r = Some s →
    ∃ s', scope_objs st' !! r = Some s' ∧ parent s' = parent s.

(** What holds between the state [st0] in which a visit starts and every
    state it passes through at the same nesting depth. *)
Definition same_scope (st0 st : ScopeTransformer) : Prop :=
  scope st = scope st0 ∧ st_ok st ∧ extends st0 st.

(** [ScopeTransformer(ctx).visit(node)] on the module that holds the
    entity. *)
Definition visit (tree : list stmt) : result (list stmt * ScopeTransformer) :=
  visit_block visit_stmt tree new_ScopeTransformer.

End scoping.

(** ** overloads/py_defaults.py *)

(** [is_substring sub s]: [sub in s] on Python strings. *)
Fixpoint is_substring (sub s : string) : bool :=
  String.prefix sub s ||
  match s with
  | EmptyString => false
  | String _ s' => is_substring sub s'
  end.

Module py_defaults.

(** An instance of class Variable ([Variable] is reserved in Rocq). *)
Record PyctVariable : Type := mkVariable {
  val : value;
  name : string
}.

(** What running user code can change: the Variable objects, and the log of
    the host callables invoked so far (by name, oldest first). *)
Record world : Type := mkWorld {
  vars : list PyctVariable;
  trace : list string
}.

(** A zero-argument callable: it may read and change the world, and returns
    or raises. *)
Definition thunk : Type := world → result (value * world).

Definition with_vars (w : world) (h : list PyctVariable) : world :=
  mkWorld h (trace w).

(** [obj.val] *)
Definition get_val (obj : value) (w : world) : result value :=
  match obj with
  | VVar r =>
    match vars w !! r with
    | Some o => Ok (val o)
    | None => Raise (RuntimeError "no such Variable")
    end
  | _ => Raise (AttributeError "object has no attribute 'val'")
  end.

(** [obj.val = v].  Instances of builtin types reject a new attribute; an
    Undefined instance takes it, which nothing modelled here observes. *)
Definition set_val (obj : value) (v : value) (w : world) : result world :=
  match obj with
  | VVar r =>
    match vars w !! r with
    | Some o => Ok (with_vars w (<[r := mkVariable v (name o)]> (vars w)))
    | None => Raise (RuntimeError "no such Variable")
    end
  | VUndefined _ => Ok w
  | _ => Raise (AttributeError "object has no attribute 'val'")
  end.

(** [if_stmt(cond, body, orelse, _)] *)
Definition if_stmt (cond body orelse : thunk) (local_writes : value)
    : thunk := fun w =>
  let* (c, w1) := cond w in
  if truthy c
  then let* (_, w2) := body w1 in Ok (VNone, w2)
  else let* (_, w2) := orelse w1 in Ok (VNone, w2).

(** A callable object: its identity [id(f)], its [repr], and what calling
    it with positional and keyword arguments does. *)
Record callable : Type := mkCallable {
  func_id : nat;
  func_repr : string;
  func_call : list value → list (string * value) → thunk
}.

(** [call(func, args, keywords)] *)
Definition call (func : callable) (args : list value)
    (keywords : list (string * value)) : thunk :=
  func_call func args keywords.

(** The loop of [while_stmt].  A Python loop may run for ever: [fuel] bounds
    the number of calls of [cond], and [None] says that the bound was
    reached with the loop still running. *)
Fixpoint while_loop (fuel : nat) (cond body : thunk) (w : world)
    : option (result world) :=
  match fuel with
  | O => None
  | S fuel' =>
    match cond w with
    | Raise e => Some (Raise e)
    | Ok (c, w1) =>
      if truthy c
      then
        match body w1 with
        | Raise e => Some (Raise e)
        | Ok (_, w2) => while_loop fuel' cond body w2
        end
      else Some (Ok w1)
    end
  end.

(** [while_stmt(cond, body, orelse, _)] *)
Definition while_stmt (fuel : nat) (cond body orelse : thunk)
    (local_writes : value) (w : world) : option (result (value * world)) :=
  match while_loop fuel cond body w with
  | None => None
  | Some (Raise e) => Some (Raise e)
  | Some (Ok w1) => Some (let* (_, w2) := orelse w1 in Ok (VNone, w2))
  end.

(** [len(iter_)] and [iter_[i]] for the sequences modelled: the items of
    a list or tuple, the characters of a string. *)
Definition seq_items (iter_ : value) : result (list value) :=
  match iter_ with
  | VList vs => Ok vs
  | VTuple vs => Ok vs
  | VStr s => Ok ((fun c => VStr (String c EmptyString)) <$> list_ascii_of_string s)
  | _ => Raise (TypeError "object has no len()")
  end.

(** The loop of [for_stmt]: [target.val = iter_[i]; body()] for each index. *)
Fixpoint for_loop (target : value) (items : list value) (body : thunk)
    (w : world) : result world :=
  match items with
  | [] => Ok w
  | item :: items' =>
    let* w1 := set_val target item w in
    let* (_, w2) := body w1 in
    for_loop target items' body w2
  end.

(** [for_stmt(target, iter_, body, orelse, _)] *)
Definition for_stmt (target iter_ : value) (body orelse : thunk)
    (local_writes : value) : thunk := fun w =>
  let* items := seq_items iter_ in
  let* w1 := for_loop target items body w in
  let* (_, w2) := orelse w1 in
  Ok (VNone, w2).

(** The loop of [and_]: [for op in operands: if not op(): return False]. *)
Fixpoint and_loop (operands : list thunk) (w : world)
    : result (value * world) :=
  match operands with
  | [] => Ok (VBool true, w)
  | op :: operands' =>
    let* (v, w1) := op w in
    if negb (truthy v) then Ok (VBool false, w1) else and_loop operands' w1
  end.

Definition and_ (x : value) (operands : list thunk) : thunk := fun w =>
  if truthy x then and_loop operands w else Ok (VBool false, w).

(** The loop of [or_]: [for op in operands: if op(): return True]. *)
Fixpoint or_loop (operands : list thunk) (w : world)
    : result (value * world) :=
  match operands with
  | [] => Ok (VBool false, w)
  | op :: operands' =>
    let* (v, w1) := op w in
    if truthy v then Ok (VBool true, w1) else or_loop operands' w1
  end.

Definition or_ (x : value) (operands : list thunk) : thunk := fun w =>
  if negb (truthy x) then or_loop operands w else Ok (VBool true, w).

Definition not_ (x : value) : value := VBool (negb (truthy x)).

Definition is_undefined (v : value) : bool :=
  match v with VUndefined _ => true | _ => false end.

(** [init(name)]: a new Variable whose value is [Undefined(name)]. *)
Definition init (name : string) (w : world) : value * world :=
  (VVar (length (vars w)),
   with_vars w (vars w ++ [mkVariable (VUndefined name) name])).

(** [assign(lhs, rhs)] *)
Definition assign (lhs rhs : value) (w : world) : result (value * world) :=
  let* w1 := set_val lhs rhs w in
  Ok (lhs, w1).

(** The interpreter's bound on nested calls (sys.getrecursionlimit()). *)
Definition recursion_limit : nat := 1000.

(** [read(var)], [depth] counting the calls still allowed. *)
Fixpoint read_rec (depth : nat) (var : value) (w : world) : result value :=
  match depth with
  | O => Raise RecursionError
  | S depth' =>
    match var with
    | VVar r =>
      match vars w !! r with
      | None => Raise (RuntimeError "no such Variable")
      | Some o =>
        match val o with
        | VUndefined n =>
          Raise (PyctUnboundLocalError
                   ("local variable '" +:+ n +:+ "' referenced before assignment"))
        | VVar r' => read_rec depth' (VVar r') w
        | v => Ok v
        end
      end
    | _ => Raise AssertionError
    end
  end.

Definition read (var : value) (w : world) : result value :=
  read_rec recursion_limit var w.

(** Straight-line uses of the storage hooks, to speak about every program
    point reached by calls of [init], [assign] and [for_stmt]. *)
Inductive op : Type :=
| OInit (name : string)
| OAssign (lhs : ref) (rhs : value)
| OFor (target : ref) (iter_ : list value) (body orelse : list op).

Fixpoint run_op (o : op) (w : world) : result world :=
  let fix run_ops (os : list op) (w : world) : result world :=
    match os with
    | [] => Ok w
    | o :: os' => let* w1 := run_op o w in run_ops os' w1
    end in
  match o with
  | OInit name => Ok (snd (init name w))
  | OAssign lhs rhs => let* (_, w1) := assign (VVar lhs) rhs w in Ok w1
  | OFor target iter_ body orelse =>
    let* (_, w1) :=
      for_stmt (VVar target) (VList iter_)
        (fun w => let* w' := run_ops body w in Ok (VNone, w'))
        (fun w => let* w' := run_ops orelse w in Ok (VNone, w'))
        VNone w in
    Ok w1
  end.

Fixpoint run_ops (os : list op) (w : world) : result world :=
  match os with
  | [] => Ok w
  | o :: os' => let* w1 := run_op o w in run_ops os' w1
  end.

(** [stores_to h o]: [o] passes [h] to [assign] or uses it as the target of
    [for_stmt], at any depth. *)
Fixpoint stores_to (h : ref) (o : op) : bool :=
  match o with
  | OInit _ => false
  | OAssign lhs _ => Nat.eqb lhs h
  | OFor target _ body orelse =>
    Nat.eqb target h || existsb (stores_to h) body || existsb (stores_to h) orelse
  end.

(** [assigns_to h o]: [o] passes [h] to [assign], at any depth. *)
Fixpoint assigns_to (h : ref) (o : op) : bool :=
  match o with
  | OInit _ => false
  | OAssign lhs _ => Nat.eqb lhs h
  | OFor _ _ body orelse =>
    existsb (assigns_to h) body || existsb (assigns_to h) orelse
  end.

(** The value stored in Variable [r] ([None] only for a reference that was
    never allocated). *)
Definition val_at (w : world) (r : ref) : value :=
  match vars w !! r with
  | Some o => val o
  | None => VNone
  end.

(** When [h] is allocated in [w], [w'] has the same object there. *)
Definition keeps (h : ref) (w w' : world) : Prop :=
  h < length (vars w) →
  length (vars w) ≤ length (vars w') ∧ vars w' !! h = vars w !! h.

(** A thunk that returns [v] and touches nothing: [lambda: v] for a value
    already computed. *)
Definition const_thunk (v : value) : thunk := fun w => Ok (v, w).

(** A host callable named [f] that returns [v]: each invocation is logged. *)
Definition logged_thunk (f : string) (v : value) : thunk := fun w =>
  Ok (v, mkWorld (vars w) (trace w ++ [f])).

(** How often [f] was invoked according to the log. *)
Definition invocations (f : string) (w : world) : nat :=
  length (filter (fun g => g = f) (trace w)).

(** [lambda: not op()] for a thunk [op]. *)
Definition negate_thunk (op : thunk) : thunk := fun w =>
  let* (v, w1) := op w in Ok (not_ v, w1).

(** The world a call leaves, whatever it returns. *)
Definition world_of {A : Type} (o : option (result (A * world)))
    : option (result world) :=
  match o with
  | None => None
  | Some (Raise e) => Some (Raise e)
  | Some (Ok (_, w)) => Some (Ok w)
  end.

(** Host Python's [x and op1() and ...]: the first false operand, else the
    last operand.  Not part of pyctr; the chain the rewrite replaces. *)
Fixpoint host_and (x : value) (operands : list thunk) (w : world)
    : result (value * world) :=
  match operands with
  | [] => Ok (x, w)
  | op :: operands' =>
    if truthy x
    then let* (v, w1) := op w in host_and v operands' w1
    else Ok (x, w)
  end.

(** Host Python's [x or op1() or ...]: the first true operand, else the
    last operand. *)
Fixpoint host_or (x : value) (operands : list thunk) (w : world)
    : result (value * world) :=
  match operands with
  | [] => Ok (x, w)
  | op :: operands' =>
    if truthy x
    then Ok (x, w)
    else let* (v, w1) := op w in host_or v operands' w1
  end.

(** Induction over [op] that reaches the bodies of [OFor]. *)

Section op_induction.
Variable P : op → Prop.
Hypothesis Hinit : ∀ name, P (OInit name).
Hypothesis Hassign : ∀ lhs rhs, P (OAssign lhs rhs).
Hypothesis Hfor : ∀ target iter_ body orelse,
  Forall P body → Forall P orelse → P (OFor target iter_ body orelse).

Fixpoint op_nested_ind (o : op) : P o :=
  match o with
  | OInit name => Hinit name
  | OAssign lhs rhs => Hassign lhs rhs
  | OFor target iter_ body orelse =>
    Hfor target iter_ body orelse
      ((fix go (l : list op) : Forall P l :=
          match l with
          | [] => List.Forall_nil P
          | x :: l' => List.Forall_cons P x l' (op_nested_ind x) (go l')
          end) body)
      ((fix go (l : list op) : Forall P l :=
          match l with
          | [] => List.Forall_nil P
          | x :: l' => List.Forall_cons P x l' (op_nested_ind x) (go l')
          end) orelse)
  end.
End op_induction.

End py_defaults.

(** ** overloads/staging.py *)

Module staging.
Import py_defaults.

(** [[var.val for var in func_freevars]] *)
Fixpoint get_vals (func_freevars : list value) (w : world)
    : result (list value) :=
  match func_freevars with
  | [] => Ok []
  | var :: rest =>
    let* v := get_val var w in
    let* vs := get_vals rest w in
    Ok (v :: vs)
  end.

(** [for var, val in zip(func_freevars, original_vals): var.val = val] *)
Fixpoint restore_vals (func_freevars : list value) (original_vals : list value)
    (w : world) : result world :=
  match func_freevars, original_vals with
  | var :: rest, v :: vs =>
    let* w1 := set_val var v w in
    restore_vals rest vs w1
  | _, _ => Ok w
  end.

(** [execute_isolated(func, func_freevars)]; the result is the pair
    [(modified_vals, return_vals)]. *)
Definition execute_isolated (func : thunk) (func_freevars : list value)
    (w : world) : result ((list value * value) * world) :=
  let* original_vals := get_vals func_freevars w in
  let* (return_vals, w1) := func w in
  let* modified_vals := get_vals func_freevars w1 in
  let* w2 := restore_vals func_freevars original_vals w1 in
  Ok ((modified_vals, return_vals), w2).

(** [run_python_while(cond, body, orelse, init_cond_result)]; [fuel] is
    handed to [while_stmt]. *)
Definition run_python_while (fuel : nat) (cond body orelse : thunk)
    (init_cond_result : value) (w : world)
    : option (result (value * world)) :=
  if truthy init_cond_result
  then
    match body w with
    | Raise e => Some (Raise e)
    | Ok (_, w1) => while_stmt fuel cond body orelse VNone w1
    end
  else Some (orelse w).

(** *** class RewritingCallOverload *)

(** The object's fields.  [_registry] maps the identity of a replaced
    function to the object registered for it; [None] stands for Python's
    None, which [wrapper] stores like any other object. *)
Record RewritingCallOverload : Type := mkRewritingCallOverload {
  _registry : gmap nat (option callable);
  _default_call : callable → list value → list (string * value) → thunk
}.

(** [RewritingCallOverload.__init__] *)
Definition new_RewritingCallOverload
    (default_call : callable → list value → list (string * value) → thunk)
    : RewritingCallOverload :=
  mkRewritingCallOverload ∅ default_call.

(** [replaces(original)].  The closure it returns is [wrapper] at
    [id(original)]; the result is that identity. *)
Definition replaces (self : RewritingCallOverload) (original : callable)
    : result nat :=
  match _registry self !! func_id original with
  | Some (Some existing) =>
    Raise (ValueError (func_repr original +:+ " already replaced by "
                       +:+ func_repr existing))
  | _ => Ok (func_id original)
  end.

(** [wrapper(f)], closed over [self] and [original_id]. *)
Definition wrapper (original_id : nat) (f : option callable)
    (self : RewritingCallOverload) : option callable * RewritingCallOverload :=
  (f, mkRewritingCallOverload (<[original_id := f]> (_registry self))
        (_default_call self)).

(** [__call__(f, args, kwargs)] *)
Definition __call__ (self : RewritingCallOverload) (f : callable)
    (args : list value) (kwargs : list (string * value)) : thunk :=
  match _registry self !! func_id f with
  | Some (Some replacement) => func_call replacement args kwargs
  | Some None => fun _ => Raise (TypeError "'NoneType' object is not callable")
  | None => _default_call self f args kwargs
  end.

End staging.

(** ** transformers/virtualization/variables.py *)

Module variables.
Import gast transformer.

Section with_namer.
(** [ctx.namer.new_symbol(name_root, reserved_locals)] of core/naming.py,
    which is not among the sources, taken as a parameter: any function of
    the namer's state. *)
Context {N : Type} (new_symbol : string → gset string → N → string * N).

(** The transformer's mutable fields: the namer of its context, the
    identity the next new node gets, and the current Scope. *)
Record VariableTransformer : Type := mkVariableTransformer {
  namer : N;
  next_id : nat;
  scope : option ref
}.

Context (overload : VirtualizationConfig).
(** [self.scopes], with the Scope objects it refers to. *)
Context (scopes : gmap nat ref) (scope_objs : list scoping.Scope).

Definition fresh_symbol (name_root : string) (reserved : gset string)
    : M VariableTransformer string := fun st =>
  let (sym, namer') := new_symbol name_root reserved (namer st) in
  Ok (sym, mkVariableTransformer namer' (next_id st) (scope st)).

Definition fresh_id : M VariableTransformer nat := fun st =>
  Ok (next_id st, mkVariableTransformer (namer st) (S (next_id st)) (scope st)).

Definition set_scope (r : option ref) : M VariableTransformer unit :=
  fun st => Ok (tt, mkVariableTransformer (namer st) (next_id st) r).

(** The Scope object [self.scope]; attribute access on None fails. *)
Definition current_scope : M VariableTransformer (ref * scoping.Scope) :=
  fun st =>
  match scope st with
  | None => Raise (AttributeError "'NoneType' object has no attribute")
  | Some r =>
    match scope_objs !! r with
    | None => Raise (RuntimeError "no such Scope")
    | Some s => Ok ((r, s), st)
    end
  end.

(** [self.scope.should_virtualize(name)] *)
Definition should_virtualize (name : string) : M VariableTransformer value :=
  do rs <- current_scope;
  lift (scoping.should_virtualize scope_objs (fst rs) name).

(** [visit_Name] *)
Definition visit_Name (id : string) (ctx : expr_context)
    : M VariableTransformer expr :=
  if negb (hasattr overload "read") then ret (Name id ctx)
  else
    do v <- should_virtualize id;
    if truthy v
    then ret (overload_call overload "read" [Name id Load])
    else ret (Name id ctx).

Fixpoint visit_expr (node : expr) : M VariableTransformer expr :=
  match node with
  | Name id ctx => visit_Name id ctx
  | _ => generic_visit_expr visit_expr node
  end.

(** The fragment [lhs = overload.init(lhs_name)] instantiated. *)
Definition init_template (var : string) : stmt :=
  Assign [Name var Store] (overload_call overload "init" [Str var]).

(** The fragment [overload.assign(lhs, rhs)] instantiated. *)
Definition assign_template (lhs : expr) (rhs : expr) : stmt :=
  Expr (overload_call overload "assign" [lhs; rhs]).

(** [node.targets[0].id] *)
Definition first_target_id (targets : list expr) : result string :=
  match targets with
  | [] => Raise (IndexError "list index out of range")
  | target :: _ => get_id target
  end.

(** [[target.id for target in targets]] *)
Fixpoint target_ids (targets : list expr) : result (list string) :=
  match targets with
  | [] => Ok []
  | target :: targets' =>
    let* id := get_id target in
    let* ids := target_ids targets' in
    Ok (id :: ids)
  end.

(** The assignments [visit_For] puts at the head of the loop body:
    [overload.assign(target, n_target[i])] for each of several targets,
    [overload.assign(targets[0], n_target)] otherwise. *)
Definition target_assigns (ids : list string) (n_target : string)
    : result (list stmt) :=
  if 1 <? length ids
  then Ok (imap (fun i id =>
                   assign_template (Name id Load)
                     (Subscript (Name n_target Load) (Num (Z.of_nat i)) Load))
             ids)
  else
    match ids with
    | [] => Raise (IndexError "list index out of range")
    | id :: _ => Ok [assign_template (Name id Load) (Name n_target Load)]
    end.

Fixpoint visit_stmt (node : stmt) : M VariableTransformer (list stmt) :=
  match node with
  | FunctionDef nid name args body =>
    (* visit_FunctionDef *)
    match scopes !! nid with
    | None => raise AssertionError
    | Some r =>
      do _ <- set_scope (Some r);
      do n_arg_names <- mapM (fun arg => fresh_symbol arg (list_to_set args)) args;
      do rs <- current_scope;
      let init_nodes := init_template <$> elements (scoping.locals (snd rs)) in
      let arg_nodes :=
        (fun an => assign_template (Name (fst an) Load) (Name (snd an) Load))
          <$> zip args n_arg_names in
      do body' <- visit_block visit_stmt body;
      do rs' <- current_scope;
      do is_local_in_parent <-
        match scoping.parent (snd rs') with
        | None => ret false
        | Some p =>
          match scope_objs !! p with
          | None => raise (RuntimeError "no such Scope")
          | Some ps => ret (scoping.is_local name ps)
          end
        end;
      do node' <-
        (if is_local_in_parent : bool
         then
           do new_fun_name <- fresh_symbol name {[name]};
           do fid <- fresh_id;
           ret [FunctionDef fid new_fun_name n_arg_names
                  (init_nodes ++ arg_nodes ++ body');
                assign_template (Name name Load) (Name new_fun_name Load)]
         else
           do fid <- fresh_id;
           ret [FunctionDef fid name n_arg_names
                  (init_nodes ++ arg_nodes ++ body')]);
      do rs'' <- current_scope;
      do _ <- set_scope (scoping.parent (snd rs''));
      ret node'
    end
  | Assign targets value =>
    (* visit_Assign *)
    do value' <- visit_expr value;
    do lhs <- lift (first_target_id targets);
    do v <- should_virtualize lhs;
    if negb (truthy v)
    then ret [Assign targets value']
    else ret [assign_template (Name lhs Load) value']
  | AugAssign _ _ _ =>
    (* visit_AugAssign *)
    raise (NotImplementedError "AugAssign not yet implemented.")
  | For target iter body orelse anno =>
    (* visit_For *)
    do iter' <- visit_expr iter;
    do body' <- visit_block visit_stmt body;
    do orelse' <- visit_block visit_stmt orelse;
    do targets <- lift (for_targets target);
    do ids <- lift (target_ids targets);
    do n_target <- fresh_symbol "n_target" (list_to_set ids);
    do assigns <- lift (target_assigns ids n_target);
    ret [For (Name n_target Store) iter' (assigns ++ body') orelse' no_anno]
  | _ =>
    do node' <- generic_visit_stmt visit_expr visit_stmt node;
    ret [node']
  end.

End with_namer.

(** [transform(node, ctx, overload)]: the scope analysis, then the rewrite
    with the scopes it found. *)
Definition transform {N : Type}
    (new_symbol : string → gset string → N → string * N)
    (tree : list stmt) (namer : N) (next_id : nat)
    (overload : VirtualizationConfig)
    : result (list stmt * VariableTransformer) :=
  let* (tree1, sc) := scoping.visit tree in
  visit_block
    (visit_stmt new_symbol overload (scoping.scopes sc) (scoping.scope_objs sc))
    tree1 (mkVariableTransformer namer next_id None).

End variables.

(** ** transformers/virtualization/control_flow.py *)

Module control_flow.
Import gast transformer.

Section with_namer.
Context {N : Type} (new_symbol : string → gset string → N → string * N).

(** The mutable part of the transformer's context: the namer and the
    identity the next new node gets. *)
Record ControlFlowTransformer : Type := mkControlFlowTransformer {
  namer : N;
  next_id : nat
}.

Context (overload : VirtualizationConfig).

Definition fresh_symbol (name_root : string) (reserved : gset string)
    : M ControlFlowTransformer string := fun st =>
  let (sym, namer') := new_symbol name_root reserved (namer st) in
  Ok (sym, mkControlFlowTransformer namer' (next_id st)).

Definition fresh_id : M ControlFlowTransformer nat := fun st =>
  Ok (next_id st, mkControlFlowTransformer (namer st) (S (next_id st))).

(** Modelled from the spec: [anno.getanno(node, key)] of core/anno.py,
    which is not among the sources: the annotation stored on the node, or
    an error when the node has none. *)
Definition getanno (a : option activity_scope) (key : string)
    : M ControlFlowTransformer activity_scope :=
  match a with
  | Some sc => ret sc
  | None => raise (KeyError key)
  end.

(** [body_scope.modified | orelse_scope.modified] *)
Definition modified_in_cond (anno : annotations)
    : M ControlFlowTransformer (gset string) :=
  do body_scope <- getanno (BODY_SCOPE anno) "BODY_SCOPE";
  do orelse_scope <- getanno (ORELSE_SCOPE anno) "ORELSE_SCOPE";
  ret (modified body_scope ∪ modified orelse_scope).

(** [(local_writes,)] for [local_writes = tuple(modified_in_cond)]: the
    names in the order the set yields them. *)
Definition local_writes_tuple (modified : gset string) : expr :=
  Tuple ((fun q => Name q Load) <$> elements modified) Load.

(** [node.orelse if node.orelse else gast.Pass()] *)
Definition orelse_or_pass (orelse : list stmt) : list stmt :=
  match orelse with
  | [] => [Pass]
  | _ => orelse
  end.

(** Modelled from the spec: the statements [templates.replace] returns for
    the template of [visit_If] and [visit_While], namely
    [def test_name(): return test], [def body_name(): body],
    [def orelse_name(): orelse] and
    [overload.<kind>_stmt(test_name, body_name, orelse_name, (local_writes,))],
    each placeholder replaced by the node or name supplied for it. *)
Definition cond_template (hook : string) (ids : nat * nat * nat)
    (test_name : string) (test : expr) (body_name : string) (body : list stmt)
    (orelse_name : string) (orelse : list stmt) (local_writes : gset string)
    : list stmt :=
  [ FunctionDef (fst (fst ids)) test_name [] [Return (Some test)];
    FunctionDef (snd (fst ids)) body_name [] body;
    FunctionDef (snd ids) orelse_name [] orelse;
    Expr (overload_call overload hook
            [Name test_name Load; Name body_name Load; Name orelse_name Load;
             local_writes_tuple local_writes]) ].

(** [target = overload.init(target_name)] of [_make_target_init] *)
Definition _make_target_init (target : expr) : result stmt :=
  let* id := get_id target in
  Ok (Assign [Name id Store] (overload_call overload "init" [Str id])).

Fixpoint target_inits (targets : list expr) : result (list stmt) :=
  match targets with
  | [] => Ok []
  | target :: targets' =>
    let* init_node := _make_target_init target in
    let* rest := target_inits targets' in
    Ok (init_node :: rest)
  end.

(** Modelled from the spec: the statements [templates.replace] returns for
    the template of [visit_For]: [target_inits], [def body_name(): body],
    [def orelse_name(): orelse] and
    [overload.for_stmt(target, iter_, body_name, orelse_name,
    (local_writes,))]. *)
Definition for_template (inits : list stmt) (ids : nat * nat)
    (target iter_ : expr) (body_name : string) (body : list stmt)
    (orelse_name : string) (orelse : list stmt) (local_writes : gset string)
    : list stmt :=
  inits ++
  [ FunctionDef (fst ids) body_name [] body;
    FunctionDef (snd ids) orelse_name [] orelse;
    Expr (overload_call overload "for_stmt"
            [target; iter_; Name body_name Load; Name orelse_name Load;
             local_writes_tuple local_writes]) ].

Fixpoint visit_expr (node : expr) : M ControlFlowTransformer expr :=
  generic_visit_expr visit_expr node.

(** [visit_If] and [visit_While] after the hook was found: the names, then
    the template. *)
Definition rewrite_cond (kind : string) (test : expr) (body orelse : list stmt)
    (local_writes : gset string) : M ControlFlowTransformer (list stmt) :=
  do test_name <- fresh_symbol (kind +:+ "_test") ∅;
  do body_name <- fresh_symbol (kind +:+ "_body") ∅;
  do orelse_name <- fresh_symbol (kind +:+ "_orelse") ∅;
  do id1 <- fresh_id;
  do id2 <- fresh_id;
  do id3 <- fresh_id;
  ret (cond_template (kind +:+ "_stmt") (id1, id2, id3) test_name test
         body_name body orelse_name (orelse_or_pass orelse) local_writes).

Fixpoint visit_stmt (node : stmt) : M ControlFlowTransformer (list stmt) :=
  match node with
  | If test body orelse anno =>
    (* visit_If *)
    do local_writes <- modified_in_cond anno;
    do test' <- visit_expr test;
    do body' <- visit_block visit_stmt body;
    do orelse' <- visit_block visit_stmt orelse;
    if negb (hasattr overload "if_stmt")
    then ret [If test' body' orelse' anno]
    else rewrite_cond "if" test' body' orelse' local_writes
  | While test body orelse anno =>
    (* visit_While *)
    do local_writes <- modified_in_cond anno;
    do test' <- visit_expr test;
    do body' <- visit_block visit_stmt body;
    do orelse' <- visit_block visit_stmt orelse;
    if negb (hasattr overload "while_stmt")
    then ret [While test' body' orelse' anno]
    else rewrite_cond "while" test' body' orelse' local_writes
  | For target iter body orelse anno =>
    (* visit_For *)
    do local_writes <- modified_in_cond anno;
    do target' <- visit_expr target;
    do iter' <- visit_expr iter;
    do body' <- visit_block visit_stmt body;
    do orelse' <- visit_block visit_stmt orelse;
    if negb (hasattr overload "for_stmt")
    then ret [For target' iter' body' orelse' anno]
    else
      do targets <- lift (for_targets target');
      do inits <- lift (target_inits targets);
      do body_name <- fresh_symbol "for_body" ∅;
      do orelse_name <- fresh_symbol "for_orelse" ∅;
      do id1 <- fresh_id;
      do id2 <- fresh_id;
      ret (for_template inits (id1, id2) target' iter' body_name body'
             orelse_name (orelse_or_pass orelse') local_writes)
  | _ =>
    do node' <- generic_visit_stmt visit_expr visit_stmt node;
    ret [node']
  end.

(** The statement is an [if], [while] or [for] whose hook the overload
    module has: the statements [visit_If], [visit_While] and [visit_For]
    replace. *)
Definition has_hook (node : stmt) : bool :=
  match node with
  | If _ _ _ _ => hasattr overload "if_stmt"
  | While _ _ _ _ => hasattr overload "while_stmt"
  | For _ _ _ _ _ => hasattr overload "for_stmt"
  | _ => false
  end.

(** [ControlFlowTransformer(ctx, overload).visit(node)] on a module. *)
Definition visit (tree : list stmt) : M ControlFlowTransformer (list stmt) :=
  visit_block visit_stmt tree.

End with_namer.

End control_flow.

(** ** transformers/virtualization/logical_ops.py *)

Module logical_ops.
Import gast transformer.

Section with_overload.
Context (overload : VirtualizationConfig).

(** [_make_lambda_nodes]: [lambda: y] for each operand. *)
Definition _make_lambda_nodes (lst : list expr) : list expr :=
  (fun y => Lambda [] y) <$> lst.

(** The end of [_handle_boolop], on the operands already visited:
    [overload.func(x, (operands,))] with [x = node.values[0]]. *)
Definition boolop_template (func : string) (values : list expr)
    : result expr :=
  let lambda_nodes := _make_lambda_nodes (tail values) in
  match values with
  | [] => Raise (IndexError "list index out of range")
  | x :: _ => Ok (overload_call overload func [x; Tuple lambda_nodes Load])
  end.

Fixpoint visit_expr (node : expr) : M unit expr :=
  match node with
  | BoolOp op values =>
    (* visit_BoolOp *)
    let func := match op with And => "and_" | Or => "or_" end in
    if hasattr overload func
    then
      do values' <- mapM visit_expr values;
      lift (boolop_template func values')
    else generic_visit_expr visit_expr node
  | UnaryOp Not operand =>
    (* visit_UnaryOp *)
    if hasattr overload "not_"
    then
      do operand' <- visit_expr operand;
      ret (overload_call overload "not_" [operand'])
    else generic_visit_expr visit_expr node
  | _ => generic_visit_expr visit_expr node
  end.

Fixpoint visit_stmt (node : stmt) : M unit (list stmt) :=
  do node' <- generic_visit_stmt visit_expr visit_stmt node;
  ret [node'].

(** The expression is an [and] or [or] chain or a [not] whose hook the
    overload module has: the expressions [visit_BoolOp] and [visit_UnaryOp]
    replace. *)
Definition has_hook (node : expr) : bool :=
  match node with
  | BoolOp And _ => hasattr overload "and_"
  | BoolOp Or _ => hasattr overload "or_"
  | UnaryOp Not _ => hasattr overload "not_"
  | _ => false
  end.

(** [transform(node, ctx, overload)] on an expression. *)
Definition transform_expr (node : expr) : result expr :=
  match visit_expr node tt with
  | Ok (node', _) => Ok node'
  | Raise e => Raise e
  end.

End with_overload.

End logical_ops.

(** ** core/naming.py *)

Module naming.

(** Modelled from the spec: [Namer.new_symbol] of core/naming.py, which is
    not among the sources.  The state is the set of names generated so far;
    the result is the root, or the root with the first suffix [_1], [_2],
    ... that is neither reserved nor generated before. *)
Fixpoint first_free (fuel n : nat) (name_root : string) (used : gset string)
    : string :=
  let candidate :=
    if n =? 0 then name_root else name_root +:+ "_" +:+ pretty n in
  match fuel with
  | O => candidate
  | S fuel' =>
    if decide (candidate ∈ used)
    then first_free fuel' (S n) name_root used
    else candidate
  end.

Definition new_symbol (name_root : string) (reserved : gset string)
    (generated : gset string) : string * gset string :=
  let used := reserved ∪ generated in
  let name := first_free (S (size used)) 0 name_root used in
  (name, generated ∪ {[name]}).

End naming.

(** ** api/conversion.py *)

Module conversion.

Section closure.
(** Cell objects, module globals and default-argument tuples, none of
    which [_attach_closure] looks into. *)
Context {Cell Globals Defaults : Type}.

(** A code object: its name and the names of its free variables. *)
Record code : Type := mkCode {
  co_name : string;
  co_freevars : list string
}.

(** A function object: [__code__], [__closure__] (None or a tuple of
    cells), [__globals__] and [__defaults__]. *)
Record function : Type := mkFunction {
  func_code : code;
  func_closure : option (list Cell);
  func_globals : Globals;
  func_defaults : Defaults
}.

(** [if not closure: closure = ()] *)
Definition closure_or_empty (closure : option (list Cell)) : list Cell :=
  match closure with
  | Some (c :: cs) => c :: cs
  | _ => []
  end.

(** [{free_var: cell for free_var, cell in zip(freevars, closure)}]: a
    later pair with the same name replaces an earlier one. *)
Definition dict_of_zip (freevars : list string) (closure : list Cell)
    : gmap string Cell :=
  foldl (fun d kv => <[fst kv := snd kv]> d) ∅ (zip freevars closure).

(** [[gen_dict[cell] for cell in freevars]] *)
Fixpoint lookup_all (d : gmap string Cell) (freevars : list string)
    : result (list Cell) :=
  match freevars with
  | [] => Ok []
  | name :: freevars' =>
    match d !! name with
    | None => Raise (KeyError name)
    | Some c =>
      let* cs := lookup_all d freevars' in
      Ok (c :: cs)
    end
  end.

(** [_attach_closure(original_func, gen_func)]; [gen_dict.update(
    original_dict)] keeps the original's cell where both have the name. *)
Definition _attach_closure (original_func gen_func : function)
    : result function :=
  let gen_code := func_code gen_func in
  let gen_closure := closure_or_empty (func_closure gen_func) in
  let original_code := func_code original_func in
  let original_closure := closure_or_empty (func_closure original_func) in
  let gen_dict := dict_of_zip (co_freevars gen_code) gen_closure in
  let original_dict :=
    dict_of_zip (co_freevars original_code) original_closure in
  let gen_dict' := original_dict ∪ gen_dict in
  let* closure := lookup_all gen_dict' (co_freevars gen_code) in
  Ok (mkFunction gen_code (Some closure) (func_globals original_func)
        (func_defaults original_func)).
End closure.

Section pipeline.
Import transformer.
(** Trees, the entity context the transformers share and may change, and
    the overload configuration. *)
Context {Tree Ctx Overload : Type}.

(** A transformer module, given by its [transform(node, ctx, overload)]. *)
Definition transformer_module : Type := Tree → Overload → M Ctx Tree.

(** [apply_(node, ctx, transformer_module, overload)] *)
Definition apply_ (node : Tree) (tr : transformer_module)
    (overload : Overload) : M Ctx Tree :=
  tr node overload.

(** [_transform(source, ctx, overload, transformers)] *)
Fixpoint _transform (source : Tree) (overload : Overload)
    (transformers : list transformer_module) : M Ctx Tree :=
  match transformers with
  | [] => ret source
  | tr :: rest =>
    do source' <- apply_ source tr overload;
    _transform source' overload rest
  end.
End pipeline.

End conversion.

(** ** Trees and overloads used as examples *)

Module examples.
Import gast transformer.

(** The default overload module, overloads/py_defaults.py, under the symbol
    [overload]. *)
Definition py_defaults_config : VirtualizationConfig :=
  mkConfig
    (list_to_set ["call"; "if_stmt"; "while_stmt"; "for_stmt"; "and_"; "or_";
                  "not_"; "Undefined"; "is_undefined"; "Variable"; "init";
                  "assign"; "PyctUnboundLocalError"; "read"])
    "overload".

(** An overload module with the storage hooks only. *)
Definition storage_only_config : VirtualizationConfig :=
  mkConfig (list_to_set ["init"; "assign"; "read"]) "overload".

(** [def f(a): a.x = 1; a += 1] *)
Definition attribute_store_then_augassign : list stmt :=
  [FunctionDef 0 "f" ["a"]
     [Assign [Attribute (Name "a" Load) "x" Store] (Num 1);
      AugAssign (Name "a" Store) Add (Num 1)]].

(** [def f(a, xs): for a.b in xs: pass], annotated by the activity
    analysis. *)
Definition for_attribute_target : list stmt :=
  [FunctionDef 0 "f" ["a"; "xs"]
     [For (Attribute (Name "a" Load) "b" Store) (Name "xs" Load) [Pass] []
        (mkAnno (Some (mkActivity ∅)) (Some (mkActivity ∅)))]].

(** [def f(xs): for [] in xs: pass] *)
Definition for_empty_list_target : list stmt :=
  [FunctionDef 0 "f" ["xs"]
     [For (List [] Store) (Name "xs" Load) [Pass] []
        (mkAnno (Some (mkActivity ∅)) (Some (mkActivity ∅)))]].

(** [def f(xs): for x, y in xs: pass] *)
Definition for_pair_target : list stmt :=
  [FunctionDef 0 "f" ["xs"]
     [For (Tuple [Name "x" Store; Name "y" Store] Store) (Name "xs" Load)
        [Pass] []
        (mkAnno (Some (mkActivity {["x"; "y"]})) (Some (mkActivity ∅)))]].

(** A branch that stores 5 into Variable 0 and 6 into Variable 1. *)
Definition store_5_and_6 : py_defaults.thunk := fun w =>
  let* w1 := py_defaults.set_val (VVar 0) (VInt 5) w in
  let* w2 := py_defaults.set_val (VVar 1) (VInt 6) w1 in
  Ok (VNone, w2).

(** Two Variables, [x] holding 1 and [y] holding 2. *)
Definition world_x1_y2 : py_defaults.world :=
  py_defaults.mkWorld
    [py_defaults.mkVariable (VInt 1) "x"; py_defaults.mkVariable (VInt 2) "y"]
    [].

(** [if c: x = 1 else: y = 2], annotated by the activity analysis. *)
Definition if_x_else_y : stmt :=
  If (Name "c" Load)
     [Assign [Name "x" Store] (Num 1)] [Assign [Name "y" Store] (Num 2)]
     (mkAnno (Some (mkActivity {["x"]})) (Some (mkActivity {["y"]}))).

(** [def f(): global g; def g(): pass] *)
Definition global_then_def : list stmt :=
  [FunctionDef 0 "f" [] [Global ["g"]; FunctionDef 1 "g" [] [Pass]]].

(** [def f(a): b = a; return c] *)
Definition local_and_free : list stmt :=
  [FunctionDef 0 "f" ["a"]
     [Assign [Name "b" Store] (Name "a" Load);
      Return (Some (Name "c" Load))]].

(** [x and y and foo()] *)
Definition and_chain : expr :=
  BoolOp And [Name "x" Load; Name "y" Load; Call (Name "foo" Load) [] []].

(** [x or y or foo()] *)
Definition or_chain : expr :=
  BoolOp Or [Name "x" Load; Name "y" Load; Call (Name "foo" Load) [] []].

(** [def f(a): a += 1] *)
Definition only_augassign : list stmt :=
  [FunctionDef 0 "f" ["a"] [AugAssign (Name "a" Store) Add (Num 1)]].

End examples.

(* ===================================================================== *)
(** * Part II: lemmas and theorems *)
(* ===================================================================== *)

Module scoping_facts.
Import scoping.

Lemma should_virtualize_rec_depth σ var : ∀ d1 d2 self,
  heap_wf σ → self < d1 → self < d2 →
  should_virtualize_rec d1 σ self var = should_virtualize_rec d2 σ self var.
Proof.
  induction d1 as [|d1 IH]; intros d2 self Hwf H1 H2; [lia|].
  destruct d2 as [|d2]; [lia|]. simpl.
  destruct (σ !! self) as [s|] eqn:Hs; [|done].
  destruct (is_local var s); [done|].
  destruct (is_nonlocal var s || is_free var s); [|done].
  destruct (parent s) as [p|] eqn:Hp; [|done].
  pose proof (Hwf _ _ _ Hs Hp). apply IH; [done|lia..].
Qed.

Lemma should_virtualize_unfold σ self s var :
  heap_wf σ → σ !! self = Some s →
  should_virtualize σ self var =
    if is_local var s then Ok (VBool true)
    else if is_nonlocal var s || is_free var s then
      match parent s with
      | None => Ok VNone
      | Some p => should_virtualize σ p var
      end
    else Ok (VBool false).
Proof.
  intros Hwf Hs. unfold should_virtualize at 1. simpl. rewrite Hs.
  destruct (is_local var s); [done|].
  destruct (is_nonlocal var s || is_free var s); [|done].
  destruct (parent s) as [p|] eqn:Hp; [|done].
  pose proof (Hwf _ _ _ Hs Hp).
  apply should_virtualize_rec_depth; [done|lia..].
Qed.

Lemma should_virtualize_returns σ var : ∀ self s,
  heap_wf σ → σ !! self = Some s →
  ∃ v, should_virtualize σ self var = Ok v.
Proof.
  induction self as [self IH] using lt_wf_ind. intros s Hwf Hs.
  rewrite (should_virtualize_unfold _ _ _ _ Hwf Hs).
  destruct (is_local var s); [eauto|].
  destruct (is_nonlocal var s || is_free var s); [|eauto].
  destruct (parent s) as [p|] eqn:Hp; [|eauto].
  pose proof (Hwf _ _ _ Hs Hp) as Hlt.
  destruct (lookup_lt_is_Some_2 σ p) as [sp Hsp].
  { apply lookup_lt_Some in Hs. lia. }
  eapply IH; eauto.
Qed.




(** C6 (as amended).  [add_local] puts the name in [locals] and takes it out
    of [free]; [add_free] puts the name in [free] and leaves [locals] as it
    was; [add_nonlocal] and [add_global] take the name out of [locals].
    Starting from disjoint [locals] and [free], every operation but
    [add_free] keeps them disjoint, and [add_free] does when the name is not
    local. *)
Theorem scope_ops_locals_free var s :
  locals s ## free s →
  (var ∈ locals (add_local var s) ∧ (var ∉ free (add_local var s)) ∧
   (locals (add_local var s) ## free (add_local var s))) ∧
  (var ∈ free (add_free var s) ∧ locals (add_free var s) = locals s ∧
   (var ∉ locals s → (locals (add_free var s) ## free (add_free var s)))) ∧
  (var ∈ nonlocals (add_nonlocal var s) ∧ (var ∉ locals (add_nonlocal var s)) ∧
   (locals (add_nonlocal var s) ## free (add_nonlocal var s))) ∧
  (var ∈ globals (add_global var s) ∧ (var ∉ locals (add_global var s)) ∧
   (locals (add_global var s) ## free (add_global var s))).
Proof.
  intros Hdisj. unfold add_local, add_free, add_nonlocal, add_global. simpl.
  destruct (decide (var ∈ free s)), (decide (var ∈ locals s));
    repeat split; try done; set_solver.
Qed.

Lemma scope_ops_locals_free_witness :
  "x" ∈ locals (add_local "x" (new_Scope None None)) ∧
  "x" ∉ free (add_local "x" (new_Scope None None)).
Proof.
  assert (Hdisj : locals (new_Scope None None) ## free (new_Scope None None)).
  { simpl. set_solver. }
  destruct (scope_ops_locals_free "x" (new_Scope None None) Hdisj)
    as [(Hin & Hnotin & _) _].
  split; assumption.
Defined.

(** C6 (as stated) fails: [add_free] on a local name leaves it in [locals],
    so the name is in both sets although they were disjoint before. *)
Lemma add_free_keeps_local_counterexample :
  (locals (add_local "x" (new_Scope None None)) ##
     free (add_local "x" (new_Scope None None))) ∧
  "x" ∈ locals (add_free "x" (add_local "x" (new_Scope None None))) ∧
  "x" ∈ free (add_free "x" (add_local "x" (new_Scope None None))).
Proof.
  unfold add_free, add_local, new_Scope. simpl.
  destruct (decide ("x" ∈ (∅ : gset string))); repeat split; set_solver.
Qed.

End scoping_facts.

Module py_defaults_facts.
Import py_defaults.

(** *** Strings *)

Lemma prefix_app (a b : string) : String.prefix a (a +:+ b) = true.
Proof.
  induction a as [|c a IH]; simpl.
  - by destruct b.
  - destruct (Ascii.ascii_dec c c); [done|congruence].
Qed.

Lemma is_substring_prefix (a b : string) :
  String.prefix a b = true → is_substring a b = true.
Proof.
  intros H. assert (is_substring a b = String.prefix a b ||
    match b with EmptyString => false | String _ b' => is_substring a b' end)
    as -> by (by destruct b).
  by rewrite H.
Qed.

Lemma is_substring_app (pre sub post : string) :
  is_substring sub (pre +:+ sub +:+ post) = true.
Proof.
  induction pre as [|c pre IH]; simpl.
  - apply is_substring_prefix. apply (prefix_app sub post).
  - rewrite IH. apply orb_true_r.
Qed.

Lemma run_op_for target iter_ body orelse w :
  run_op (OFor target iter_ body orelse) w =
    let* (_, w1) :=
      for_stmt (VVar target) (VList iter_)
        (fun w => let* w' := run_ops body w in Ok (VNone, w'))
        (fun w => let* w' := run_ops orelse w in Ok (VNone, w'))
        VNone w in
    Ok w1.
Proof. reflexivity. Qed.

(** *** Frame: what an operation that does not store to [h] leaves alone *)

Lemma keeps_refl h w : keeps h w w.
Proof. intros _. split; done. Qed.

Lemma keeps_trans h w1 w2 w3 :
  keeps h w1 w2 → keeps h w2 w3 → keeps h w1 w3.
Proof.
  intros H12 H23 Hlt. destruct (H12 Hlt) as [? ?].
  destruct H23 as [? ?]; [lia|]. split; [lia|congruence].
Qed.

Lemma set_val_keeps h r v w w' :
  r ≠ h → set_val (VVar r) v w = Ok w' → keeps h w w'.
Proof.
  intros Hne. unfold set_val.
  destruct (vars w !! r) as [o|] eqn:Ho; [|done].
  intros [= <-] _. split; simpl.
  - by rewrite length_insert.
  - by rewrite list_lookup_insert_ne.
Qed.

Lemma init_keeps h name w : keeps h w (snd (init name w)).
Proof.
  intros Hlt. split; simpl.
  - rewrite length_app. lia.
  - by rewrite lookup_app_l.
Qed.

Lemma for_loop_keeps h target items body : ∀ w w',
  target ≠ h →
  (∀ w1 w2 v, body w1 = Ok (v, w2) → keeps h w1 w2) →
  for_loop (VVar target) items body w = Ok w' → keeps h w w'.
Proof.
  induction items as [|item items IH]; intros w w' Hne Hbody; cbn [for_loop].
  - intros [= <-]. apply keeps_refl.
  - destruct (set_val (VVar target) item w) as [w1|] eqn:Hset;
      cbn [bind]; [|done].
    destruct (body w1) as [[v w2]|] eqn:Hb; cbn [bind]; [|done].
    intros Hloop.
    eapply keeps_trans; [by eapply set_val_keeps|].
    eapply keeps_trans; [by eapply Hbody|]. by eapply IH.
Qed.

Lemma run_ops_keeps_of_Forall h os :
  Forall (fun o => ∀ w w', stores_to h o = false →
                    run_op o w = Ok w' → keeps h w w') os →
  ∀ w w', existsb (stores_to h) os = false →
    run_ops os w = Ok w' → keeps h w w'.
Proof.
  induction 1 as [|o os Ho _ IH]; intros w w' Hst; cbn [run_ops].
  - intros [= <-]. apply keeps_refl.
  - simpl in Hst. apply orb_false_iff in Hst as [Hst1 Hst2].
    destruct (run_op o w) as [w1|] eqn:Hrun; cbn [bind]; [|done].
    intros Hrest.
    eapply keeps_trans; [by eapply Ho|]. by apply IH.
Qed.

Lemma run_op_keeps h o : ∀ w w',
  stores_to h o = false → run_op o w = Ok w' → keeps h w w'.
Proof.
  induction o as [name|lhs rhs|target iter_ body orelse IHb IHe]
    using op_nested_ind; intros w w' Hst.
  - simpl. intros [= <-]. by apply init_keeps.
  - cbn [stores_to] in Hst. apply Nat.eqb_neq in Hst.
    cbn [run_op]. unfold assign.
    destruct (set_val (VVar lhs) rhs w) as [w1|] eqn:Hset; cbn [bind]; [|done].
    intros [= <-]. by eapply set_val_keeps.
  - simpl in Hst. apply orb_false_iff in Hst as [Hst He].
    apply orb_false_iff in Hst as [Ht Hb]. apply Nat.eqb_neq in Ht.
    rewrite run_op_for. unfold for_stmt. cbn [seq_items bind].
    destruct (for_loop _ _ _ w) as [w1|] eqn:Hloop; cbn [bind]; [|done].
    destruct (run_ops orelse w1) as [w2|] eqn:Hor; simpl; [|done].
    intros [= <-].
    eapply keeps_trans.
    + eapply for_loop_keeps; [done| |exact Hloop].
      intros wa wb v Hbody.
      cbv beta in Hbody.
      destruct (run_ops body wa) as [wc|] eqn:Hrb; simpl in Hbody; [|done].
      injection Hbody as _ <-.
      exact (run_ops_keeps_of_Forall h body IHb wa wc Hb Hrb).
    + exact (run_ops_keeps_of_Forall h orelse IHe w1 w2 He Hor).
Qed.

Lemma run_ops_keeps h os w w' :
  existsb (stores_to h) os = false → run_ops os w = Ok w' → keeps h w w'.
Proof.
  apply run_ops_keeps_of_Forall. apply Forall_forall.
  intros o _ wa wb. apply run_op_keeps.
Qed.

(** *** Storage: [init], [assign], [read] *)

Lemma read_unfold var w :
  read var w =
    match var with
    | VVar r =>
      match vars w !! r with
      | None => Raise (RuntimeError "no such Variable")
      | Some o =>
        match val o with
        | VUndefined n =>
          Raise (PyctUnboundLocalError
                   ("local variable '" +:+ n +:+ "' referenced before assignment"))
        | VVar r' => read_rec (pred recursion_limit) (VVar r') w
        | v => Ok v
        end
      end
    | _ => Raise AssertionError
    end.
Proof. reflexivity. Qed.

Lemma read_undefined h n nm w :
  vars w !! h = Some (mkVariable (VUndefined n) nm) →
  ∃ msg, read (VVar h) w = Raise (PyctUnboundLocalError msg) ∧
         is_substring n msg = true.
Proof.
  intros Hh. rewrite read_unfold, Hh. simpl. eexists. split; [done|].
  apply is_substring_app.
Qed.

Lemma read_plain h v nm w :
  vars w !! h = Some (mkVariable v nm) →
  is_undefined v = false → (∀ r, v ≠ VVar r) →
  read (VVar h) w = Ok v.
Proof.
  intros Hh Hu Hv. rewrite read_unfold, Hh. simpl.
  destruct v; try done. by destruct (Hv r).
Qed.

Lemma init_lookup name w :
  vars (snd (init name w)) !! length (vars w) =
    Some (mkVariable (VUndefined name) name).
Proof.
  simpl. rewrite lookup_app_r by lia. by rewrite Nat.sub_diag.
Qed.

(** C2 (as amended).  Take the handle [init(name)] returns and any
    world reached afterwards by calls of [init], [assign] and [for_stmt]
    that neither pass the handle to [assign] nor use it as the target of
    [for_stmt].  There [read] raises the unbound-storage error, and the
    message contains the declared name.  From there [assign(handle, v)], for
    [v] neither an Undefined nor a Variable, returns the handle it was given,
    and [read] returns [v] in every world reached afterwards by such calls. *)
Theorem read_after_init_and_assign name w0 os w :
  run_ops os (snd (init name w0)) = Ok w →
  existsb (stores_to (length (vars w0))) os = false →
  fst (init name w0) = VVar (length (vars w0)) ∧
  (∃ msg, read (VVar (length (vars w0))) w = Raise (PyctUnboundLocalError msg) ∧
          is_substring name msg = true) ∧
  (∀ v, is_undefined v = false → (∀ r, v ≠ VVar r) →
     ∃ w1, assign (VVar (length (vars w0))) v w = Ok (VVar (length (vars w0)), w1) ∧
       ∀ os' w2, run_ops os' w1 = Ok w2 →
         existsb (stores_to (length (vars w0))) os' = false →
         read (VVar (length (vars w0))) w2 = Ok v).
Proof.
  intros Hrun Hst. set (h := length (vars w0)) in *.
  assert (Hlt : h < length (vars (snd (init name w0)))).
  { simpl. rewrite length_app. simpl. unfold h. lia. }
  destruct (run_ops_keeps h os _ _ Hst Hrun Hlt) as [Hlen Hsame].
  pose proof (init_lookup name w0) as Hinit. fold h in Hinit.
  rewrite Hinit in Hsame.
  split; [done|]. split.
  - by eapply read_undefined.
  - intros v Hu Hv. unfold assign, set_val. rewrite Hsame. simpl.
    eexists. split; [done|].
    intros os' w2 Hrun' Hst'.
    assert (Hlt1 : h < length (vars
      (with_vars w (<[h:=mkVariable v name]> (vars w))))).
    { simpl. rewrite length_insert. lia. }
    destruct (run_ops_keeps h os' _ _ Hst' Hrun' Hlt1) as [_ Hsame'].
    eapply read_plain; [|done..]. rewrite Hsame'. simpl.
    apply list_lookup_insert_eq. lia.
Qed.

Lemma read_after_init_and_assign_witness :
  (∃ msg, read (VVar 0) (snd (init "x" (mkWorld [] []))) =
            Raise (PyctUnboundLocalError msg) ∧
          is_substring "x" msg = true) ∧
  ∃ w1, assign (VVar 0) (VInt 7) (snd (init "x" (mkWorld [] []))) =
          Ok (VVar 0, w1) ∧
        read (VVar 0) w1 = Ok (VInt 7).
Proof.
  destruct (read_after_init_and_assign "x" (mkWorld [] []) []
              (snd (init "x" (mkWorld [] []))) eq_refl eq_refl)
    as (_ & Hraise & Hassign).
  split; [exact Hraise|].
  destruct (Hassign (VInt 7) eq_refl ltac:(discriminate))
    as (w1 & Has & Hread).
  exists w1. split; [exact Has|]. exact (Hread [] w1 eq_refl eq_refl).
Defined.

(** C2 (as stated) fails: [for_stmt] stores into its target without going
    through [assign], so the handle of [i = init("i")] used as the target of
    [for_stmt(i, [1], body, orelse, ())] is never passed to [assign] and yet
    [read] returns 1. *)
Lemma read_after_for_stmt_counterexample :
  existsb (assigns_to 0) [OFor 0 [VInt 1] [] []] = false ∧
  fst (init "i" (mkWorld [] [])) = VVar 0 ∧
  ∃ w, run_ops [OFor 0 [VInt 1] [] []] (snd (init "i" (mkWorld [] []))) = Ok w ∧
       read (VVar 0) w = Ok (VInt 1).
Proof.
  split; [reflexivity|]. split; [reflexivity|].
  eexists. split; reflexivity.
Qed.

End py_defaults_facts.

Module py_logic_facts.
Import py_defaults.

(** *** [and_] and [or_] against the host chain *)

Lemma host_and_falsy x operands w :
  truthy x = false → host_and x operands w = Ok (x, w).
Proof. intros Hx. destruct operands; simpl; [done|]. by rewrite Hx. Qed.

Lemma host_or_truthy x operands w :
  truthy x = true → host_or x operands w = Ok (x, w).
Proof. intros Hx. destruct operands; simpl; [done|]. by rewrite Hx. Qed.

Lemma and_loop_host operands : ∀ x w,
  truthy x = true →
  match and_loop operands w with
  | Ok (v, w') => ∃ hv, host_and x operands w = Ok (hv, w') ∧ v = VBool (truthy hv)
  | Raise e => host_and x operands w = Raise e
  end.
Proof.
  induction operands as [|op operands IH]; intros x w Hx; simpl.
  - exists x. by rewrite Hx.
  - rewrite Hx. destruct (op w) as [[v w1]|e]; simpl; [|done].
    destruct (truthy v) eqn:Hv; simpl.
    + by apply IH.
    + exists v. rewrite host_and_falsy by done. by rewrite Hv.
Qed.

Lemma or_loop_host operands : ∀ x w,
  truthy x = false →
  match or_loop operands w with
  | Ok (v, w') => ∃ hv, host_or x operands w = Ok (hv, w') ∧ v = VBool (truthy hv)
  | Raise e => host_or x operands w = Raise e
  end.
Proof.
  induction operands as [|op operands IH]; intros x w Hx; simpl.
  - exists x. by rewrite Hx.
  - rewrite Hx. destruct (op w) as [[v w1]|e]; simpl; [|done].
    destruct (truthy v) eqn:Hv; simpl.
    + exists v. rewrite host_or_truthy by done. by rewrite Hv.
    + by apply IH.
Qed.

(** C10.  Whenever [and_] or [or_] returns, it returns the constant True or
    False, namely the truth value of what the host chain yields from the same
    world (with the same final world); when it raises, so does the host
    chain.  On [2 and 3] the overload returns True while the host chain
    yields 3. *)
Theorem and_or_return_bool x operands w :
  match and_ x operands w with
  | Ok (v, w') => ∃ hv, host_and x operands w = Ok (hv, w') ∧ v = VBool (truthy hv)
  | Raise e => host_and x operands w = Raise e
  end ∧
  match or_ x operands w with
  | Ok (v, w') => ∃ hv, host_or x operands w = Ok (hv, w') ∧ v = VBool (truthy hv)
  | Raise e => host_or x operands w = Raise e
  end ∧
  and_ (VInt 2) [const_thunk (VInt 3)] w = Ok (VBool true, w) ∧
  host_and (VInt 2) [const_thunk (VInt 3)] w = Ok (VInt 3, w).
Proof.
  split; [|split; [|split; reflexivity]].
  - unfold and_. destruct (truthy x) eqn:Hx.
    + by apply and_loop_host.
    + exists x. rewrite host_and_falsy by done. by rewrite Hx.
  - unfold or_. destruct (truthy x) eqn:Hx; simpl.
    + exists x. rewrite host_or_truthy by done. by rewrite Hx.
    + by apply or_loop_host.
Qed.

(** *** Which thunks run *)

Lemma and_falsy x operands w :
  truthy x = false → and_ x operands w = Ok (VBool false, w).
Proof. intros Hx. unfold and_. by rewrite Hx. Qed.

Lemma or_truthy x operands w :
  truthy x = true → or_ x operands w = Ok (VBool true, w).
Proof. intros Hx. unfold or_. by rewrite Hx. Qed.

(** A false operand ends [and_loop]: no later thunk is called. *)
Lemma and_loop_stops op rest w v w1 :
  op w = Ok (v, w1) → truthy v = false →
  and_loop (op :: rest) w = Ok (VBool false, w1).
Proof. intros Hop Hv. simpl. rewrite Hop. simpl. by rewrite Hv. Qed.

(** A true operand hands over to the next thunk, in the world it left. *)
Lemma and_loop_continues op rest w v w1 :
  op w = Ok (v, w1) → truthy v = true →
  and_loop (op :: rest) w = and_loop rest w1.
Proof. intros Hop Hv. simpl. rewrite Hop. simpl. by rewrite Hv. Qed.

Lemma or_loop_stops op rest w v w1 :
  op w = Ok (v, w1) → truthy v = true →
  or_loop (op :: rest) w = Ok (VBool true, w1).
Proof. intros Hop Hv. simpl. rewrite Hop. simpl. by rewrite Hv. Qed.

Lemma or_loop_continues op rest w v w1 :
  op w = Ok (v, w1) → truthy v = false →
  or_loop (op :: rest) w = or_loop rest w1.
Proof. intros Hop Hv. simpl. rewrite Hop. simpl. by rewrite Hv. Qed.

Lemma invocations_logged f v w :
  ∃ w', logged_thunk f v w = Ok (v, w') ∧
        invocations f w' = S (invocations f w).
Proof.
  eexists. split; [reflexivity|]. unfold invocations. simpl.
  rewrite filter_app, length_app, filter_cons_True by done.
  rewrite filter_nil. simpl. lia.
Qed.

End py_logic_facts.

Module staging_facts.
Import py_defaults staging.

Lemma get_vals_handles rs w :
  (∀ r, r ∈ rs → r < length (vars w)) →
  get_vals (VVar <$> rs) w = Ok (val_at w <$> rs).
Proof.
  induction rs as [|r rs IH]; intros Hvalid; [done|].
  destruct (lookup_lt_is_Some_2 (vars w) r) as [o Ho].
  { apply Hvalid. left. }
  rewrite !fmap_cons. cbn [get_vals get_val]. rewrite Ho. cbn [bind].
  rewrite IH.
  - cbn [bind]. f_equal. f_equal. unfold val_at. by rewrite Ho.
  - intros r' Hr'. apply Hvalid. by right.
Qed.

Lemma restore_vals_handles (g : nat → value) rs : ∀ w,
  (∀ r, r ∈ rs → r < length (vars w)) →
  ∃ w2, restore_vals (VVar <$> rs) (g <$> rs) w = Ok w2 ∧
    length (vars w2) = length (vars w) ∧
    trace w2 = trace w ∧
    (∀ r, r ∈ rs → val_at w2 r = g r) ∧
    (∀ r, r ∉ rs → vars w2 !! r = vars w !! r).
Proof.
  induction rs as [|r rs IH]; intros w Hvalid.
  - exists w. repeat split; try done. intros r Hr. by apply elem_of_nil in Hr.
  - destruct (lookup_lt_is_Some_2 (vars w) r) as [o Ho].
    { apply Hvalid. left. }
    rewrite !fmap_cons. cbn [restore_vals set_val]. rewrite Ho. cbn [bind].
    set (w1 := with_vars w (<[r:=mkVariable (g r) (name o)]> (vars w))).
    destruct (IH w1) as (w2 & Hres & Hlen & Htr & Hin & Hout).
    { intros r' Hr'. unfold w1. simpl. rewrite length_insert.
      apply Hvalid. by right. }
    exists w2. split; [done|]. split; [|split; [|split]].
    + rewrite Hlen. unfold w1. simpl. by rewrite length_insert.
    + by rewrite Htr.
    + intros r' Hr'. destruct (decide (r' ∈ rs)) as [Hrs|Hrs]; [by apply Hin|].
      apply elem_of_cons in Hr' as [->|?]; [|done].
      unfold val_at. rewrite (Hout _ Hrs). unfold w1. simpl.
      rewrite list_lookup_insert_eq; [done|]. by eapply lookup_lt_Some.
    + intros r' Hr'. apply not_elem_of_cons in Hr' as [Hne Hrs].
      rewrite (Hout _ Hrs). unfold w1. simpl.
      by rewrite list_lookup_insert_ne.
Qed.

(** C5.  When [func] returns, [execute_isolated] returns; the first component
    of its result lists the values the handles of [func_freevars] held right
    after [func] ran, in the order of [func_freevars]; afterwards each of
    those handles holds the value it held before the call, and every other
    handle holds what [func] left there. *)
Theorem execute_isolated_restores func rs w ret w1 :
  func w = Ok (ret, w1) →
  (∀ r, r ∈ rs → r < length (vars w)) →
  length (vars w) ≤ length (vars w1) →
  ∃ w2, execute_isolated func (VVar <$> rs) w =
          Ok ((val_at w1 <$> rs, ret), w2) ∧
    (∀ r, r ∈ rs → val_at w2 r = val_at w r) ∧
    (∀ r, r ∉ rs → vars w2 !! r = vars w1 !! r) ∧
    trace w2 = trace w1.
Proof.
  intros Hfunc Hvalid Hgrow.
  assert (Hvalid1 : ∀ r, r ∈ rs → r < length (vars w1)).
  { intros r Hr. specialize (Hvalid r Hr). lia. }
  destruct (restore_vals_handles (val_at w) rs w1 Hvalid1)
    as (w2 & Hres & _ & Htr & Hin & Hout).
  exists w2. split; [|done].
  unfold execute_isolated.
  rewrite (get_vals_handles rs w Hvalid). simpl. rewrite Hfunc. simpl.
  rewrite (get_vals_handles rs w1 Hvalid1). simpl. rewrite Hres. done.
Qed.

Lemma execute_isolated_restores_witness :
  ∃ w2, execute_isolated examples.store_5_and_6 [VVar 0] examples.world_x1_y2 =
          Ok (([VInt 5], VNone), w2) ∧
        val_at w2 0 = VInt 1 ∧ val_at w2 1 = VInt 6.
Proof.
  destruct (execute_isolated_restores examples.store_5_and_6 [0]
              examples.world_x1_y2 VNone
              (mkWorld [mkVariable (VInt 5) "x"; mkVariable (VInt 6) "y"] []))
    as (w2 & Hex & Hin & Hout & _).
  - reflexivity.
  - intros r Hr. apply list_elem_of_singleton in Hr as ->. simpl. lia.
  - simpl. lia.
  - exists w2. split; [exact Hex|]. split.
    + apply (Hin 0). apply list_elem_of_singleton. reflexivity.
    + unfold val_at. rewrite (Hout 1); [reflexivity|].
      intros Hr. apply list_elem_of_singleton in Hr. discriminate.
Defined.

End staging_facts.

Module transformer_facts.
Import gast transformer.

Lemma expr_children_ind (P : expr → Prop) :
  (∀ e, children_all P e → P e) → ∀ e, P e.
Proof.
  intros H. induction e using expr_nested_ind; apply H; simpl; auto.
Qed.

Lemma stmt_blocks_ind (P : stmt → Prop) :
  (∀ s, blocks_all P s → P s) → ∀ s, P s.
Proof.
  intros H. induction s using stmt_nested_ind; apply H; simpl; auto.
Qed.

Lemma children_all_intro (P : expr → Prop) e :
  (∀ c, P c) → children_all P e.
Proof.
  intros H. destruct e; simpl; repeat split; auto;
    apply Forall_forall; intros; apply H.
Qed.

(** *** Calls that raise *)

Section fails.
Context {S : Type}.

Lemma fails_raise {A} (e : exn) : fails (raise e : M S A).
Proof. intros st. by exists e. Qed.

Lemma fails_bind_l {A B} (m : M S A) (k : A → M S B) :
  fails m → fails (mbind m k).
Proof.
  intros Hm st. destruct (Hm st) as [e He]. exists e.
  unfold mbind. by rewrite He.
Qed.

Lemma fails_bind_r {A B} (m : M S A) (k : A → M S B) :
  (∀ a, fails (k a)) → fails (mbind m k).
Proof.
  intros Hk st. unfold mbind. destruct (m st) as [[a st']|e]; [|by exists e].
  apply Hk.
Qed.

Lemma fails_visit_block (visit : stmt → M S (list stmt)) nodes :
  Exists (fun node => fails (visit node)) nodes →
  fails (visit_block visit nodes).
Proof.
  induction 1 as [node nodes Hnode|node nodes _ IH]; simpl.
  - by apply fails_bind_l.
  - apply fails_bind_r. intros a. by apply fails_bind_l.
Qed.

Lemma fails_mapM {A B} (f : A → M S B) l :
  Exists (fun x => fails (f x)) l → fails (mapM f l).
Proof.
  induction 1 as [x l Hx|x l _ IH]; simpl.
  - by apply fails_bind_l.
  - apply fails_bind_r. intros a. by apply fails_bind_l.
Qed.

Lemma fails_lift {A} (e : exn) : fails (lift (Raise e) : M S A).
Proof. intros st. by exists e. Qed.
End fails.

Lemma existsb_Exists_fails {A} (p : A → bool) (Q : A → Prop) l :
  Forall (fun x => p x = true → Q x) l →
  existsb p l = true → Exists Q l.
Proof.
  induction 1 as [|x l Hx _ IH]; simpl; [done|].
  intros [Hp|Hp]%orb_true_iff.
  - left. by apply Hx.
  - right. by apply IH.
Qed.

(** *** Visits that return the node they were given *)

Lemma mapM_returns_same {S A} (f : A → M S A) l :
  Forall (returns_same f) l → returns_same (mapM f) l.
Proof.
  induction 1 as [|x l Hx _ IH]; intros st y st'; simpl.
  - unfold ret. by intros [= <- _].
  - unfold mbind, ret. destruct (f x st) as [[x' st1]|] eqn:Hfx; [|done].
    destruct (mapM f l st1) as [[l' st2]|] eqn:Hl; [|done].
    intros [= <- _]. f_equal; [by eapply Hx|by eapply IH].
Qed.

Lemma mapM_kw_returns_same {S} (visit : expr → M S expr)
    (l : list (string * expr)) :
  Forall (fun kw => returns_same visit (snd kw)) l →
  returns_same (mapM (fun kw => do v <- visit (snd kw); ret (fst kw, v))) l.
Proof.
  induction 1 as [|[k x] l Hx _ IH]; intros st y st'; simpl.
  - unfold ret. by intros [= <- _].
  - unfold mbind, ret. simpl in *.
    destruct (visit x st) as [[x' st1]|] eqn:Hfx; [|done].
    destruct (mapM _ l st1) as [[l' st2]|] eqn:Hl; [|done].
    intros [= <- _]. f_equal.
    + f_equal. by eapply Hx.
    + by eapply IH.
Qed.

(** [generic_visit] hands back the node when the visits of its children
    do. *)
Lemma generic_visit_expr_same {S} (visit : expr → M S expr) e :
  children_all (returns_same visit) e →
  returns_same (generic_visit_expr visit) e.
Proof.
  intros Hch st y st' H.
  destruct e; simpl in *; unfold mbind, ret in H;
    repeat match type of H with
    | match ?m with _ => _ end = _ =>
      let E := fresh "E" in destruct m as [[? ?]|] eqn:E; [|discriminate]
    end;
    injection H as <- _;
    repeat match goal with
    | H : _ ∧ _ |- _ => destruct H
    end;
    repeat match goal with
    | Hs : returns_same ?f ?x, E : ?f ?x _ = Ok _ |- _ =>
      apply Hs in E; subst
    | Hs : Forall (returns_same ?f) ?l, E : mapM ?f ?l _ = Ok _ |- _ =>
      apply (mapM_returns_same f l Hs) in E; subst
    | Hs : Forall (fun kw => returns_same ?f (snd kw)) ?l,
      E : mapM _ ?l _ = Ok _ |- _ =>
      apply (mapM_kw_returns_same f l Hs) in E; subst
    end; reflexivity.
Qed.

Lemma visit_block_returns_same {S} (visit : stmt → M S (list stmt)) nodes :
  Forall (returns_stmt visit) nodes → returns_same (visit_block visit) nodes.
Proof.
  induction 1 as [|x l Hx _ IH]; intros st y st'; simpl.
  - unfold ret. by intros [= <- _].
  - unfold mbind, ret. destruct (visit x st) as [[x' st1]|] eqn:Hfx; [|done].
    destruct (visit_block visit l st1) as [[l' st2]|] eqn:Hl; [|done].
    intros [= <- _]. apply Hx in Hfx as ->. apply IH in Hl as ->. done.
Qed.

Lemma generic_visit_stmt_same {S} (visit_expr : expr → M S expr)
    (visit_stmt : stmt → M S (list stmt)) node :
  (∀ e, returns_same visit_expr e) →
  blocks_all (returns_stmt visit_stmt) node →
  returns_same (generic_visit_stmt visit_expr visit_stmt) node.
Proof.
  intros He Hch st y st' H.
  destruct node as [nid name args body|[value|]| | | | | | | | | ];
    simpl in *; unfold mbind, ret in H;
    repeat match type of H with
    | match ?m with _ => _ end = _ =>
      let E := fresh "E" in destruct m as [[? ?]|] eqn:E; [|discriminate]
    end;
    injection H as <- _;
    repeat match goal with
    | H : _ ∧ _ |- _ => destruct H
    end;
    repeat match goal with
    | E : visit_expr ?x _ = Ok _ |- _ => apply He in E; subst
    | E : mapM visit_expr ?l _ = Ok _ |- _ =>
      apply (mapM_returns_same visit_expr l) in E;
        [subst|apply Forall_forall; intros; apply He]
    | Hs : Forall (returns_stmt ?f) ?l, E : visit_block ?f ?l _ = Ok _ |- _ =>
      apply (visit_block_returns_same f l Hs) in E; subst
    end; reflexivity.
Qed.

(** *** Calls that return *)

Section total.
Context {S : Type} (I : S → Prop).

Lemma total_ret {A} (a : A) : total I (ret a).
Proof. intros st HI. by exists a, st. Qed.

Lemma total_bind {A B} (m : M S A) (k : A → M S B) :
  total I m → (∀ a, total I (k a)) → total I (mbind m k).
Proof.
  intros Hm Hk st HI. destruct (Hm st HI) as (a & st1 & Hma & HI1).
  unfold mbind. rewrite Hma. by apply Hk.
Qed.

Lemma total_lift {A} (a : A) : total I (lift (Ok a)).
Proof. intros st HI. by exists a, st. Qed.

Lemma total_mapM {A B} (f : A → M S B) l :
  Forall (fun x => total I (f x)) l → total I (mapM f l).
Proof.
  induction 1 as [|x l Hx _ IH]; simpl; [apply total_ret|].
  apply total_bind; [done|]. intros y.
  apply total_bind; [done|]. intros ys. apply total_ret.
Qed.

Lemma total_visit_block (visit : stmt → M S (list stmt)) nodes :
  Forall (fun node => total I (visit node)) nodes →
  total I (visit_block visit nodes).
Proof.
  induction 1 as [|x l Hx _ IH]; simpl; [apply total_ret|].
  apply total_bind; [done|]. intros y.
  apply total_bind; [done|]. intros ys. apply total_ret.
Qed.

Lemma total_generic_visit_expr (visit : expr → M S expr) e :
  children_all (fun c => total I (visit c)) e →
  total I (generic_visit_expr visit e).
Proof.
  intros Hch. destruct e; simpl in *;
    repeat match goal with H : _ ∧ _ |- _ => destruct H end;
    repeat first
      [ apply total_ret
      | apply total_bind; [|intros ?]
      | assumption
      | apply total_mapM; assumption ].
  apply total_mapM. eapply Forall_impl; [eassumption|].
  intros [k v] Hv. simpl in *.
  apply total_bind; [done|]. intros ?. apply total_ret.
Qed.

Lemma total_generic_visit_stmt (visit_expr : expr → M S expr)
    (visit_stmt : stmt → M S (list stmt)) node :
  (∀ e, total I (visit_expr e)) →
  blocks_all (fun c => total I (visit_stmt c)) node →
  total I (generic_visit_stmt visit_expr visit_stmt node).
Proof.
  intros He Hch.
  destruct node as [nid name args body|[value|]| | | | | | | | | ];
    simpl in *;
    repeat match goal with H : _ ∧ _ |- _ => destruct H end;
    repeat first
      [ apply total_ret
      | apply total_bind; [|intros ?]
      | apply He
      | apply total_visit_block; assumption
      | apply total_mapM; apply Forall_forall; intros; apply He ].
Qed.
End total.

Lemma fails_bind_lift {S A B} (a : A) (k : A → M S B) :
  fails (k a) → fails (mbind (lift (Ok a)) k).
Proof. intros Hk st. apply Hk. Qed.

Lemma mbind_lift_Ok {S A B} (a : A) (k : A → M S B) st :
  mbind (lift (Ok a)) k st = k a st.
Proof. reflexivity. Qed.

Lemma mbind_lift_Raise {S A B} (e : exn) (k : A → M S B) st :
  mbind (lift (Raise e)) k st = Raise e.
Proof. reflexivity. Qed.

Lemma fails_bind_val {S A B} (m : M S A) (k : A → M S B) :
  (∀ a st st', m st = Ok (a, st') → fails (k a)) → fails (mbind m k).
Proof.
  intros Hk st. unfold mbind.
  destruct (m st) as [[a st']|e] eqn:Hm; [|by exists e].
  by eapply Hk.
Qed.

(** *** Visits that change nothing *)

Lemma mapM_id {S A} (f : A → M S A) l :
  Forall (fun x => ∀ st, f x st = Ok (x, st)) l →
  ∀ st, mapM f l st = Ok (l, st).
Proof.
  induction 1 as [|x l Hx _ IH]; intros st; simpl; [done|].
  unfold mbind. rewrite Hx, IH. done.
Qed.

Lemma generic_visit_expr_id {S} (visit : expr → M S expr) e :
  children_all (fun c => ∀ st, visit c st = Ok (c, st)) e →
  ∀ st, generic_visit_expr visit e st = Ok (e, st).
Proof.
  intros Hch st. destruct e; simpl in *; try done;
    repeat match goal with H : _ ∧ _ |- _ => destruct H end;
    unfold mbind;
    repeat match goal with
    | H : ∀ st, ?visit ?c st = Ok (?c, st) |- context [?visit ?c ?st'] =>
      rewrite (H st')
    | H : Forall (fun c => ∀ st, ?visit c st = Ok (c, st)) ?l
      |- context [mapM ?visit ?l ?st'] =>
      rewrite (mapM_id visit l H st')
    end; try done.
  rewrite mapM_id; [done|].
  eapply Forall_impl; [eassumption|]. intros [k v] Hv st'. simpl in *.
  unfold mbind. by rewrite Hv.
Qed.

Lemma visit_block_id {S} (visit : stmt → M S (list stmt)) nodes :
  Forall (fun c => ∀ st, visit c st = Ok ([c], st)) nodes →
  ∀ st, visit_block visit nodes st = Ok (nodes, st).
Proof.
  induction 1 as [|x l Hx _ IH]; intros st; simpl; [done|].
  unfold mbind. rewrite Hx, IH. done.
Qed.

Lemma generic_visit_stmt_id {S} (visit_expr : expr → M S expr)
    (visit_stmt : stmt → M S (list stmt)) node :
  (∀ e st, visit_expr e st = Ok (e, st)) →
  blocks_all (fun c => ∀ st, visit_stmt c st = Ok ([c], st)) node →
  ∀ st, generic_visit_stmt visit_expr visit_stmt node st = Ok (node, st).
Proof.
  intros He Hch st.
  destruct node as [nid name args body|[value|]| | | | | | | | | ];
    simpl in *; try done;
    repeat match goal with H : _ ∧ _ |- _ => destruct H end;
    unfold mbind; rewrite ?He;
    repeat match goal with
    | H : Forall _ ?l |- context [visit_block ?visit ?l ?st'] =>
      rewrite (visit_block_id visit l H st')
    | |- context [mapM visit_expr ?l ?st'] =>
      rewrite (mapM_id visit_expr l); [|apply Forall_forall; intros; apply He]
    end; rewrite ?He; done.
Qed.

Lemma mbind_Ok {S A B} (m : M S A) (k : A → M S B) st b st' :
  mbind m k st = Ok (b, st') →
  ∃ a st1, m st = Ok (a, st1) ∧ k a st1 = Ok (b, st').
Proof.
  unfold mbind. destruct (m st) as [[a st1]|]; [|done]. eauto.
Qed.

Lemma ret_Ok {S A} (a b : A) (st st' : S) :
  ret a st = Ok (b, st') → b = a ∧ st' = st.
Proof. unfold ret. by intros [= <- <-]. Qed.

Lemma mbind_Ok_intro {S A B} (m : M S A) (k : A → M S B) st a st1 :
  m st = Ok (a, st1) → mbind m k st = k a st1.
Proof. intros H. unfold mbind. by rewrite H. Qed.

Lemma visit_block_app {S} (visit : stmt → M S (list stmt)) pre post st :
  visit_block visit (pre ++ post) st =
    (do pre' <- visit_block visit pre;
     do post' <- visit_block visit post;
     ret (pre' ++ post')) st.
Proof.
  revert st. induction pre as [|node pre IH]; intros st; simpl.
  - unfold mbind, ret. by destruct (visit_block visit post st) as [[? ?]|].
  - unfold mbind. destruct (visit node st) as [[r st1]|]; [|done].
    rewrite IH. unfold mbind, ret.
    destruct (visit_block visit pre st1) as [[pre' st2]|]; [|done].
    destruct (visit_block visit post st2) as [[post' st3]|]; [|done].
    by rewrite app_assoc.
Qed.

End transformer_facts.

Ltac inv_M :=
  repeat match goal with
  | H : transformer.mbind _ _ _ = Ok _ |- _ =>
    apply transformer_facts.mbind_Ok in H as (? & ? & ? & H)
  | H : transformer.ret _ _ = Ok _ |- _ =>
    apply transformer_facts.ret_Ok in H as [? ?]; subst
  end.

Module variables_facts.
Import gast transformer transformer_facts variables.

Section with_namer.
Context {N : Type} (new_symbol : string → gset string → N → string * N).
Context (overload : VirtualizationConfig).
Context (scopes : gmap nat ref) (scope_objs : list scoping.Scope).

Local Abbreviation visit_stmt :=
  (visit_stmt new_symbol overload scopes scope_objs).
Local Abbreviation visit_expr := (visit_expr overload scope_objs).

Lemma visit_AugAssign_raises target op value st :
  visit_stmt (AugAssign target op value) st =
    Raise (NotImplementedError "AugAssign not yet implemented.").
Proof. reflexivity. Qed.

Lemma visit_stmt_AugAssign_fails node :
  contains_AugAssign node = true → fails (visit_stmt node).
Proof.
  induction node as
    [nid name args body IH| | | |target iter body orelse anno IHb IHe
    |test body orelse anno IHb IHe|test body orelse anno IHb IHe| | | | ]
    using stmt_nested_ind; simpl; intros Hc; try done.
  - destruct (scopes !! nid); [|apply fails_raise].
    do 3 (apply fails_bind_r; intros ?). apply fails_bind_l.
    apply fails_visit_block. by eapply existsb_Exists_fails.
  - apply fails_raise.
  - apply fails_bind_r; intros ?.
    apply orb_true_iff in Hc as [Hc|Hc].
    + apply fails_bind_l, fails_visit_block. by eapply existsb_Exists_fails.
    + apply fails_bind_r; intros ?.
      apply fails_bind_l, fails_visit_block. by eapply existsb_Exists_fails.
  - apply fails_bind_l. apply fails_bind_r; intros ?.
    apply orb_true_iff in Hc as [Hc|Hc].
    + apply fails_bind_l, fails_visit_block. by eapply existsb_Exists_fails.
    + apply fails_bind_r; intros ?.
      apply fails_bind_l, fails_visit_block. by eapply existsb_Exists_fails.
  - apply fails_bind_l. apply fails_bind_r; intros ?.
    apply orb_true_iff in Hc as [Hc|Hc].
    + apply fails_bind_l, fails_visit_block. by eapply existsb_Exists_fails.
    + apply fails_bind_r; intros ?.
      apply fails_bind_l, fails_visit_block. by eapply existsb_Exists_fails.
Qed.

Lemma visit_block_AugAssign_fails tree :
  existsb contains_AugAssign tree = true →
  fails (visit_block visit_stmt tree).
Proof.
  intros Hc. apply fails_visit_block.
  eapply existsb_Exists_fails; [|exact Hc].
  apply Forall_forall. intros node _. apply visit_stmt_AugAssign_fails.
Qed.

Lemma visit_block_reaches_AugAssign pre target op value post st pre' st' :
  visit_block visit_stmt pre st = Ok (pre', st') →
  visit_block visit_stmt (pre ++ AugAssign target op value :: post) st =
    Raise (NotImplementedError "AugAssign not yet implemented.").
Proof.
  intros Hpre. rewrite visit_block_app.
  rewrite (mbind_Ok_intro _ _ _ _ _ Hpre). reflexivity.
Qed.
End with_namer.

End variables_facts.

Module scope_analysis_facts.
Import gast transformer transformer_facts scoping.

(** *** The analysis hands the tree back *)

Lemma visit_expr_same e : returns_same visit_expr e.
Proof.
  induction e as [e Hch] using expr_children_ind.
  destruct e; try (by apply (generic_visit_expr_same visit_expr)).
  intros st y st' H. simpl in H. unfold visit_Name in H. inv_M. done.
Qed.

Lemma visit_stmt_same node : returns_stmt visit_stmt node.
Proof.
  induction node as [node Hch] using stmt_blocks_ind.
  destruct node as [nid name args body|[value|]| | | | | | | | | ];
    intros st out st' H; simpl in *; inv_M;
    repeat match goal with H : _ ∧ _ |- _ => destruct H end;
    repeat match goal with
    | E : visit_expr ?x _ = Ok _ |- _ => apply visit_expr_same in E; subst
    | E : mapM visit_expr ?l _ = Ok _ |- _ =>
      apply mapM_returns_same in E;
        [subst|apply Forall_forall; intros; apply visit_expr_same]
    | E : generic_visit_expr visit_expr ?x _ = Ok _ |- _ =>
      apply generic_visit_expr_same in E;
        [subst|apply children_all_intro, visit_expr_same]
    | E : visit_block visit_stmt ?l _ = Ok _ |- _ =>
      apply visit_block_returns_same in E; [subst|assumption]
    end; done.
Qed.

Lemma visit_same tree tree' sc :
  visit tree = Ok (tree', sc) → tree' = tree.
Proof.
  apply visit_block_returns_same. apply Forall_forall.
  intros node _. apply visit_stmt_same.
Qed.

(** *** A for-target that is not made of names *)

Lemma name_or_names_false_elt elts :
  forallb is_Name elts = false →
  Exists (fun elt => ∃ e, get_id elt = Raise e) elts.
Proof.
  induction elts as [|elt elts IH]; simpl; [done|].
  intros [H|H]%andb_false_iff.
  - left. destruct elt; try done; by eexists.
  - right. by apply IH.
Qed.

Lemma visit_For_target_fails target :
  name_or_names target = false → fails (visit_For_target target).
Proof.
  assert (Hseq : ∀ elts ctx, forallb is_Name elts = false →
    fails (do _ <- mapM (fun elt => do id <- lift (get_id elt);
                                    _check_local ctx id) elts;
           ret tt : M ScopeTransformer unit)).
  { intros elts ctx H. apply fails_bind_l, fails_mapM.
    eapply Exists_impl; [by apply name_or_names_false_elt|].
    intros elt [e He]. simpl. apply fails_bind_l. rewrite He. apply fails_lift. }
  destruct target; simpl; intros H; try done; try apply fails_raise;
    by apply Hseq.
Qed.

Lemma scoping_visit_stmt_bad_For_fails node :
  contains_bad_For node = true → fails (visit_stmt node).
Proof.
  induction node as
    [nid name args body IH| | | |target iter body orelse anno IHb IHe
    |test body orelse anno IHb IHe|test body orelse anno IHb IHe| | | | ]
    using stmt_nested_ind; simpl; intros Hc; try done.
  - do 4 (apply fails_bind_r; intros ?). do 2 apply fails_bind_l.
    apply fails_visit_block. by eapply existsb_Exists_fails.
  - apply orb_true_iff in Hc as [Hc|Hc];
      [apply orb_true_iff in Hc as [Hc|Hc]|].
    + apply fails_bind_l, visit_For_target_fails. by destruct (name_or_names target).
    + do 2 (apply fails_bind_r; intros ?).
      apply fails_bind_l, fails_visit_block. by eapply existsb_Exists_fails.
    + do 3 (apply fails_bind_r; intros ?).
      apply fails_bind_l, fails_visit_block. by eapply existsb_Exists_fails.
  - apply fails_bind_l. apply fails_bind_r; intros ?.
    apply orb_true_iff in Hc as [Hc|Hc].
    + apply fails_bind_l, fails_visit_block. by eapply existsb_Exists_fails.
    + apply fails_bind_r; intros ?.
      apply fails_bind_l, fails_visit_block. by eapply existsb_Exists_fails.
  - apply fails_bind_l. apply fails_bind_r; intros ?.
    apply orb_true_iff in Hc as [Hc|Hc].
    + apply fails_bind_l, fails_visit_block. by eapply existsb_Exists_fails.
    + apply fails_bind_r; intros ?.
      apply fails_bind_l, fails_visit_block. by eapply existsb_Exists_fails.
Qed.

Lemma visit_bad_For_raises tree :
  existsb contains_bad_For tree = true → ∃ e, visit tree = Raise e.
Proof.
  intros Hc. unfold visit. apply fails_visit_block.
  eapply existsb_Exists_fails; [|exact Hc].
  apply Forall_forall. intros node _. apply scoping_visit_stmt_bad_For_fails.
Qed.

(** *** The analysis returns on the trees it takes *)

Lemma extends_refl st : extends st st.
Proof. intros r s Hs. by exists s. Qed.

Lemma extends_trans st1 st2 st3 :
  extends st1 st2 → extends st2 st3 → extends st1 st3.
Proof.
  intros H12 H23 r s Hs. destruct (H12 r s Hs) as (s2 & Hs2 & Hp2).
  destruct (H23 r s2 Hs2) as (s3 & Hs3 & Hp3). exists s3. split; [done|].
  congruence.
Qed.

Lemma extends_lt st st' r :
  extends st st' → r < length (scope_objs st) → r < length (scope_objs st').
Proof.
  intros Hext Hlt. destruct (lookup_lt_is_Some_2 _ _ Hlt) as [s Hs].
  destruct (Hext r s Hs) as (s' & Hs' & _). by eapply lookup_lt_Some.
Qed.

Lemma same_scope_refl st : st_ok st → same_scope st st.
Proof. intros Hok. repeat split; try done; apply Hok || apply extends_refl. Qed.

Lemma same_scope_step st0 st st' :
  same_scope st0 st → scope st' = scope st → st_ok st' → extends st st' →
  same_scope st0 st'.
Proof.
  intros (Hsc & Hok & Hext) Hsc' Hok' Hext'. split; [congruence|].
  split; [done|]. by eapply extends_trans.
Qed.

Lemma update_scope_spec r method st :
  (∀ s, parent (method s) = parent s) →
  st_ok st → r < length (scope_objs st) →
  ∃ st', update_scope r method st = Ok (tt, st') ∧
    scope st' = scope st ∧ st_ok st' ∧ extends st st'.
Proof.
  intros Hpar [Hcur Hwf] Hlt.
  destruct (lookup_lt_is_Some_2 _ _ Hlt) as [s Hs].
  unfold update_scope. rewrite Hs. eexists. split; [done|]. simpl.
  split; [done|]. split; [split|].
  - simpl. intros r' Hr'. rewrite length_insert. by apply Hcur.
  - simpl. intros r' s' p Hs' Hp.
    destruct (decide (r' = r)) as [->|Hne].
    + rewrite list_lookup_insert_eq in Hs' by done. injection Hs' as <-.
      rewrite Hpar in Hp. by eapply Hwf.
    + rewrite list_lookup_insert_ne in Hs' by done. by eapply Hwf.
  - intros r' s' Hs'. simpl.
    destruct (decide (r' = r)) as [->|Hne].
    + rewrite list_lookup_insert_eq by done. exists (method s).
      split; [done|]. rewrite Hpar. congruence.
    + rewrite list_lookup_insert_ne by done. by exists s'.
Qed.

Lemma update_current_total st0 r method :
  (∀ s, parent (method s) = parent s) →
  scope st0 = Some r →
  total (same_scope st0) (update_scope r method).
Proof.
  intros Hpar Hr st HI. pose proof HI as (Hsc & Hok & Hext).
  destruct (update_scope_spec r method st Hpar Hok) as (st' & Hup & ? & ? & ?).
  { apply Hok. congruence. }
  exists tt, st'. split; [done|]. by eapply same_scope_step.
Qed.

Lemma _check_local_total st0 ctx name :
  total (same_scope st0) (_check_local ctx name).
Proof.
  intros st HI. pose proof HI as (Hsc & Hok & Hext).
  unfold _check_local. destruct (scope st) as [r|] eqn:Hr; [|by exists tt, st].
  assert (Hlt : r < length (scope_objs st)) by by apply Hok.
  destruct (lookup_lt_is_Some_2 _ _ Hlt) as [s Hs]. rewrite Hs.
  assert (Hup : ∀ method, (∀ s, parent (method s) = parent s) →
    ∃ a st', update_scope r method st = Ok (a, st') ∧ same_scope st0 st').
  { intros method Hpar.
    destruct (update_scope_spec r method st Hpar Hok Hlt) as (st' & ? & ? & ? & ?).
    exists tt, st'. split; [done|]. by eapply same_scope_step. }
  destruct (is_global name s || is_nonlocal name s); [by exists tt, st|].
  destruct ctx; try (by apply Hup);
    (destruct (negb (is_local name s)); [by apply Hup|by exists tt, st]).
Qed.

Lemma visit_expr_total st0 e : total (same_scope st0) (visit_expr e).
Proof.
  induction e as [e Hch] using expr_children_ind.
  destruct e; try (by apply (total_generic_visit_expr _ visit_expr)).
  simpl. unfold visit_Name. apply total_bind; [apply _check_local_total|].
  intros ?. apply total_ret.
Qed.

Lemma visit_For_target_total st0 target :
  name_or_names target = true →
  total (same_scope st0) (visit_For_target target).
Proof.
  assert (Hseq : ∀ elts ctx, forallb is_Name elts = true →
    total (same_scope st0)
      (do _ <- mapM (fun elt => do id <- lift (get_id elt);
                                _check_local ctx id) elts;
       ret tt : M ScopeTransformer unit)).
  { intros elts ctx H. apply total_bind; [|intros ?; apply total_ret].
    apply total_mapM. apply Forall_forall. intros elt Helt.
    rewrite forallb_forall in H. apply list_elem_of_In in Helt.
    specialize (H elt Helt). destruct elt; try done. simpl.
    apply total_bind; [apply total_lift|]. intros ?. apply _check_local_total. }
  destruct target; simpl; intros H; try done.
  - apply _check_local_total.
  - by apply Hseq.
  - by apply Hseq.
Qed.

Lemma _visit_free_total st0 callback names :
  (∀ n s, parent (callback n s) = parent s) →
  is_Some (scope st0) →
  total (same_scope st0) (_visit_free callback names).
Proof.
  intros Hpar [r Hr] st HI. pose proof HI as (Hsc & _ & _).
  unfold _visit_free. rewrite Hsc, Hr.
  revert st HI Hsc. change (total (same_scope st0)
    (do _ <- mapM (fun name => update_scope r (callback name)) names; ret tt))
    with (total (same_scope st0)
    (do _ <- mapM (fun name => update_scope r (callback name)) names; ret tt)).
  intros st HI _.
  apply (total_bind (same_scope st0)); [|intros ?; apply total_ret|done].
  apply total_mapM. apply Forall_forall. intros name _.
  by apply update_current_total.
Qed.

Lemma enter_scope_spec nid name st :
  st_ok st →
  ∃ st', enter_scope nid name st = Ok (length (scope_objs st), st') ∧
    st_ok st' ∧ extends st st' ∧
    scope st' = Some (length (scope_objs st)) ∧
    scope_objs st' !! length (scope_objs st) =
      Some (new_Scope (scope st) (Some name)).
Proof.
  intros [Hcur Hwf]. eexists. split; [reflexivity|]. simpl.
  split; [split|split; [|split]].
  - simpl. intros r [= <-]. rewrite length_app. simpl. lia.
  - simpl. intros r s p Hs Hp.
    destruct (decide (r < length (scope_objs st))) as [Hlt|Hge].
    + rewrite lookup_app_l in Hs by done. by eapply Hwf.
    + rewrite lookup_app_r in Hs by lia.
      destruct (r - length (scope_objs st)) as [|k] eqn:Hk; [|by destruct k].
      simpl in Hs. injection Hs as <-. simpl in Hp.
      apply Hcur in Hp. lia.
  - intros r s Hs. simpl. exists s. split; [|done].
    rewrite lookup_app_l; [done|]. by eapply lookup_lt_Some.
  - done.
  - rewrite lookup_app_r by lia. by rewrite Nat.sub_diag.
Qed.

Lemma scope_parent_spec st r s :
  scope st = Some r → scope_objs st !! r = Some s →
  scope_parent st = Ok (parent s, st).
Proof. intros Hr Hs. unfold scope_parent. by rewrite Hr, Hs. Qed.

Lemma Forall_analyzable (P : stmt → Prop) in_func body :
  Forall (fun node => analyzable in_func node = true → P node) body →
  forallb (analyzable in_func) body = true →
  Forall P body.
Proof.
  intros HF Hb. rewrite forallb_forall in Hb.
  rewrite Forall_forall in HF |- *. intros node Hnode.
  apply (HF node Hnode). apply Hb. by apply list_elem_of_In.
Qed.

Lemma visit_For_target_raises target st :
  name_or_names target = false → st_ok st →
  visit_For_target target st =
    Raise (AttributeError "object has no attribute 'id'").
Proof.
  assert (Hseq : ∀ ctx elts, forallb is_Name elts = false →
    ∀ st0 st, same_scope st0 st →
    mapM (fun elt => do id <- lift (get_id elt); _check_local ctx id) elts st =
      Raise (AttributeError "object has no attribute 'id'")).
  { intros ctx. induction elts as [|elt elts IH]; [done|].
    intros Hn st0 st' HI. cbn [mapM].
    destruct elt; try done. simpl in Hn. cbn [get_id].
    destruct (_check_local_total st0 ctx id st' HI) as (u & st1 & Hc & HI1).
    rewrite (mbind_Ok_intro _ _ st' u st1);
      [|by rewrite mbind_lift_Ok].
    cbv beta. unfold mbind at 1. by rewrite (IH Hn st0 st1 HI1). }
  intros Hbad Hok. destruct target; try done.
  - cbn [visit_For_target]. unfold mbind at 1.
    by rewrite (Hseq ctx elts Hbad st st (same_scope_refl st Hok)).
  - cbn [visit_For_target]. unfold mbind at 1.
    by rewrite (Hseq ctx elts Hbad st st (same_scope_refl st Hok)).
Qed.

Lemma add_local_parent n s : parent (add_local n s) = parent s.
Proof. done. Qed.

Lemma visit_FunctionDef_total nid name args body st0 :
  Forall (fun node => ∀ st1, is_Some (scope st1) →
            total (same_scope st1) (visit_stmt node)) body →
  total (same_scope st0) (visit_stmt (FunctionDef nid name args body)).
Proof.
  intros Hbody st HI. pose proof HI as (Hsc & Hok & Hext).
  cbn [visit_stmt].
  rewrite (mbind_Ok_intro get_scope _ st (scope st) st eq_refl).
  (* self.scope.add_local(node.name) *)
  assert (∃ st1,
    (match scope st with
     | Some r => update_scope r (add_local name)
     | None => ret tt
     end) st = Ok (tt, st1) ∧
    scope st1 = scope st ∧ st_ok st1 ∧ extends st st1)
    as (st1 & Hst1 & Hsc1 & Hok1 & Hext1).
  { destruct (scope st) as [r|] eqn:Hr.
    - rewrite <- Hr. apply update_scope_spec; [done..|]. by apply Hok.
    - exists st. rewrite <- Hr.
      repeat split; try done; apply Hok || apply extends_refl. }
  rewrite (mbind_Ok_intro _ _ st tt st1 Hst1).
  (* the new scope *)
  destruct (enter_scope_spec nid name st1 Hok1)
    as (st2 & Hst2 & Hok2 & Hext2 & Hsc2 & Hnew).
  rewrite (mbind_Ok_intro _ _ st1 _ st2 Hst2).
  set (r := length (scope_objs st1)) in *.
  (* the parameters *)
  destruct (total_mapM (same_scope st2)
              (fun arg => update_scope r (add_local arg)) args) with (st := st2)
    as (u & st3 & Hst3 & HI3).
  { apply Forall_forall. intros arg _. by apply update_current_total. }
  { by apply same_scope_refl. }
  rewrite (mbind_Ok_intro _ _ st2 u st3 Hst3).
  (* the body *)
  destruct (total_visit_block (same_scope st2) visit_stmt body) with (st := st3)
    as (body' & st4 & Hst4 & HI4).
  { eapply Forall_impl; [exact Hbody|]. intros node Hn. apply Hn.
    rewrite Hsc2. by eexists. }
  { done. }
  cbn [generic_visit_stmt].
  rewrite (mbind_Ok_intro (mbind _ _) _ st3 (FunctionDef nid name args body') st4).
  2:{ by rewrite (mbind_Ok_intro _ _ st3 body' st4 Hst4). }
  (* leaving the scope *)
  destruct HI4 as (Hsc4 & Hok4 & Hext4).
  destruct (Hext4 r _ Hnew) as (s4 & Hs4 & Hp4). simpl in Hp4.
  rewrite (mbind_Ok_intro _ _ st4 _ st4
             (scope_parent_spec st4 r s4 ltac:(congruence) Hs4)).
  rewrite Hp4.
  assert (∃ st5,
    (match scope st1 with
     | Some pr => update_scope pr (add_local name)
     | None => ret tt
     end) st4 = Ok (tt, st5) ∧
    scope st5 = scope st4 ∧ st_ok st5 ∧ extends st4 st5)
    as (st5 & Hst5 & Hsc5 & Hok5 & Hext5).
  { destruct (scope st1) as [pr|] eqn:Hpr.
    - apply update_scope_spec; [done..|].
      eapply extends_lt; [exact Hext4|]. eapply extends_lt; [exact Hext2|].
      by apply Hok1.
    - exists st4. repeat split; try done; apply Hok4 || apply extends_refl. }
  rewrite (mbind_Ok_intro _ _ st4 tt st5 Hst5).
  destruct (Hext5 r _ Hs4) as (s5 & Hs5 & Hp5).
  rewrite (mbind_Ok_intro _ _ st5 _ st5
             (scope_parent_spec st5 r s5 ltac:(congruence) Hs5)).
  rewrite Hp5, Hp4.
  eexists _, _. split; [reflexivity|]. split; [|split; [split|]].
  - simpl. congruence.
  - simpl. intros pr Hpr. eapply extends_lt; [exact Hext5|].
    eapply extends_lt; [exact Hext4|]. eapply extends_lt; [exact Hext2|].
    by apply Hok1.
  - apply Hok5.
  - intros r' s' Hs'. simpl.
    apply (extends_trans st0 st4 st5); [|done|done].
    apply (extends_trans st0 st2 st4); [|done].
    apply (extends_trans st0 st1 st2); [|done].
    by apply (extends_trans st0 st st1).
Qed.

Lemma visit_stmt_total node : ∀ in_func,
  analyzable in_func node = true →
  ∀ st0, (in_func = true → is_Some (scope st0)) →
  total (same_scope st0) (visit_stmt node).
Proof.
  induction node as
    [nid name args body IH|value|targets value|target op value
    |target iter body orelse anno IHb IHe
    |test body orelse anno IHb IHe|test body orelse anno IHb IHe
    |value| |names|names]
    using stmt_nested_ind; intros in_func Han st0 Hin.
  - apply visit_FunctionDef_total.
    simpl in Han. rewrite forallb_forall in Han.
    rewrite Forall_forall in IH |- *. intros node Hnode st1 Hst1.
    apply (IH node Hnode true); [|done]. apply Han. by apply list_elem_of_In.
  - cbn [visit_stmt]. apply total_bind; [|intros ?; apply total_ret].
    apply total_generic_visit_stmt; [apply visit_expr_total|done].
  - cbn [visit_stmt]. apply total_bind; [|intros ?; apply total_ret].
    apply total_generic_visit_stmt; [apply visit_expr_total|done].
  - cbn [visit_stmt]. apply total_bind; [|intros ?; apply total_ret].
    apply total_generic_visit_stmt; [apply visit_expr_total|done].
  - simpl in Han. apply andb_true_iff in Han as [Han He].
    apply andb_true_iff in Han as [Ht Hb].
    cbn [visit_stmt].
    apply total_bind; [by apply visit_For_target_total|]. intros ?.
    apply total_bind.
    { apply total_generic_visit_expr, children_all_intro, visit_expr_total. }
    intros ?. apply total_bind.
    { apply total_visit_block.
      eapply (Forall_analyzable _ in_func); [|done].
      eapply Forall_impl; [exact IHb|]. intros node Hn Hf. by eapply (Hn in_func). }
    intros ?. apply total_bind; [|intros ?; apply total_ret].
    apply total_visit_block.
    eapply (Forall_analyzable _ in_func); [|done].
    eapply Forall_impl; [exact IHe|]. intros node Hn Hf. by eapply (Hn in_func).
  - simpl in Han. apply andb_true_iff in Han as [Hb He].
    cbn [visit_stmt]. apply total_bind; [|intros ?; apply total_ret].
    apply total_generic_visit_stmt; [apply visit_expr_total|]. split.
    + eapply (Forall_analyzable _ in_func); [|done].
      eapply Forall_impl; [exact IHb|]. intros node Hn Hf. by eapply (Hn in_func).
    + eapply (Forall_analyzable _ in_func); [|done].
      eapply Forall_impl; [exact IHe|]. intros node Hn Hf. by eapply (Hn in_func).
  - simpl in Han. apply andb_true_iff in Han as [Hb He].
    cbn [visit_stmt]. apply total_bind; [|intros ?; apply total_ret].
    apply total_generic_visit_stmt; [apply visit_expr_total|]. split.
    + eapply (Forall_analyzable _ in_func); [|done].
      eapply Forall_impl; [exact IHb|]. intros node Hn Hf. by eapply (Hn in_func).
    + eapply (Forall_analyzable _ in_func); [|done].
      eapply Forall_impl; [exact IHe|]. intros node Hn Hf. by eapply (Hn in_func).
  - cbn [visit_stmt]. apply total_bind; [|intros ?; apply total_ret].
    apply total_generic_visit_stmt; [apply visit_expr_total|done].
  - cbn [visit_stmt]. apply total_bind; [|intros ?; apply total_ret].
    apply total_generic_visit_stmt; [apply visit_expr_total|done].
  - simpl in Han. cbn [visit_stmt].
    apply total_bind; [|intros ?; apply total_ret].
    apply _visit_free_total; [done|]. by apply Hin.
  - simpl in Han. cbn [visit_stmt].
    apply total_bind; [|intros ?; apply total_ret].
    apply _visit_free_total; [done|]. by apply Hin.
Qed.

Lemma visit_total tree :
  forallb (analyzable false) tree = true →
  ∃ tree' sc, visit tree = Ok (tree', sc).
Proof.
  intros Han. unfold visit.
  destruct (total_visit_block (same_scope new_ScopeTransformer)
              visit_stmt tree) with (st := new_ScopeTransformer)
    as (tree' & sc & Hv & _).
  - rewrite forallb_forall in Han. apply Forall_forall. intros node Hnode.
    apply (visit_stmt_total node false); [|done].
    apply Han. by apply list_elem_of_In.
  - apply same_scope_refl. split; [done|]. intros r s p Hs. done.
  - by exists tree', sc.
Qed.

End scope_analysis_facts.

Module for_target_facts.
Import gast transformer transformer_facts.

Lemma for_target_error_bad target :
  name_or_names target = false → is_Some (for_target_error target).
Proof.
  unfold for_target_error. destruct target; simpl; intros H; try done;
    rewrite H; by eexists.
Qed.

Lemma for_target_error_good target :
  name_or_names target = true → for_target_error target = None.
Proof.
  unfold for_target_error. destruct target; simpl; intros H; try done;
    by rewrite H.
Qed.

Lemma target_ids_not_names elts :
  forallb is_Name elts = false →
  variables.target_ids elts =
    Raise (AttributeError "object has no attribute 'id'").
Proof.
  induction elts as [|elt elts IH]; simpl; [done|].
  intros H. destruct elt; simpl in *; try done.
  by rewrite IH.
Qed.

Lemma target_ids_names elts :
  forallb is_Name elts = true →
  ∃ ids, variables.target_ids elts = Ok ids ∧ length ids = length elts.
Proof.
  induction elts as [|elt elts IH]; simpl; [by exists []|].
  intros [H1 H2]%andb_true_iff. destruct (IH H2) as (ids & Hids & Hlen).
  destruct elt; try done. simpl. rewrite Hids. simpl.
  eexists. split; [done|]. simpl. by rewrite Hlen.
Qed.

Lemma target_inits_not_names overload elts :
  forallb is_Name elts = false →
  control_flow.target_inits overload elts =
    Raise (AttributeError "object has no attribute 'id'").
Proof.
  induction elts as [|elt elts IH]; simpl; [done|].
  intros H. destruct elt; simpl in *; try done.
  by rewrite IH.
Qed.

Lemma target_inits_names overload elts :
  forallb is_Name elts = true →
  ∃ inits, control_flow.target_inits overload elts = Ok inits.
Proof.
  induction elts as [|elt elts IH]; simpl; [by exists []|].
  intros [H1 H2]%andb_true_iff. destruct (IH H2) as (inits & Hinits).
  destruct elt; try done. simpl. rewrite Hinits. simpl. by eexists.
Qed.

(** What both passes do with the target once the children are visited. *)
Lemma for_targets_ids_error target e :
  for_target_error target = Some e →
  for_targets target = Raise e ∨
  ∃ elts, for_targets target = Ok elts ∧ variables.target_ids elts = Raise e.
Proof.
  unfold for_target_error.
  destruct (for_targets target) as [elts|e'] eqn:Ht.
  - destruct (forallb is_Name elts) eqn:Hn; [done|]. intros [= <-].
    right. exists elts. split; [done|]. by apply target_ids_not_names.
  - intros [= <-]. by left.
Qed.

Lemma for_targets_inits_error overload target e :
  for_target_error target = Some e →
  for_targets target = Raise e ∨
  ∃ elts, for_targets target = Ok elts ∧
          control_flow.target_inits overload elts = Raise e.
Proof.
  unfold for_target_error.
  destruct (for_targets target) as [elts|e'] eqn:Ht.
  - destruct (forallb is_Name elts) eqn:Hn; [done|]. intros [= <-].
    right. exists elts. split; [done|]. by apply target_inits_not_names.
  - intros [= <-]. by left.
Qed.

End for_target_facts.

Module variables_for_facts.
Import gast transformer transformer_facts variables for_target_facts.

Section with_namer.
Context {N : Type} (new_symbol : string → gset string → N → string * N).
Context (overload : VirtualizationConfig).
Context (scopes : gmap nat ref) (scope_objs : list scoping.Scope).

Local Abbreviation visit_stmt :=
  (visit_stmt new_symbol overload scopes scope_objs).
Local Abbreviation visit_expr := (visit_expr overload scope_objs).

Lemma variables_visit_For_raises target iter body orelse anno e
    st iter' st1 body' st2 orelse' st3 :
  visit_expr iter st = Ok (iter', st1) →
  visit_block visit_stmt body st1 = Ok (body', st2) →
  visit_block visit_stmt orelse st2 = Ok (orelse', st3) →
  for_target_error target = Some e →
  visit_stmt (For target iter body orelse anno) st = Raise e.
Proof.
  intros Hi Hb Ho He. cbn [variables.visit_stmt].
  rewrite (mbind_Ok_intro _ _ _ _ _ Hi), (mbind_Ok_intro _ _ _ _ _ Hb),
    (mbind_Ok_intro _ _ _ _ _ Ho).
  destruct (for_targets_ids_error target e He) as [H|(elts & H1 & H2)].
  - by rewrite H.
  - rewrite H1, mbind_lift_Ok. by rewrite H2.
Qed.

Lemma variables_visit_For_returns target iter body orelse anno
    st iter' st1 body' st2 orelse' st3 :
  visit_expr iter st = Ok (iter', st1) →
  visit_block visit_stmt body st1 = Ok (body', st2) →
  visit_block visit_stmt orelse st2 = Ok (orelse', st3) →
  name_or_names target = true →
  for_targets target ≠ Ok [] →
  ∃ out st4, visit_stmt (For target iter body orelse anno) st = Ok (out, st4).
Proof.
  intros Hi Hb Ho Hgood Hne. cbn [variables.visit_stmt].
  rewrite (mbind_Ok_intro _ _ _ _ _ Hi), (mbind_Ok_intro _ _ _ _ _ Hb),
    (mbind_Ok_intro _ _ _ _ _ Ho).
  assert (∃ elts, for_targets target = Ok elts ∧ elts ≠ [] ∧
                  forallb is_Name elts = true) as (elts & Ht & Hnil & Hnames).
  { destruct target; simpl in *; try done.
    - eexists. by repeat split.
    - exists elts. repeat split; try done. intros ->. by apply Hne.
    - exists elts. repeat split; try done. intros ->. by apply Hne. }
  rewrite Ht, mbind_lift_Ok.
  destruct (target_ids_names elts Hnames) as (ids & Hids & Hlen).
  rewrite Hids, mbind_lift_Ok.
  unfold mbind at 1, fresh_symbol.
  destruct (new_symbol "n_target" (list_to_set ids) (namer st3))
    as [n_target namer'].
  assert (∃ assigns, target_assigns overload ids n_target = Ok assigns)
    as [assigns Has].
  { unfold target_assigns. destruct (1 <? length ids); [by eexists|].
    destruct ids as [|id ids]; [|by eexists].
    destruct elts; simpl in *; [done|lia]. }
  rewrite Has, mbind_lift_Ok. by eexists _, _.
Qed.

Lemma variables_visit_stmt_bad_For_fails node :
  contains_bad_For node = true → fails (visit_stmt node).
Proof.
  induction node as
    [nid name args body IH| | | |target iter body orelse anno IHb IHe
    |test body orelse anno IHb IHe|test body orelse anno IHb IHe| | | | ]
    using stmt_nested_ind; simpl; intros Hc; try done.
  - destruct (scopes !! nid); [|apply fails_raise].
    do 3 (apply fails_bind_r; intros ?). apply fails_bind_l.
    apply fails_visit_block. by eapply existsb_Exists_fails.
  - apply fails_bind_r; intros ?.
    apply orb_true_iff in Hc as [Hc|Hc];
      [apply orb_true_iff in Hc as [Hc|Hc]|].
    + do 2 (apply fails_bind_r; intros ?).
      destruct (for_target_error_bad target) as [e He].
      { by destruct (name_or_names target). }
      destruct (for_targets_ids_error target e He) as [H|(elts & H1 & H2)].
      * rewrite H. apply fails_bind_l, fails_lift.
      * rewrite H1. apply fails_bind_lift. rewrite H2.
        apply fails_bind_l, fails_lift.
    + apply fails_bind_l, fails_visit_block. by eapply existsb_Exists_fails.
    + apply fails_bind_r; intros ?.
      apply fails_bind_l, fails_visit_block. by eapply existsb_Exists_fails.
  - apply fails_bind_l. apply fails_bind_r; intros ?.
    apply orb_true_iff in Hc as [Hc|Hc].
    + apply fails_bind_l, fails_visit_block. by eapply existsb_Exists_fails.
    + apply fails_bind_r; intros ?.
      apply fails_bind_l, fails_visit_block. by eapply existsb_Exists_fails.
  - apply fails_bind_l. apply fails_bind_r; intros ?.
    apply orb_true_iff in Hc as [Hc|Hc].
    + apply fails_bind_l, fails_visit_block. by eapply existsb_Exists_fails.
    + apply fails_bind_r; intros ?.
      apply fails_bind_l, fails_visit_block. by eapply existsb_Exists_fails.
Qed.
End with_namer.

End variables_for_facts.

Module control_flow_facts.
Import gast transformer transformer_facts control_flow for_target_facts.

Section with_namer.
Context {N : Type} (new_symbol : string → gset string → N → string * N).
Context (overload : VirtualizationConfig).

Local Abbreviation visit_stmt := (visit_stmt new_symbol overload).
Local Abbreviation visit_expr := (@visit_expr N).
Local Abbreviation CFT := (@ControlFlowTransformer N).

(** The pass has no visitor for expressions: they come back as given. *)
Lemma visit_expr_id e : ∀ st : CFT, visit_expr e st = Ok (e, st).
Proof.
  induction e as [e Hch] using expr_children_ind. intros st.
  destruct e; by apply (generic_visit_expr_id visit_expr).
Qed.

Lemma modified_in_cond_present (bs os : activity_scope) (st : CFT) :
  modified_in_cond (mkAnno (Some bs) (Some os)) st =
    Ok (modified bs ∪ modified os, st).
Proof. reflexivity. Qed.

(** C3.  Take an [If] and a [While] that carry both annotations, and let
    the visits of body and orelse return [body'] and [orelse'].  Without
    the hook ([if_stmt], resp. [while_stmt]) the visit returns the
    construct itself around the visited blocks.  With the hook it returns
    three zero-argument functions, for the test, the body and the orelse
    ([pass] when empty), named by the namer, and the call
    [overload.<kind>_stmt(test, body, orelse, (local_writes,))], where
    [local_writes] holds exactly the names modified according to the body
    scope or the orelse scope, each once. *)
Theorem visit_If_While_rewrite test body orelse (bs os : activity_scope)
    (st st1 st2 : CFT) body' orelse' :
  visit_block visit_stmt body st = Ok (body', st1) →
  visit_block visit_stmt orelse st1 = Ok (orelse', st2) →
  let local_writes :=
    (fun q => Name q Load) <$> elements (modified bs ∪ modified os) in
  let rewritten kind node :=
    ∃ test_name body_name orelse_name n1 n2 n3,
      new_symbol (kind +:+ "_test") ∅ (namer st2) = (test_name, n1) ∧
      new_symbol (kind +:+ "_body") ∅ n1 = (body_name, n2) ∧
      new_symbol (kind +:+ "_orelse") ∅ n2 = (orelse_name, n3) ∧
      visit_stmt node st =
        Ok ([FunctionDef (next_id st2) test_name [] [Return (Some test)];
             FunctionDef (S (next_id st2)) body_name [] body';
             FunctionDef (S (S (next_id st2))) orelse_name []
               (match orelse' with [] => [Pass] | _ => orelse' end);
             Expr (Call (Attribute (Name (symbol_name overload) Load)
                           (kind +:+ "_stmt") Load)
                     [Name test_name Load; Name body_name Load;
                      Name orelse_name Load; Tuple local_writes Load] [])],
            mkControlFlowTransformer n3 (S (S (S (next_id st2))))) in
  (∀ q, Name q Load ∈ local_writes ↔ q ∈ modified bs ∨ q ∈ modified os) ∧
  NoDup local_writes ∧
  (if hasattr overload "if_stmt"
   then rewritten "if" (If test body orelse (mkAnno (Some bs) (Some os)))
   else visit_stmt (If test body orelse (mkAnno (Some bs) (Some os))) st =
          Ok ([If test body' orelse' (mkAnno (Some bs) (Some os))], st2)) ∧
  (if hasattr overload "while_stmt"
   then rewritten "while" (While test body orelse (mkAnno (Some bs) (Some os)))
   else visit_stmt (While test body orelse (mkAnno (Some bs) (Some os))) st =
          Ok ([While test body' orelse' (mkAnno (Some bs) (Some os))], st2)).
Proof.
  intros Hb Ho local_writes rewritten.
  assert (Hrw : ∀ kind node,
    visit_stmt node st =
      rewrite_cond new_symbol overload kind test body' orelse'
        (modified bs ∪ modified os) st2 →
    rewritten kind node).
  { intros kind node Heq. unfold rewritten. rewrite Heq.
    unfold rewrite_cond, fresh_symbol, mbind.
    destruct (new_symbol (kind +:+ "_test") ∅ (namer st2))
      as [test_name n1] eqn:H1. simpl.
    destruct (new_symbol (kind +:+ "_body") ∅ n1) as [body_name n2] eqn:H2.
    simpl.
    destruct (new_symbol (kind +:+ "_orelse") ∅ n2)
      as [orelse_name n3] eqn:H3. simpl.
    by exists test_name, body_name, orelse_name, n1, n2, n3. }
  split; [|split; [|split]].
  - intros q. unfold local_writes. rewrite list_elem_of_fmap. split.
    + intros (q' & [= ->] & Hq). apply elem_of_elements in Hq. set_solver.
    + intros Hq. exists q. split; [done|]. apply elem_of_elements. set_solver.
  - unfold local_writes. apply NoDup_fmap; [|apply NoDup_elements].
    by intros q1 q2 [= ->].
  - destruct (hasattr overload "if_stmt") eqn:Hh.
    + apply Hrw. cbn [control_flow.visit_stmt].
      rewrite (mbind_Ok_intro _ _ _ _ _ (modified_in_cond_present bs os st)).
      rewrite (mbind_Ok_intro _ _ _ _ _ (visit_expr_id test st)).
      rewrite (mbind_Ok_intro _ _ _ _ _ Hb), (mbind_Ok_intro _ _ _ _ _ Ho).
      by rewrite Hh.
    + cbn [control_flow.visit_stmt].
      rewrite (mbind_Ok_intro _ _ _ _ _ (modified_in_cond_present bs os st)).
      rewrite (mbind_Ok_intro _ _ _ _ _ (visit_expr_id test st)).
      rewrite (mbind_Ok_intro _ _ _ _ _ Hb), (mbind_Ok_intro _ _ _ _ _ Ho).
      by rewrite Hh.
  - destruct (hasattr overload "while_stmt") eqn:Hh.
    + apply Hrw. cbn [control_flow.visit_stmt].
      rewrite (mbind_Ok_intro _ _ _ _ _ (modified_in_cond_present bs os st)).
      rewrite (mbind_Ok_intro _ _ _ _ _ (visit_expr_id test st)).
      rewrite (mbind_Ok_intro _ _ _ _ _ Hb), (mbind_Ok_intro _ _ _ _ _ Ho).
      by rewrite Hh.
    + cbn [control_flow.visit_stmt].
      rewrite (mbind_Ok_intro _ _ _ _ _ (modified_in_cond_present bs os st)).
      rewrite (mbind_Ok_intro _ _ _ _ _ (visit_expr_id test st)).
      rewrite (mbind_Ok_intro _ _ _ _ _ Hb), (mbind_Ok_intro _ _ _ _ _ Ho).
      by rewrite Hh.
Qed.

Lemma control_flow_visit_For_without_hook target iter body orelse
    (bs os : activity_scope) (st st1 st2 : CFT) body' orelse' :
  hasattr overload "for_stmt" = false →
  visit_block visit_stmt body st = Ok (body', st1) →
  visit_block visit_stmt orelse st1 = Ok (orelse', st2) →
  visit_stmt (For target iter body orelse (mkAnno (Some bs) (Some os))) st =
    Ok ([For target iter body' orelse' (mkAnno (Some bs) (Some os))], st2).
Proof.
  intros Hh Hb Ho. cbn [control_flow.visit_stmt].
  rewrite (mbind_Ok_intro _ _ _ _ _ (modified_in_cond_present bs os st)).
  rewrite (mbind_Ok_intro _ _ _ _ _ (visit_expr_id target st)).
  rewrite (mbind_Ok_intro _ _ _ _ _ (visit_expr_id iter st)).
  rewrite (mbind_Ok_intro _ _ _ _ _ Hb), (mbind_Ok_intro _ _ _ _ _ Ho).
  by rewrite Hh.
Qed.

(** Without any of the three hooks the pass returns the tree it was
    given. *)
Lemma visit_stmt_no_hooks node :
  hasattr overload "if_stmt" = false →
  hasattr overload "while_stmt" = false →
  hasattr overload "for_stmt" = false →
  annotated node = true →
  ∀ st : CFT, visit_stmt node st = Ok ([node], st).
Proof.
  intros Hif Hwhile Hfor.
  induction node as [node Hch] using stmt_blocks_ind. intros Han st.
  assert (Hblock : ∀ body, forallb annotated body = true →
    Forall (fun c => annotated c = true →
                     ∀ st : CFT, visit_stmt c st = Ok ([c], st)) body →
    ∀ st : CFT, visit_block visit_stmt body st = Ok (body, st)).
  { intros body Hb HF. apply visit_block_id.
    rewrite forallb_forall in Hb. rewrite Forall_forall in HF |- *.
    intros c Hc. apply HF; [done|]. apply Hb. by apply list_elem_of_In. }
  assert (Hgen : blocks_all (fun c => annotated c = true →
                     ∀ st : CFT, visit_stmt c st = Ok ([c], st)) node →
    match node with
    | For _ _ _ _ _ | While _ _ _ _ | If _ _ _ _ => True
    | _ => annotated node = true →
           generic_visit_stmt visit_expr visit_stmt node st = Ok (node, st)
    end).
  { intros _. destruct node; try done; intros Ha;
      apply (generic_visit_stmt_id visit_expr visit_stmt);
      try apply visit_expr_id; simpl; try done.
    simpl in Ha, Hch. rewrite forallb_forall in Ha.
    rewrite Forall_forall in Hch |- *. intros c Hc. apply Hch; [done|].
    apply Ha. by apply list_elem_of_In. }
  specialize (Hgen Hch).
  destruct node as [nid name args body|value|targets value|target op value
                   |target iter body orelse [[bs|] [os|]]
                   |test body orelse [[bs|] [os|]]
                   |test body orelse [[bs|] [os|]]|value| |names|names];
    try done;
    try (cbn [control_flow.visit_stmt];
         by rewrite (mbind_Ok_intro _ _ _ _ _ (Hgen Han))).
  - simpl in Han. apply andb_true_iff in Han as [Hb Ho].
    destruct Hch as [Hcb Hco].
    rewrite (control_flow_visit_For_without_hook target iter body orelse bs os
               st st st body orelse); auto.
  - simpl in Han. apply andb_true_iff in Han as [Hb Ho].
    destruct Hch as [Hcb Hco]. cbn [control_flow.visit_stmt].
    rewrite (mbind_Ok_intro _ _ _ _ _ (modified_in_cond_present bs os st)).
    rewrite (mbind_Ok_intro _ _ _ _ _ (visit_expr_id test st)).
    rewrite (mbind_Ok_intro _ _ _ _ _ (Hblock body Hb Hcb st)).
    rewrite (mbind_Ok_intro _ _ _ _ _ (Hblock orelse Ho Hco st)).
    by rewrite Hwhile.
  - simpl in Han. apply andb_true_iff in Han as [Hb Ho].
    destruct Hch as [Hcb Hco]. cbn [control_flow.visit_stmt].
    rewrite (mbind_Ok_intro _ _ _ _ _ (modified_in_cond_present bs os st)).
    rewrite (mbind_Ok_intro _ _ _ _ _ (visit_expr_id test st)).
    rewrite (mbind_Ok_intro _ _ _ _ _ (Hblock body Hb Hcb st)).
    rewrite (mbind_Ok_intro _ _ _ _ _ (Hblock orelse Ho Hco st)).
    by rewrite Hif.
Qed.

Lemma control_flow_visit_For_raises target iter body orelse (bs os : activity_scope) e
    (st st1 st2 : CFT) body' orelse' :
  hasattr overload "for_stmt" = true →
  visit_block visit_stmt body st = Ok (body', st1) →
  visit_block visit_stmt orelse st1 = Ok (orelse', st2) →
  for_target_error target = Some e →
  visit_stmt (For target iter body orelse (mkAnno (Some bs) (Some os))) st =
    Raise e.
Proof.
  intros Hh Hb Ho He. cbn [control_flow.visit_stmt].
  rewrite (mbind_Ok_intro _ _ _ _ _ (modified_in_cond_present bs os st)).
  rewrite (mbind_Ok_intro _ _ _ _ _ (visit_expr_id target st)).
  rewrite (mbind_Ok_intro _ _ _ _ _ (visit_expr_id iter st)).
  rewrite (mbind_Ok_intro _ _ _ _ _ Hb), (mbind_Ok_intro _ _ _ _ _ Ho).
  rewrite Hh. cbn [negb].
  destruct (for_targets_inits_error overload target e He)
    as [H|(elts & H1 & H2)].
  - by rewrite H.
  - rewrite H1, mbind_lift_Ok. by rewrite H2.
Qed.

Lemma control_flow_visit_For_returns target iter body orelse (bs os : activity_scope)
    (st st1 st2 : CFT) body' orelse' :
  visit_block visit_stmt body st = Ok (body', st1) →
  visit_block visit_stmt orelse st1 = Ok (orelse', st2) →
  name_or_names target = true →
  ∃ out st3,
    visit_stmt (For target iter body orelse (mkAnno (Some bs) (Some os))) st =
      Ok (out, st3).
Proof.
  intros Hb Ho Hgood.
  destruct (hasattr overload "for_stmt") eqn:Hh;
    [|rewrite (control_flow_visit_For_without_hook _ _ _ _ _ _ _ _ _ _ _ Hh Hb Ho);
      by eexists _, _].
  cbn [control_flow.visit_stmt].
  rewrite (mbind_Ok_intro _ _ _ _ _ (modified_in_cond_present bs os st)).
  rewrite (mbind_Ok_intro _ _ _ _ _ (visit_expr_id target st)).
  rewrite (mbind_Ok_intro _ _ _ _ _ (visit_expr_id iter st)).
  rewrite (mbind_Ok_intro _ _ _ _ _ Hb), (mbind_Ok_intro _ _ _ _ _ Ho).
  rewrite Hh. cbn [negb].
  assert (∃ elts, for_targets target = Ok elts ∧
                  forallb is_Name elts = true) as (elts & Ht & Hnames).
  { destruct target; simpl in *; try done; by eexists. }
  rewrite Ht, mbind_lift_Ok.
  destruct (target_inits_names overload elts Hnames) as (inits & Hinits).
  rewrite Hinits, mbind_lift_Ok.
  unfold mbind, fresh_symbol.
  destruct (new_symbol "for_body" ∅ (namer st2)) as [body_name n1]. simpl.
  destruct (new_symbol "for_orelse" ∅ n1) as [orelse_name n2]. simpl.
  by eexists _, _.
Qed.

Lemma control_flow_visit_stmt_bad_For_fails node :
  hasattr overload "for_stmt" = true →
  contains_bad_For node = true → fails (visit_stmt node).
Proof.
  intros Hh.
  induction node as
    [nid name args body IH| | | |target iter body orelse anno IHb IHe
    |test body orelse anno IHb IHe|test body orelse anno IHb IHe| | | | ]
    using stmt_nested_ind; simpl; intros Hc; try done.
  - do 2 apply fails_bind_l.
    apply fails_visit_block. by eapply existsb_Exists_fails.
  - apply fails_bind_r; intros ?.
    apply fails_bind_val. intros target' st st' Ht.
    rewrite visit_expr_id in Ht. injection Ht as <- _.
    apply fails_bind_r; intros ?.
    apply orb_true_iff in Hc as [Hc|Hc];
      [apply orb_true_iff in Hc as [Hc|Hc]|].
    + do 2 (apply fails_bind_r; intros ?). rewrite Hh. cbn [negb].
      destruct (for_target_error_bad target) as [e He].
      { by destruct (name_or_names target). }
      destruct (for_targets_inits_error overload target e He)
        as [H|(elts & H1 & H2)].
      * rewrite H. apply fails_bind_l, fails_lift.
      * rewrite H1. apply fails_bind_lift. rewrite H2.
        apply fails_bind_l, fails_lift.
    + apply fails_bind_l, fails_visit_block. by eapply existsb_Exists_fails.
    + apply fails_bind_r; intros ?.
      apply fails_bind_l, fails_visit_block. by eapply existsb_Exists_fails.
  - do 2 (apply fails_bind_r; intros ?).
    apply orb_true_iff in Hc as [Hc|Hc].
    + apply fails_bind_l, fails_visit_block. by eapply existsb_Exists_fails.
    + apply fails_bind_r; intros ?.
      apply fails_bind_l, fails_visit_block. by eapply existsb_Exists_fails.
  - do 2 (apply fails_bind_r; intros ?).
    apply orb_true_iff in Hc as [Hc|Hc].
    + apply fails_bind_l, fails_visit_block. by eapply existsb_Exists_fails.
    + apply fails_bind_r; intros ?.
      apply fails_bind_l, fails_visit_block. by eapply existsb_Exists_fails.
Qed.

Lemma elem_of_local_writes (modified : gset string) q :
  Name q Load ∈ (fun q => Name q Load) <$> elements modified ↔ q ∈ modified.
Proof.
  rewrite list_elem_of_fmap. split.
  - intros (q' & [= ->] & Hq). by apply elem_of_elements.
  - intros Hq. exists q. split; [done|]. by apply elem_of_elements.
Qed.
End with_namer.

Lemma visit_If_While_rewrite_witness :
  ∃ test_name body_name orelse_name n1 n2 n3,
    naming.new_symbol "if_test" ∅ ∅ = (test_name, n1) ∧
    naming.new_symbol "if_body" ∅ n1 = (body_name, n2) ∧
    naming.new_symbol "if_orelse" ∅ n2 = (orelse_name, n3) ∧
    visit_stmt naming.new_symbol examples.py_defaults_config
      examples.if_x_else_y (mkControlFlowTransformer ∅ 0) =
      Ok ([FunctionDef 0 test_name [] [Return (Some (Name "c" Load))];
           FunctionDef 1 body_name [] [Assign [Name "x" Store] (Num 1)];
           FunctionDef 2 orelse_name [] [Assign [Name "y" Store] (Num 2)];
           Expr (Call (Attribute (Name "overload" Load) "if_stmt" Load)
                   [Name test_name Load; Name body_name Load;
                    Name orelse_name Load;
                    Tuple ((fun q => Name q Load) <$>
                             elements ({["x"]} ∪ {["y"]} : gset string)) Load]
                   [])],
          mkControlFlowTransformer n3 3).
Proof.
  pose proof (visit_If_While_rewrite naming.new_symbol
                examples.py_defaults_config (Name "c" Load)
                [Assign [Name "x" Store] (Num 1)]
                [Assign [Name "y" Store] (Num 2)]
                (mkActivity {["x"]}) (mkActivity {["y"]})
                (mkControlFlowTransformer ∅ 0) (mkControlFlowTransformer ∅ 0)
                (mkControlFlowTransformer ∅ 0) _ _ eq_refl eq_refl)
    as (_ & _ & Hif & _).
  assert (Hh : hasattr examples.py_defaults_config "if_stmt" = true)
    by (vm_compute; reflexivity).
  rewrite Hh in Hif. exact Hif.
Defined.

End control_flow_facts.

Module unsupported_facts.
Import gast transformer transformer_facts examples.

Section with_namer.
Context {N : Type} (new_symbol : string → gset string → N → string * N).
Context (overload : VirtualizationConfig).

(** C7 (as amended).  On a tree that contains an augmented assignment the
    Variables pass never returns a tree: it raises.  Whenever the
    traversal reaches the statement, [visit_AugAssign] raises
    NotImplementedError('AugAssign not yet implemented.'), and this is
    what a block raises when the visit of the statements before it
    returns. *)
Theorem variables_rejects_AugAssign tree namer next_id :
  existsb contains_AugAssign tree = true →
  (∃ e, variables.transform new_symbol tree namer next_id overload = Raise e) ∧
  (∀ scopes scope_objs target op value st,
     variables.visit_stmt new_symbol overload scopes scope_objs
       (AugAssign target op value) st =
       Raise (NotImplementedError "AugAssign not yet implemented.")) ∧
  (∀ scopes scope_objs pre target op value post st pre' st',
     visit_block (variables.visit_stmt new_symbol overload scopes scope_objs)
       pre st = Ok (pre', st') →
     visit_block (variables.visit_stmt new_symbol overload scopes scope_objs)
       (pre ++ AugAssign target op value :: post) st =
       Raise (NotImplementedError "AugAssign not yet implemented.")).
Proof.
  intros Hc. split; [|split].
  - unfold variables.transform.
    destruct (scoping.visit tree) as [[tree1 sc]|e] eqn:Hv; [|by exists e].
    apply scope_analysis_facts.visit_same in Hv as ->. simpl.
    by apply variables_facts.visit_block_AugAssign_fails.
  - intros. apply variables_facts.visit_AugAssign_raises.
  - intros. by eapply variables_facts.visit_block_reaches_AugAssign.
Qed.

End with_namer.

Lemma variables_rejects_AugAssign_witness :
  ∃ e, variables.transform naming.new_symbol only_augassign ∅ 0
         py_defaults_config = Raise e.
Proof.
  exact (proj1 (variables_rejects_AugAssign naming.new_symbol
                  py_defaults_config only_augassign ∅ 0 eq_refl)).
Defined.

(** C7 (as stated) fails: in [def f(a): a.x = 1; a += 1] the assignment to
    an attribute is visited first, and what the pass raises is the
    AttributeError of [node.targets[0].id], not the error of the augmented
    assignment. *)
Lemma AugAssign_other_error_counterexample :
  existsb contains_AugAssign attribute_store_then_augassign = true ∧
  variables.transform naming.new_symbol attribute_store_then_augassign ∅ 0
    py_defaults_config =
    Raise (AttributeError "object has no attribute 'id'").
Proof. split; [reflexivity|]. vm_compute. reflexivity. Qed.



(** The Variables pass on [for [] in xs: pass]: the empty list has no
    element to read, and [targets[0]] raises IndexError. *)
Lemma for_empty_list_target_IndexError :
  forallb (analyzable false) for_empty_list_target = true ∧
  variables.transform naming.new_symbol for_empty_list_target ∅ 0
    py_defaults_config = Raise (IndexError "list index out of range").
Proof. split; [reflexivity|]. vm_compute. reflexivity. Qed.

End unsupported_facts.

Module conversion_facts.
Import conversion.

Section closure.
Context {Cell Globals Defaults : Type}.
Local Abbreviation function := (@function Cell Globals Defaults).

Lemma foldl_insert_list_to_map (l : list (string * Cell)) :
  ∀ m : gmap string Cell,
  foldl (fun d kv => <[fst kv := snd kv]> d) m l =
    list_to_map (reverse l) ∪ m.
Proof.
  induction l as [|[k v] l IH]; intros m; simpl.
  - by rewrite (left_id_L ∅ (∪)).
  - rewrite IH, reverse_cons, list_to_map_app. simpl.
    rewrite insert_empty, <- (assoc_L (∪)).
    by rewrite <- insert_union_singleton_l.
Qed.

Lemma dict_of_zip_eq (freevars : list string) (closure : list Cell) :
  dict_of_zip freevars closure = list_to_map (reverse (zip freevars closure)).
Proof.
  unfold dict_of_zip. rewrite foldl_insert_list_to_map.
  by rewrite (right_id_L ∅ (∪)).
Qed.

Lemma elem_of_zip_lookup (freevars : list string) (closure : list Cell)
    (name : string) (c : Cell) :
  (name, c) ∈ zip freevars closure ↔
  ∃ j, freevars !! j = Some name ∧ closure !! j = Some c.
Proof.
  rewrite list_elem_of_lookup. split.
  - intros (j & Hj). exists j.
    apply lookup_zip_with_Some in Hj as (x & y & [= -> ->] & ? & ?). done.
  - intros (j & Hn & Hc). exists j. apply lookup_zip_with_Some.
    by exists name, c.
Qed.

Lemma elem_of_fst_zip (freevars : list string) (closure : list Cell) name :
  name ∈ (zip freevars closure).*1 → name ∈ freevars.
Proof.
  revert closure. induction freevars as [|x l IH]; intros [|c k]; simpl;
    try by intros ?%elem_of_nil.
  rewrite !elem_of_cons. intros [->|H]; [by left|right]. by eapply IH.
Qed.

Lemma NoDup_fst_zip (freevars : list string) (closure : list Cell) :
  NoDup freevars → NoDup (zip freevars closure).*1.
Proof.
  intros Hnd. revert closure.
  induction Hnd as [|x l Hx Hnd IH]; intros [|c k]; simpl;
    try apply NoDup_nil_2.
  apply NoDup_cons_2; [|apply IH]. intros H. by apply elem_of_fst_zip in H.
Qed.

(** With distinct names, the dictionary holds at a name the cell at the
    name's position. *)
Lemma dict_of_zip_lookup (freevars : list string) (closure : list Cell)
    (name : string) (c : Cell) :
  NoDup freevars →
  dict_of_zip freevars closure !! name = Some c ↔
  ∃ j, freevars !! j = Some name ∧ closure !! j = Some c.
Proof.
  intros Hnd. rewrite dict_of_zip_eq, <- elem_of_zip_lookup.
  rewrite <- elem_of_list_to_map, elem_of_reverse; [done|].
  rewrite fmap_reverse, reverse_Permutation. by apply NoDup_fst_zip.
Qed.

(** A name with a cell at its position is a key, distinct names or not. *)
Lemma dict_of_zip_is_Some (freevars : list string) (closure : list Cell)
    (name : string) j :
  freevars !! j = Some name → j < length closure →
  is_Some (dict_of_zip freevars closure !! name).
Proof.
  intros Hn Hj. destruct (lookup_lt_is_Some_2 closure j Hj) as [c Hc].
  rewrite dict_of_zip_eq.
  destruct (list_to_map (reverse (zip freevars closure)) !! name)
    as [c'|] eqn:Hl; [by eexists|].
  apply not_elem_of_list_to_map in Hl. exfalso. apply Hl.
  rewrite fmap_reverse, elem_of_reverse. apply list_elem_of_fmap.
  exists (name, c). split; [done|]. apply elem_of_zip_lookup. by exists j.
Qed.

Lemma dict_of_zip_None (freevars : list string) (closure : list Cell)
    (name : string) :
  name ∉ freevars → dict_of_zip freevars closure !! name = None.
Proof.
  intros Hn. rewrite dict_of_zip_eq. apply not_elem_of_list_to_map.
  rewrite fmap_reverse, elem_of_reverse. intros H.
  by apply elem_of_fst_zip in H.
Qed.

Lemma lookup_all_spec (d : gmap string Cell) freevars :
  (∀ name, name ∈ freevars → is_Some (d !! name)) →
  ∃ closure, lookup_all d freevars = Ok closure ∧
    length closure = length freevars ∧
    ∀ i name, freevars !! i = Some name → closure !! i = d !! name.
Proof.
  induction freevars as [|name freevars IH]; intros Hd; simpl.
  - exists []. repeat split; try done.
  - destruct (Hd name) as [c Hc]; [by left|]. rewrite Hc.
    destruct IH as (cs & Hcs & Hlen & Hlook).
    { intros n Hn. apply Hd. by right. }
    rewrite Hcs. simpl. exists (c :: cs). split; [done|]. split.
    + simpl. by rewrite Hlen.
    + intros [|i] n; simpl; [by intros [= <-]|]. apply Hlook.
Qed.

(** C9.  For a generated function whose closure has a cell for each of its
    free variables, [_attach_closure] returns a function with the
    generated code and the original's globals and defaults, whose closure
    follows the generated code's free-variable order: at the position of a
    name stands the original function's cell when the original's closure
    has that name, and the generated function's own cell otherwise. *)
Theorem attach_closure_by_name (original_func gen_func : function) :
  length (closure_or_empty (func_closure gen_func)) =
    length (co_freevars (func_code gen_func)) →
  ∃ closure,
    _attach_closure original_func gen_func =
      Ok (mkFunction (func_code gen_func) (Some closure)
            (func_globals original_func) (func_defaults original_func)) ∧
    length closure = length (co_freevars (func_code gen_func)) ∧
    (∀ i name, co_freevars (func_code gen_func) !! i = Some name →
       closure !! i =
         match dict_of_zip (co_freevars (func_code original_func))
                 (closure_or_empty (func_closure original_func)) !! name with
         | Some c => Some c
         | None =>
           dict_of_zip (co_freevars (func_code gen_func))
             (closure_or_empty (func_closure gen_func)) !! name
         end) ∧
    (NoDup (co_freevars (func_code original_func)) →
     ∀ i j name c,
       co_freevars (func_code gen_func) !! i = Some name →
       co_freevars (func_code original_func) !! j = Some name →
       closure_or_empty (func_closure original_func) !! j = Some c →
       closure !! i = Some c) ∧
    (NoDup (co_freevars (func_code gen_func)) →
     ∀ i name,
       co_freevars (func_code gen_func) !! i = Some name →
       name ∉ co_freevars (func_code original_func) →
       closure !! i = closure_or_empty (func_closure gen_func) !! i).
Proof.
  intros Hlen. unfold _attach_closure.
  set (gen_dict := dict_of_zip (co_freevars (func_code gen_func))
                     (closure_or_empty (func_closure gen_func))).
  set (original_dict := dict_of_zip (co_freevars (func_code original_func))
                          (closure_or_empty (func_closure original_func))).
  destruct (lookup_all_spec (original_dict ∪ gen_dict)
              (co_freevars (func_code gen_func)))
    as (closure & Hcl & Hclen & Hlook).
  { intros name [i Hi]%list_elem_of_lookup.
    assert (is_Some (gen_dict !! name)) as [c Hc].
    { eapply dict_of_zip_is_Some; [done|]. rewrite Hlen.
      by eapply lookup_lt_Some. }
    destruct (original_dict !! name) as [c'|] eqn:Ho.
    - exists c'. by apply lookup_union_Some_l.
    - exists c. rewrite lookup_union_r; done. }
  exists closure. rewrite Hcl. simpl. split; [done|]. split; [done|].
  assert (Hby_name : ∀ i name,
    co_freevars (func_code gen_func) !! i = Some name →
    closure !! i = match original_dict !! name with
                   | Some c => Some c
                   | None => gen_dict !! name
                   end).
  { intros i name Hi. rewrite (Hlook i name Hi).
    destruct (original_dict !! name) as [c'|] eqn:Ho.
    - by apply lookup_union_Some_l.
    - by apply lookup_union_r. }
  split; [done|]. split.
  - intros Hnd i j name c Hi Hj Hc. rewrite (Hby_name i name Hi).
    assert (original_dict !! name = Some c) as ->; [|done].
    apply dict_of_zip_lookup; [done|]. by exists j.
  - intros Hnd i name Hi Hnot. rewrite (Hby_name i name Hi).
    unfold original_dict. rewrite dict_of_zip_None by done.
    destruct (lookup_lt_is_Some_2 (closure_or_empty (func_closure gen_func)) i)
      as [c Hc].
    { rewrite Hlen. by eapply lookup_lt_Some. }
    rewrite Hc. apply dict_of_zip_lookup; [done|]. by exists i.
Qed.
End closure.

Lemma attach_closure_by_name_witness :
  _attach_closure
    (mkFunction (mkCode "f" ["x"; "y"]) (Some [10; 20]) 1 2)
    (mkFunction (mkCode "f" ["overload"; "y"; "x"]) (Some [7; 8; 9]) 3 4) =
  Ok (mkFunction (mkCode "f" ["overload"; "y"; "x"]) (Some [7; 20; 10]) 1 2).
Proof.
  destruct (attach_closure_by_name
              (mkFunction (mkCode "f" ["x"; "y"]) (Some [10; 20]) 1 2)
              (mkFunction (mkCode "f" ["overload"; "y"; "x"]) (Some [7; 8; 9])
                 3 4) eq_refl)
    as (closure & Heq & Hlen & _ & Horig & Hgen).
  rewrite Heq. do 2 f_equal.
  assert (Hnd1 : NoDup ["x"; "y"])
    by (apply (bool_decide_unpack (NoDup ["x"; "y"])); vm_compute; exact I).
  assert (Hnd2 : NoDup ["overload"; "y"; "x"])
    by (apply (bool_decide_unpack (NoDup ["overload"; "y"; "x"]));
        vm_compute; exact I).
  assert (Hnot : "overload" ∉ ["x"; "y"])
    by (apply (bool_decide_unpack ("overload" ∉ ["x"; "y"]));
        vm_compute; exact I).
  pose proof (Hgen Hnd2 0 "overload" eq_refl Hnot) as H0.
  pose proof (Horig Hnd1 1 1 "y" 20 eq_refl eq_refl eq_refl) as H1.
  pose proof (Horig Hnd1 2 0 "x" 10 eq_refl eq_refl eq_refl) as H2.
  simpl in *.
  destruct closure as [|c0 [|c1 [|c2 [|]]]]; try discriminate.
  simpl in *. congruence.
Defined.

End conversion_facts.

Module logical_ops_facts.
Import gast transformer transformer_facts logical_ops py_defaults
  py_logic_facts examples.

(** What [and_loop] does on a list of thunks split in two: the second part
    runs only if every thunk of the first returned a true value. *)
Lemma and_loop_app pre rest w :
  and_loop (pre ++ rest) w =
    let* (v, w1) := and_loop pre w in
    if truthy v then and_loop rest w1 else Ok (VBool false, w1).
Proof.
  revert w. induction pre as [|op pre IH]; intros w; simpl.
  - by destruct (and_loop rest w) as [[? ?]|].
  - destruct (op w) as [[v w1]|]; simpl; [|done].
    destruct (truthy v); simpl; [apply IH|done].
Qed.

Lemma or_loop_app pre rest w :
  or_loop (pre ++ rest) w =
    let* (v, w1) := or_loop pre w in
    if truthy v then Ok (VBool true, w1) else or_loop rest w1.
Proof.
  revert w. induction pre as [|op pre IH]; intros w; simpl.
  - by destruct (or_loop rest w) as [[? ?]|].
  - destruct (op w) as [[v w1]|]; simpl; [|done].
    destruct (truthy v); simpl; [done|apply IH].
Qed.

(** C4.  With the hook present, a boolean chain is rewritten to
    [overload.and_(x, (lambda: y, ...))] (or [or_]): the first operand is
    passed as it is and each later operand, after its own visit, is wrapped
    in a zero-argument lambda.  [and_] calls no thunk when [x] is false;
    it calls the thunks in order and stops at the first that returns a
    false value, so a thunk runs only if [x] and all results before it were
    true; [or_] is the same with true and false exchanged.  For
    [x and y and foo()]: [foo] is not invoked when [x] or [y] is false, and
    invoked exactly once when both are true. *)
Theorem boolop_thunks_are_lazy :
  (* the rewrite *)
  (∀ overload op values x' rest',
     hasattr overload (match op with And => "and_" | Or => "or_" end) = true →
     mapM (visit_expr overload) values tt = Ok (x' :: rest', tt) →
     visit_expr overload (BoolOp op values) tt =
       Ok (Call (Attribute (Name (symbol_name overload) Load)
                   (match op with And => "and_" | Or => "or_" end) Load)
             [x'; Tuple ((fun y => Lambda [] y) <$> rest') Load] [], tt)) ∧
  visit_expr py_defaults_config and_chain tt =
    Ok (Call (Attribute (Name "overload" Load) "and_" Load)
          [Name "x" Load;
           Tuple [Lambda [] (Name "y" Load);
                  Lambda [] (Call (Name "foo" Load) [] [])] Load] [], tt) ∧
  (* and_ *)
  (∀ x operands w, truthy x = false →
     and_ x operands w = Ok (VBool false, w)) ∧
  (∀ x pre rest w, truthy x = true →
     and_ x (pre ++ rest) w =
       let* (v, w1) := and_loop pre w in
       if truthy v then and_loop rest w1 else Ok (VBool false, w1)) ∧
  (* or_ *)
  (∀ x operands w, truthy x = true →
     or_ x operands w = Ok (VBool true, w)) ∧
  (∀ x pre rest w, truthy x = false →
     or_ x (pre ++ rest) w =
       let* (v, w1) := or_loop pre w in
       if truthy v then Ok (VBool true, w1) else or_loop rest w1) ∧
  (* x and y and foo(), x or y or foo() *)
  (∀ x y (foo : thunk) w,
     (truthy x && truthy y = false →
      and_ x [const_thunk y; foo] w = Ok (VBool false, w)) ∧
     (truthy x && truthy y = true →
      and_ x [const_thunk y; foo] w =
        let* (v, w1) := foo w in Ok (VBool (truthy v), w1)) ∧
     (truthy x || truthy y = true →
      or_ x [const_thunk y; foo] w = Ok (VBool true, w)) ∧
     (truthy x || truthy y = false →
      or_ x [const_thunk y; foo] w =
        let* (v, w1) := foo w in Ok (VBool (truthy v), w1))) ∧
  (∀ x y r w,
     ∃ w', and_ x [const_thunk y; logged_thunk "foo" r] w =
             Ok (VBool (truthy x && truthy y && truthy r), w') ∧
           invocations "foo" w' =
             if truthy x && truthy y then S (invocations "foo" w)
             else invocations "foo" w).
Proof.
  split; [|split; [reflexivity|]]; [|split; [|split; [|split; [|split; [|split]]]]].
  - intros overload op values x' rest' Hh Hv. cbn [visit_expr].
    destruct op; rewrite Hh, (mbind_Ok_intro _ _ _ _ _ Hv); reflexivity.
  - intros. by apply and_falsy.
  - intros x pre rest w Hx. unfold and_. rewrite Hx. apply and_loop_app.
  - intros. by apply or_truthy.
  - intros x pre rest w Hx. unfold or_. rewrite Hx. apply or_loop_app.
  - intros x y foo w. unfold and_, or_, const_thunk. simpl.
    destruct (truthy x), (truthy y); simpl; repeat split; try done;
      intros _; destruct (foo w) as [[v w1]|]; simpl; try done;
      by destruct (truthy v).
  - intros x y r w. unfold and_, const_thunk, logged_thunk. simpl.
    destruct (truthy x), (truthy y); simpl; try (by eexists).
    destruct (invocations_logged "foo" r w) as (w' & Hw' & Hinv).
    unfold logged_thunk in Hw'. injection Hw' as <-.
    eexists. split; [|exact Hinv]. by destruct (truthy r).
Qed.

Lemma boolop_thunks_are_lazy_witness :
  and_ (VInt 0) [const_thunk (VInt 1); logged_thunk "foo" VNone]
    (mkWorld [] []) = Ok (VBool false, mkWorld [] []) ∧
  and_ (VInt 1) ([const_thunk (VInt 2)] ++ [logged_thunk "foo" (VInt 3)])
    (mkWorld [] []) = Ok (VBool true, mkWorld [] ["foo"]).
Proof.
  destruct boolop_thunks_are_lazy as (_ & _ & Hfalse & Happ & _).
  split.
  - exact (Hfalse (VInt 0) _ (mkWorld [] []) eq_refl).
  - rewrite (Happ (VInt 1) [const_thunk (VInt 2)]
               [logged_thunk "foo" (VInt 3)] (mkWorld [] []) eq_refl).
    reflexivity.
Defined.

End logical_ops_facts.

Module scope_chain_facts.
Import scoping scoping_facts.

Lemma is_bound_rec_depth σ var : ∀ d1 d2 self,
  heap_wf σ → self < d1 → self < d2 →
  is_bound_rec d1 σ self var = is_bound_rec d2 σ self var.
Proof.
  induction d1 as [|d1 IH]; intros d2 self Hwf H1 H2; [lia|].
  destruct d2 as [|d2]; [lia|]. simpl.
  destruct (σ !! self) as [s|] eqn:Hs; [|done].
  destruct (is_local var s || is_global var s || is_nonlocal var s); [done|].
  destruct (parent s) as [p|] eqn:Hp; [|done].
  pose proof (Hwf _ _ _ Hs Hp). apply IH; [done|lia..].
Qed.

Lemma is_bound_unfold σ self s var :
  heap_wf σ → σ !! self = Some s →
  is_bound σ self var =
    if is_local var s || is_global var s || is_nonlocal var s
    then Ok (VBool true)
    else
      match parent s with
      | None => Ok VNone
      | Some p => is_bound σ p var
      end.
Proof.
  intros Hwf Hs. unfold is_bound at 1. simpl. rewrite Hs.
  destruct (is_local var s || is_global var s || is_nonlocal var s); [done|].
  destruct (parent s) as [p|] eqn:Hp; [|done].
  pose proof (Hwf _ _ _ Hs Hp).
  apply is_bound_rec_depth; [done|lia..].
Qed.

Lemma parent_allocated σ self s p :
  heap_wf σ → σ !! self = Some s → parent s = Some p → is_Some (σ !! p).
Proof.
  intros Hwf Hs Hp. apply lookup_lt_is_Some_2.
  pose proof (Hwf _ _ _ Hs Hp). apply lookup_lt_Some in Hs. lia.
Qed.

Lemma binds_here_iff var s :
  is_local var s || is_global var s || is_nonlocal var s = true ↔
  var ∈ locals s ∨ var ∈ globals s ∨ var ∈ nonlocals s.
Proof.
  unfold is_local, is_global, is_nonlocal.
  rewrite !orb_true_iff, !bool_decide_eq_true. tauto.
Qed.

(** [is_bound] returns on every allocated Scope, and its result is true
    exactly when the name is in [locals], [globals] or [nonlocals] of the
    Scope itself or of a Scope reached from it through [parent]. *)
Theorem is_bound_iff_chain σ var : ∀ self s,
  heap_wf σ → σ !! self = Some s →
  ∃ v, is_bound σ self var = Ok v ∧
    (truthy v = true ↔
     ∃ a sa, on_chain σ self a ∧ σ !! a = Some sa ∧
       (var ∈ locals sa ∨ var ∈ globals sa ∨ var ∈ nonlocals sa)).
Proof.
  induction self as [self IH] using lt_wf_ind. intros s Hwf Hs.
  rewrite (is_bound_unfold _ _ _ _ Hwf Hs).
  destruct (is_local var s || is_global var s || is_nonlocal var s) eqn:Hb.
  - exists (VBool true). split; [done|]. split; [|done]. intros _.
    exists self, s. split; [constructor|]. split; [done|].
    by apply binds_here_iff.
  - assert (Hnot : ¬ (var ∈ locals s ∨ var ∈ globals s ∨ var ∈ nonlocals s)).
    { rewrite <- binds_here_iff. by rewrite Hb. }
    destruct (parent s) as [p|] eqn:Hp.
    + destruct (parent_allocated _ _ _ _ Hwf Hs Hp) as [sp Hsp].
      destruct (IH p (Hwf _ _ _ Hs Hp) sp Hwf Hsp) as (v & Hv & Hiff).
      exists v. split; [done|]. rewrite Hiff. split.
      * intros (a & sa & Hch & Hsa & Hin). exists a, sa.
        split; [by econstructor|done].
      * intros (a & sa & Hch & Hsa & Hin).
        inversion Hch as [|? s' p' ? Hs' Hp' Hch']; subst.
        -- rewrite Hs in Hsa. injection Hsa as <-. done.
        -- rewrite Hs in Hs'. injection Hs' as <-. rewrite Hp in Hp'.
           injection Hp' as <-. by exists a, sa.
    + exists VNone. split; [done|]. split; [done|].
      intros (a & sa & Hch & Hsa & Hin).
      inversion Hch as [|? s' p' ? Hs' Hp' Hch']; subst.
      * rewrite Hs in Hsa. injection Hsa as <-. done.
      * rewrite Hs in Hs'. injection Hs' as <-. congruence.
Qed.

Lemma is_bound_iff_chain_witness :
  ∃ v, is_bound [add_global "g" (new_Scope None None);
                 new_Scope (Some 0) None] 1 "g" = Ok v ∧
       truthy v = true.
Proof.
  assert (Hwf : heap_wf [add_global "g" (new_Scope None None);
                         new_Scope (Some 0) None]).
  { intros [|[|r]] s p Hs Hp; simpl in Hs; try done.
    - injection Hs as <-. done.
    - injection Hs as <-. injection Hp as <-. lia. }
  destruct (is_bound_iff_chain _ "g" 1 (new_Scope (Some 0) None) Hwf eq_refl)
    as (v & Hv & Hiff).
  exists v. split; [exact Hv|]. apply Hiff.
  exists 0, (add_global "g" (new_Scope None None)).
  split; [|split; [reflexivity|]].
  - eapply on_chain_parent; [reflexivity|reflexivity|constructor].
  - right. left. simpl. set_solver.
Defined.

(** A name that [should_virtualize] accepts is bound: whenever
    [s.should_virtualize(var)] is true, so is [s.is_bound(var)].  The
    converse fails for a name that is only global. *)
Theorem virtualized_is_bound σ var : ∀ self s,
  heap_wf σ → σ !! self = Some s →
  virtualizes σ self var →
  ∃ v, is_bound σ self var = Ok v ∧ truthy v = true.
Proof.
  induction self as [self IH] using lt_wf_ind. intros s Hwf Hs (v & Hv & Ht).
  rewrite (should_virtualize_unfold _ _ _ _ Hwf Hs) in Hv.
  rewrite (is_bound_unfold _ _ _ _ Hwf Hs).
  destruct (is_local var s) eqn:Hl; simpl; [by exists (VBool true)|].
  destruct (is_nonlocal var s) eqn:Hn; simpl in *.
  { rewrite orb_true_r. by exists (VBool true). }
  destruct (is_free var s); [|by injection Hv as <-].
  destruct (is_global var s); simpl; [by exists (VBool true)|].
  destruct (parent s) as [p|] eqn:Hp; [|by injection Hv as <-].
  destruct (parent_allocated _ _ _ _ Hwf Hs Hp) as [sp Hsp].
  apply (IH p (Hwf _ _ _ Hs Hp) sp Hwf Hsp). by exists v.
Qed.

Lemma virtualized_is_bound_witness :
  ∃ v, is_bound [add_local "x" (new_Scope None None);
                 add_free "x" (new_Scope (Some 0) None)] 1 "x" = Ok v ∧
       truthy v = true.
Proof.
  apply (virtualized_is_bound _ "x" 1 (add_free "x" (new_Scope (Some 0) None))).
  - intros [|[|r]] s p Hs Hp; simpl in Hs; try done.
    + injection Hs as <-. done.
    + injection Hs as <-. injection Hp as <-. lia.
  - reflexivity.
  - exists (VBool true). split; [|reflexivity]. vm_compute. reflexivity.
Defined.

End scope_chain_facts.

Module invariant_facts.
Import gast transformer transformer_facts.

(** *** Calls that keep an invariant of the state *)

Section preserves.
Context {S : Type} (I : S → Prop).

Lemma preserves_ret {A} (a : A) : preserves I (ret a).
Proof. intros st b st' HI [= _ <-]. done. Qed.

Lemma preserves_raise {A} (e : exn) : preserves I (raise e : M S A).
Proof. intros st b st' HI. done. Qed.

Lemma preserves_lift {A} (m : result A) : preserves I (lift m).
Proof. intros st b st' HI. unfold lift. destruct m; [|done]. by intros [= _ <-]. Qed.

Lemma preserves_bind {A B} (m : M S A) (k : A → M S B) :
  preserves I m → (∀ a, preserves I (k a)) → preserves I (mbind m k).
Proof.
  intros Hm Hk st b st' HI H. apply mbind_Ok in H as (a & st1 & Hma & Hka).
  eapply Hk; [|exact Hka]. by eapply Hm.
Qed.

Lemma preserves_mapM {A B} (f : A → M S B) l :
  Forall (fun x => preserves I (f x)) l → preserves I (mapM f l).
Proof.
  induction 1 as [|x l Hx _ IH]; simpl; [apply preserves_ret|].
  apply preserves_bind; [done|]. intros y.
  apply preserves_bind; [done|]. intros ys. apply preserves_ret.
Qed.

Lemma preserves_visit_block (visit : stmt → M S (list stmt)) nodes :
  Forall (fun node => preserves I (visit node)) nodes →
  preserves I (visit_block visit nodes).
Proof.
  induction 1 as [|x l Hx _ IH]; simpl; [apply preserves_ret|].
  apply preserves_bind; [done|]. intros y.
  apply preserves_bind; [done|]. intros ys. apply preserves_ret.
Qed.

Lemma preserves_generic_visit_expr (visit : expr → M S expr) e :
  children_all (fun c => preserves I (visit c)) e →
  preserves I (generic_visit_expr visit e).
Proof.
  intros Hch. destruct e; simpl in *;
    repeat match goal with H : _ ∧ _ |- _ => destruct H end;
    repeat first
      [ apply preserves_ret
      | apply preserves_bind; [|intros ?]
      | assumption
      | apply preserves_mapM; assumption ].
  apply preserves_mapM. eapply Forall_impl; [eassumption|].
  intros [k v] Hv. simpl in *.
  apply preserves_bind; [done|]. intros ?. apply preserves_ret.
Qed.

Lemma preserves_generic_visit_stmt (visit_expr : expr → M S expr)
    (visit_stmt : stmt → M S (list stmt)) node :
  (∀ e, preserves I (visit_expr e)) →
  blocks_all (fun c => preserves I (visit_stmt c)) node →
  preserves I (generic_visit_stmt visit_expr visit_stmt node).
Proof.
  intros He Hch.
  destruct node as [nid name args body|[value|]| | | | | | | | | ];
    simpl in *;
    repeat match goal with H : _ ∧ _ |- _ => destruct H end;
    repeat first
      [ apply preserves_ret
      | apply preserves_bind; [|intros ?]
      | apply He
      | apply preserves_visit_block; assumption
      | apply preserves_mapM; apply Forall_forall; intros; apply He ].
Qed.
End preserves.

(** *** Calls that never raise a given exception *)

Section never_raises.
Context {S : Type} (e : exn).

Lemma never_raises_ret {A} (a : A) : never_raises e (ret a : M S A).
Proof. intros st. done. Qed.

Lemma never_raises_raise {A} (e' : exn) :
  e' ≠ e → never_raises e (raise e' : M S A).
Proof. intros Hne st [= ->]. done. Qed.

Lemma never_raises_lift {A} (m : result A) :
  m ≠ Raise e → never_raises e (lift m : M S A).
Proof. intros Hne st. unfold lift. destruct m; [done|]. congruence. Qed.

Lemma never_raises_bind {A B} (m : M S A) (k : A → M S B) :
  never_raises e m → (∀ a, never_raises e (k a)) → never_raises e (mbind m k).
Proof.
  intros Hm Hk st. unfold mbind. destruct (m st) as [[a st1]|e'] eqn:Hma.
  - apply Hk.
  - intros [= ->]. by apply (Hm st).
Qed.

Lemma never_raises_mapM {A B} (f : A → M S B) l :
  Forall (fun x => never_raises e (f x)) l → never_raises e (mapM f l).
Proof.
  induction 1 as [|x l Hx _ IH]; simpl; [apply never_raises_ret|].
  apply never_raises_bind; [done|]. intros y.
  apply never_raises_bind; [done|]. intros ys. apply never_raises_ret.
Qed.

Lemma never_raises_visit_block (visit : stmt → M S (list stmt)) nodes :
  Forall (fun node => never_raises e (visit node)) nodes →
  never_raises e (visit_block visit nodes).
Proof.
  induction 1 as [|x l Hx _ IH]; simpl; [apply never_raises_ret|].
  apply never_raises_bind; [done|]. intros y.
  apply never_raises_bind; [done|]. intros ys. apply never_raises_ret.
Qed.

Lemma never_raises_generic_visit_expr (visit : expr → M S expr) node :
  children_all (fun c => never_raises e (visit c)) node →
  never_raises e (generic_visit_expr visit node).
Proof.
  intros Hch. destruct node; simpl in *;
    repeat match goal with H : _ ∧ _ |- _ => destruct H end;
    repeat first
      [ apply never_raises_ret
      | apply never_raises_bind; [|intros ?]
      | assumption
      | apply never_raises_mapM; assumption ].
  apply never_raises_mapM. eapply Forall_impl; [eassumption|].
  intros [k v] Hv. simpl in *.
  apply never_raises_bind; [done|]. intros ?. apply never_raises_ret.
Qed.

Lemma never_raises_generic_visit_stmt (visit_expr : expr → M S expr)
    (visit_stmt : stmt → M S (list stmt)) node :
  (∀ c, never_raises e (visit_expr c)) →
  blocks_all (fun c => never_raises e (visit_stmt c)) node →
  never_raises e (generic_visit_stmt visit_expr visit_stmt node).
Proof.
  intros He Hch.
  destruct node as [nid name args body|[value|]| | | | | | | | | ];
    simpl in *;
    repeat match goal with H : _ ∧ _ |- _ => destruct H end;
    repeat first
      [ apply never_raises_ret
      | apply never_raises_bind; [|intros ?]
      | apply He
      | apply never_raises_visit_block; assumption
      | apply never_raises_mapM; apply Forall_forall; intros; apply He ].
Qed.
End never_raises.

(** *** What a visit returns *)

Lemma yields_mapM {S A B} (Q : B → Prop) (f : A → M S B) l :
  Forall (fun x => yields Q (f x)) l → yields (Forall Q) (mapM f l).
Proof.
  induction 1 as [|x l Hx _ IH]; intros st out st' H; simpl in H.
  - apply ret_Ok in H as [-> _]. constructor.
  - inv_M. constructor; [by eapply Hx|by eapply IH].
Qed.

Lemma yields_visit_block {S} (Q : stmt → Prop)
    (visit : stmt → M S (list stmt)) nodes :
  Forall (fun node => yields (Forall Q) (visit node)) nodes →
  yields (Forall Q) (visit_block visit nodes).
Proof.
  induction 1 as [|x l Hx _ IH]; intros st out st' H; simpl in H.
  - apply ret_Ok in H as [-> _]. constructor.
  - inv_M. apply Forall_app. split; [by eapply Hx|by eapply IH].
Qed.

End invariant_facts.

Module scope_invariant_facts.
Import gast transformer transformer_facts invariant_facts scoping.

(** *** [locals] and [free] stay disjoint *)

(** No Scope object holds a name in both [locals] and [free]. *)
Local Abbreviation disjoint_state :=
  (fun st : ScopeTransformer =>
     ∀ r s, scope_objs st !! r = Some s → locals s ## free s).

Lemma update_scope_disjoint r method :
  (∀ s, locals s ## free s → locals (method s) ## free (method s)) →
  preserves disjoint_state (update_scope r method).
Proof.
  intros Hm st a st' HI. unfold update_scope.
  destruct (scope_objs st !! r) as [s|] eqn:Hs; [|done].
  intros [= _ <-] r' s' Hs'. simpl in Hs'.
  destruct (decide (r' = r)) as [->|Hne].
  - rewrite list_lookup_insert_eq in Hs' by by eapply lookup_lt_Some.
    injection Hs' as <-. apply Hm. by eapply HI.
  - rewrite list_lookup_insert_ne in Hs' by done. by eapply HI.
Qed.

Lemma add_local_disjoint var s :
  locals s ## free s → locals (add_local var s) ## free (add_local var s).
Proof.
  unfold add_local. simpl. destruct (decide (var ∈ free s)); set_solver.
Qed.

Lemma add_nonlocal_disjoint var s :
  locals s ## free s → locals (add_nonlocal var s) ## free (add_nonlocal var s).
Proof.
  unfold add_nonlocal. simpl. destruct (decide (var ∈ locals s)); set_solver.
Qed.

Lemma add_global_disjoint var s :
  locals s ## free s → locals (add_global var s) ## free (add_global var s).
Proof.
  unfold add_global. simpl. destruct (decide (var ∈ locals s)); set_solver.
Qed.

Lemma _check_local_disjoint ctx name :
  preserves disjoint_state (_check_local ctx name).
Proof.
  intros st a st' HI. unfold _check_local.
  destruct (scope st) as [r|]; [|by intros [= _ <-]].
  destruct (scope_objs st !! r) as [s|] eqn:Hs; [|done].
  destruct (is_global name s || is_nonlocal name s); [by intros [= _ <-]|].
  assert (Hfree : is_local name s = false →
    update_scope r (add_free name) st = Ok (a, st') → disjoint_state st').
  { intros Hl. unfold update_scope. rewrite Hs. intros [= _ <-] r' s' Hs'.
    simpl in Hs'. destruct (decide (r' = r)) as [->|Hne].
    - rewrite list_lookup_insert_eq in Hs' by by eapply lookup_lt_Some.
      injection Hs' as <-. simpl. apply bool_decide_eq_false in Hl.
      pose proof (HI _ _ Hs). set_solver.
    - rewrite list_lookup_insert_ne in Hs' by done. by eapply HI. }
  destruct ctx.
  - destruct (is_local name s) eqn:Hl; simpl; [by intros [= _ <-]|by apply Hfree].
  - apply update_scope_disjoint; [apply add_local_disjoint|done].
  - destruct (is_local name s) eqn:Hl; simpl; [by intros [= _ <-]|by apply Hfree].
Qed.

Lemma visit_expr_disjoint e : preserves disjoint_state (visit_expr e).
Proof.
  induction e as [e Hch] using expr_children_ind.
  destruct e; try (by apply (preserves_generic_visit_expr _ visit_expr)).
  simpl. unfold visit_Name.
  apply preserves_bind; [apply _check_local_disjoint|].
  intros ?. apply preserves_ret.
Qed.

Lemma visit_For_target_disjoint target :
  preserves disjoint_state (visit_For_target target).
Proof.
  assert (Hseq : ∀ elts ctx,
    preserves disjoint_state
      (do _ <- mapM (fun elt => do id <- lift (get_id elt);
                                _check_local ctx id) elts;
       ret tt : M ScopeTransformer unit)).
  { intros elts ctx. apply preserves_bind; [|intros ?; apply preserves_ret].
    apply preserves_mapM. apply Forall_forall. intros elt _.
    apply preserves_bind; [apply preserves_lift|].
    intros ?. apply _check_local_disjoint. }
  destruct target; simpl; try apply preserves_raise; try apply Hseq.
  apply _check_local_disjoint.
Qed.

Lemma _visit_free_disjoint callback names :
  (∀ n s, locals s ## free s →
          locals (callback n s) ## free (callback n s)) →
  preserves disjoint_state (_visit_free callback names).
Proof.
  intros Hcb st a st' HI. unfold _visit_free.
  destruct (scope st) as [r|]; [|done].
  revert st a st' HI.
  change (preserves disjoint_state
    (do _ <- mapM (fun name => update_scope r (callback name)) names; ret tt)).
  apply preserves_bind; [|intros ?; apply preserves_ret].
  apply preserves_mapM. apply Forall_forall. intros name _.
  apply update_scope_disjoint, Hcb.
Qed.

Lemma enter_scope_disjoint nid name :
  preserves disjoint_state (enter_scope nid name).
Proof.
  intros st a st' HI [= _ <-] r s Hs. simpl in Hs.
  apply lookup_app_Some in Hs as [Hs|[_ Hs]]; [by eapply HI|].
  destruct (r - length (scope_objs st)) as [|k]; [|by destruct k].
  simpl in Hs. injection Hs as <-. simpl. set_solver.
Qed.

Lemma scope_parent_disjoint : preserves disjoint_state scope_parent.
Proof.
  intros st a st' HI. unfold scope_parent.
  destruct (scope st) as [r|]; [|done].
  destruct (scope_objs st !! r); [|done]. by intros [= _ <-].
Qed.

Lemma visit_stmt_disjoint node : preserves disjoint_state (visit_stmt node).
Proof.
  induction node as [node Hch] using stmt_blocks_ind.
  assert (Hgen : preserves disjoint_state
                   (generic_visit_stmt visit_expr visit_stmt node)).
  { apply preserves_generic_visit_stmt; [apply visit_expr_disjoint|done]. }
  assert (Hup : ∀ (o : option ref) name,
    preserves disjoint_state
      (match o with
       | Some r => update_scope r (add_local name)
       | None => ret tt
       end)).
  { intros [r|] name; [|apply preserves_ret].
    apply update_scope_disjoint, add_local_disjoint. }
  destruct node as [nid name args body|[value|]| | |target iter body orelse anno
                   | | | | | | ]; cbn [visit_stmt];
    try (apply preserves_bind; [exact Hgen|intros ?; apply preserves_ret]).
  - apply preserves_bind; [by intros st a st' HI [= _ <-]|]. intros outer.
    apply preserves_bind; [apply Hup|]. intros _.
    apply preserves_bind; [apply enter_scope_disjoint|]. intros r.
    apply preserves_bind.
    { apply preserves_mapM, Forall_forall. intros arg _.
      apply update_scope_disjoint, add_local_disjoint. }
    intros _. apply preserves_bind; [exact Hgen|]. intros node'.
    apply preserves_bind; [apply scope_parent_disjoint|]. intros p.
    apply preserves_bind; [apply Hup|]. intros _.
    apply preserves_bind; [apply scope_parent_disjoint|]. intros p'.
    apply preserves_bind; [by intros st a st' HI [= _ <-]|]. intros _.
    apply preserves_ret.
  - simpl in Hch. destruct Hch as [Hb He].
    apply preserves_bind; [apply visit_For_target_disjoint|]. intros _.
    apply preserves_bind.
    { apply preserves_generic_visit_expr, children_all_intro,
        visit_expr_disjoint. }
    intros iter'.
    apply preserves_bind; [by apply preserves_visit_block|]. intros body'.
    apply preserves_bind; [by apply preserves_visit_block|]. intros orelse'.
    apply preserves_ret.
  - apply preserves_bind; [|intros ?; apply preserves_ret].
    apply _visit_free_disjoint. intros; by apply add_nonlocal_disjoint.
  - apply preserves_bind; [|intros ?; apply preserves_ret].
    apply _visit_free_disjoint. intros; by apply add_global_disjoint.
Qed.

(** Whenever the scope analysis returns, no Scope object it built holds a
    name in both [locals] and [free]: [_check_local] adds to [free] only a
    name that is not local, and [add_local] takes the name out of [free]. *)
Theorem analysis_keeps_locals_free_disjoint tree tree' sc :
  visit tree = Ok (tree', sc) →
  ∀ r s, scope_objs sc !! r = Some s → locals s ## free s.
Proof.
  intros Hv.
  eapply (preserves_visit_block disjoint_state visit_stmt tree);
    [|..|exact Hv].
  - apply Forall_forall. intros node _. apply visit_stmt_disjoint.
  - intros r s Hs. done.
Qed.

Lemma analysis_keeps_locals_free_disjoint_witness :
  ∃ sc s, visit examples.local_and_free = Ok (examples.local_and_free, sc) ∧
    scope_objs sc !! 0 = Some s ∧
    "b" ∈ locals s ∧ "c" ∈ free s ∧ locals s ## free s.
Proof.
  destruct (visit examples.local_and_free) as [[tree' sc]|] eqn:Hv;
    [|vm_compute in Hv; discriminate].
  pose proof (analysis_keeps_locals_free_disjoint _ _ _ Hv) as Hdisj.
  vm_compute in Hv. injection Hv as <- <-.
  eexists _, _. split; [reflexivity|]. split; [reflexivity|].
  split; [|split].
  - vm_compute. reflexivity.
  - vm_compute. reflexivity.
  - apply (Hdisj 0). reflexivity.
Defined.

End scope_invariant_facts.

Module scope_domain_facts.
Import gast transformer transformer_facts invariant_facts scoping
  scope_analysis_facts.

(** *** The trees the analysis raises on *)

(** [in_func] says whether there is a current scope. *)
Local Abbreviation agrees :=
  (fun (in_func : bool) (st0 : ScopeTransformer) =>
     (in_func = true → is_Some (scope st0)) ∧
     (in_func = false → scope st0 = None)).

(** From a state at the nesting depth of [st0], the visit raises. *)
Local Abbreviation raises_from st0 m :=
  (∀ st, same_scope st0 st → ∃ e, m st = Raise e).

Lemma raises_from_bind_l {A B} st0 (m : M ScopeTransformer A)
    (k : A → M ScopeTransformer B) :
  raises_from st0 m → raises_from st0 (mbind m k).
Proof.
  intros Hm st HI. destruct (Hm st HI) as [e He]. exists e.
  unfold mbind. by rewrite He.
Qed.

Lemma raises_from_bind_r {A B} st0 (m : M ScopeTransformer A)
    (k : A → M ScopeTransformer B) :
  total (same_scope st0) m → (∀ a, raises_from st0 (k a)) →
  raises_from st0 (mbind m k).
Proof.
  intros Hm Hk st HI. destruct (Hm st HI) as (a & st1 & Hma & HI1).
  rewrite (mbind_Ok_intro _ _ _ _ _ Hma). by apply Hk.
Qed.

Lemma visit_block_raises in_func nodes st0 :
  agrees in_func st0 →
  Forall (fun node => analyzable in_func node = false →
                      raises_from st0 (visit_stmt node)) nodes →
  forallb (analyzable in_func) nodes = false →
  raises_from st0 (visit_block visit_stmt nodes).
Proof.
  intros Hag. induction 1 as [|node nodes Hnode _ IH]; [done|].
  cbn [forallb visit_block]. intros Hb.
  destruct (analyzable in_func node) eqn:Han.
  - apply raises_from_bind_r.
    { apply (visit_stmt_total node in_func Han). apply Hag. }
    intros ?. apply raises_from_bind_l. by apply IH.
  - apply raises_from_bind_l. by apply Hnode.
Qed.

Lemma _visit_free_raises callback names st :
  scope st = None → ∃ e, _visit_free callback names st = Raise e.
Proof. intros Hsc. unfold _visit_free. rewrite Hsc. by eexists. Qed.

Lemma visit_stmt_raises node : ∀ in_func st0,
  agrees in_func st0 →
  analyzable in_func node = false →
  raises_from st0 (visit_stmt node).
Proof.
  induction node as
    [nid name args body IH|value|targets value|target op value
    |target iter body orelse anno IHb IHe
    |test body orelse anno IHb IHe|test body orelse anno IHb IHe
    |value| |names|names]
    using stmt_nested_ind; intros in_func st0 Hag Han; try done.
  - (* FunctionDef: the body is visited inside the new scope *)
    simpl in Han. intros st HI. pose proof HI as (Hsc & Hok & Hext).
    cbn [visit_stmt].
    rewrite (mbind_Ok_intro get_scope _ st (scope st) st eq_refl).
    assert (∃ st1,
      (match scope st with
       | Some r => update_scope r (add_local name)
       | None => ret tt
       end) st = Ok (tt, st1) ∧ st_ok st1)
      as (st1 & Hst1 & Hok1).
    { destruct (scope st) as [r|] eqn:Hr.
      - destruct (update_scope_spec r (add_local name) st) as (st1 & ? & ? & ? & ?);
          [done|done|by apply Hok|]. by exists st1.
      - by exists st. }
    rewrite (mbind_Ok_intro _ _ st tt st1 Hst1).
    destruct (enter_scope_spec nid name st1 Hok1)
      as (st2 & Hst2 & Hok2 & Hext2 & Hsc2 & Hnew).
    rewrite (mbind_Ok_intro _ _ st1 _ st2 Hst2).
    set (r := length (scope_objs st1)) in *.
    destruct (total_mapM (same_scope st2)
                (fun arg => update_scope r (add_local arg)) args) with (st := st2)
      as (u & st3 & Hst3 & HI3).
    { apply Forall_forall. intros arg _. by apply update_current_total. }
    { by apply same_scope_refl. }
    rewrite (mbind_Ok_intro _ _ st2 u st3 Hst3).
    destruct (visit_block_raises true body st2) with (st := st3) as [e He].
    + split; [|done]. intros _. rewrite Hsc2. by eexists.
    + eapply Forall_impl; [exact IH|]. intros node Hn Hf. apply (Hn true); [|done].
      split; [|done]. intros _. rewrite Hsc2. by eexists.
    + done.
    + done.
    + exists e. cbn [generic_visit_stmt]. unfold mbind at 1. unfold mbind at 1.
      by rewrite He.
  - (* For *)
    simpl in Han. cbn [visit_stmt].
    destruct (name_or_names target) eqn:Ht.
    + apply raises_from_bind_r; [by apply visit_For_target_total|]. intros ?.
      apply raises_from_bind_r.
      { apply total_generic_visit_expr, children_all_intro, visit_expr_total. }
      intros ?. simpl in Han.
      destruct (forallb (analyzable in_func) body) eqn:Hb.
      * apply raises_from_bind_r.
        { apply total_visit_block. apply Forall_forall. intros node Hnode.
          apply (visit_stmt_total node in_func); [|apply Hag].
          rewrite forallb_forall in Hb. apply Hb. by apply list_elem_of_In. }
        intros ?. apply raises_from_bind_l.
        apply (visit_block_raises in_func); [done| |done].
        eapply Forall_impl; [exact IHe|]. intros node Hn Hf. by apply (Hn in_func).
      * apply raises_from_bind_l.
        apply (visit_block_raises in_func); [done| |done].
        eapply Forall_impl; [exact IHb|]. intros node Hn Hf. by apply (Hn in_func).
    + apply raises_from_bind_l.
      intros st' HI'. eexists.
      apply visit_For_target_raises; [done|apply HI'].
  - (* While *)
    simpl in Han. cbn [visit_stmt generic_visit_stmt].
    apply raises_from_bind_l.
    apply raises_from_bind_r; [apply visit_expr_total|]. intros ?.
    destruct (forallb (analyzable in_func) body) eqn:Hb.
    + apply raises_from_bind_r.
      { apply total_visit_block. apply Forall_forall. intros node Hnode.
        apply (visit_stmt_total node in_func); [|apply Hag].
        rewrite forallb_forall in Hb. apply Hb. by apply list_elem_of_In. }
      intros ?. apply raises_from_bind_l.
      apply (visit_block_raises in_func); [done| |done].
      eapply Forall_impl; [exact IHe|]. intros node Hn Hf. by apply (Hn in_func).
    + apply raises_from_bind_l.
      apply (visit_block_raises in_func); [done| |done].
      eapply Forall_impl; [exact IHb|]. intros node Hn Hf. by apply (Hn in_func).
  - (* If *)
    simpl in Han. cbn [visit_stmt generic_visit_stmt].
    apply raises_from_bind_l.
    apply raises_from_bind_r; [apply visit_expr_total|]. intros ?.
    destruct (forallb (analyzable in_func) body) eqn:Hb.
    + apply raises_from_bind_r.
      { apply total_visit_block. apply Forall_forall. intros node Hnode.
        apply (visit_stmt_total node in_func); [|apply Hag].
        rewrite forallb_forall in Hb. apply Hb. by apply list_elem_of_In. }
      intros ?. apply raises_from_bind_l.
      apply (visit_block_raises in_func); [done| |done].
      eapply Forall_impl; [exact IHe|]. intros node Hn Hf. by apply (Hn in_func).
    + apply raises_from_bind_l.
      apply (visit_block_raises in_func); [done| |done].
      eapply Forall_impl; [exact IHb|]. intros node Hn Hf. by apply (Hn in_func).
  - (* Nonlocal outside a function *)
    simpl in Han. subst in_func. cbn [visit_stmt]. apply raises_from_bind_l.
    intros st (Hsc & _ & _). apply _visit_free_raises.
    rewrite Hsc. by apply Hag.
  - simpl in Han. subst in_func. cbn [visit_stmt]. apply raises_from_bind_l.
    intros st (Hsc & _ & _). apply _visit_free_raises.
    rewrite Hsc. by apply Hag.
Qed.

Lemma new_ScopeTransformer_ok : st_ok new_ScopeTransformer.
Proof. split; [done|]. intros r s p Hs. done. Qed.

(** The scope analysis returns exactly on the trees in which every
    for-target is a name or a tuple or list of names and every [nonlocal]
    and [global] statement is inside a function; on any other tree it
    raises.  When it returns it hands back the tree it was given, and its
    current scope is None again. *)
Theorem analysis_returns_iff_analyzable tree :
  ((∃ tree' sc, visit tree = Ok (tree', sc)) ↔
   forallb (analyzable false) tree = true) ∧
  (forallb (analyzable false) tree = false → ∃ e, visit tree = Raise e) ∧
  (∀ tree' sc, visit tree = Ok (tree', sc) → tree' = tree ∧ scope sc = None).
Proof.
  assert (Hraise : forallb (analyzable false) tree = false →
                   ∃ e, visit tree = Raise e).
  { intros Hb. unfold visit.
    apply (visit_block_raises false tree new_ScopeTransformer); [done| |done|].
    - apply Forall_forall. intros node _ Hf.
      by apply (visit_stmt_raises node false).
    - apply same_scope_refl, new_ScopeTransformer_ok. }
  assert (Hiff : (∃ tree' sc, visit tree = Ok (tree', sc)) ↔
                 forallb (analyzable false) tree = true).
  { split; [|apply visit_total].
    intros (tree' & sc & Hv).
    destruct (forallb (analyzable false) tree) eqn:Hb; [done|].
    destruct (Hraise eq_refl) as [e He]. congruence. }
  split; [done|]. split; [done|].
  intros tree' sc Hv. split; [by eapply visit_same|].
  assert (Han : forallb (analyzable false) tree = true).
  { apply Hiff. by exists tree', sc. }
  destruct (total_visit_block (same_scope new_ScopeTransformer)
              visit_stmt tree) with (st := new_ScopeTransformer)
    as (tree2 & sc2 & Hv2 & Hsc2 & _).
  - rewrite forallb_forall in Han. apply Forall_forall. intros node Hnode.
    apply (visit_stmt_total node false); [|done].
    apply Han. by apply list_elem_of_In.
  - apply same_scope_refl, new_ScopeTransformer_ok.
  - unfold visit in Hv. rewrite Hv in Hv2. injection Hv2 as _ <-. exact Hsc2.
Qed.

Lemma analysis_returns_iff_analyzable_witness :
  (∃ e, visit [Global ["g"]] = Raise e) ∧
  (∃ tree' sc, visit examples.global_then_def = Ok (tree', sc)).
Proof.
  split.
  - apply (analysis_returns_iff_analyzable [Global ["g"]]). reflexivity.
  - apply (analysis_returns_iff_analyzable examples.global_then_def).
    reflexivity.
Defined.

End scope_domain_facts.

Module scopes_cover_facts.
Import gast transformer transformer_facts invariant_facts.

(** *** Every function definition gets a Scope *)

Section registered.
Import scoping.
Context (nid : nat).

(** [nid] is a key of [self.scopes]. *)
Local Abbreviation registered :=
  (fun st : ScopeTransformer => is_Some (scopes st !! nid)).

Lemma update_scope_registered r method :
  preserves registered (update_scope r method).
Proof.
  intros st a st' HI. unfold update_scope.
  destruct (scope_objs st !! r); [|done]. by intros [= _ <-].
Qed.

Lemma _check_local_registered ctx name :
  preserves registered (_check_local ctx name).
Proof.
  intros st a st' HI. unfold _check_local.
  destruct (scope st) as [r|]; [|by intros [= _ <-]].
  destruct (scope_objs st !! r) as [s|] eqn:Hs; [|done].
  destruct (is_global name s || is_nonlocal name s); [by intros [= _ <-]|].
  destruct ctx; try (by apply update_scope_registered);
    (destruct (negb (is_local name s));
     [by apply update_scope_registered|by intros [= _ <-]]).
Qed.

Lemma visit_expr_registered e : preserves registered (visit_expr e).
Proof.
  induction e as [e Hch] using expr_children_ind.
  destruct e; try (by apply (preserves_generic_visit_expr _ visit_expr)).
  simpl. unfold visit_Name.
  apply preserves_bind; [apply _check_local_registered|].
  intros ?. apply preserves_ret.
Qed.

Lemma visit_For_target_registered target :
  preserves registered (visit_For_target target).
Proof.
  assert (Hseq : ∀ elts ctx,
    preserves registered
      (do _ <- mapM (fun elt => do id <- lift (get_id elt);
                                _check_local ctx id) elts;
       ret tt : M ScopeTransformer unit)).
  { intros elts ctx. apply preserves_bind; [|intros ?; apply preserves_ret].
    apply preserves_mapM. apply Forall_forall. intros elt _.
    apply preserves_bind; [apply preserves_lift|].
    intros ?. apply _check_local_registered. }
  destruct target; simpl; try apply preserves_raise; try apply Hseq.
  apply _check_local_registered.
Qed.

Lemma _visit_free_registered callback names :
  preserves registered (_visit_free callback names).
Proof.
  intros st a st' HI. unfold _visit_free.
  destruct (scope st) as [r|]; [|done].
  revert st a st' HI.
  change (preserves registered
    (do _ <- mapM (fun name => update_scope r (callback name)) names; ret tt)).
  apply preserves_bind; [|intros ?; apply preserves_ret].
  apply preserves_mapM. apply Forall_forall. intros name _.
  apply update_scope_registered.
Qed.

Lemma enter_scope_registered nid' name :
  preserves registered (enter_scope nid' name).
Proof.
  intros st a st' HI [= _ <-]. simpl.
  destruct (decide (nid' = nid)) as [->|Hne].
  - rewrite lookup_insert_eq. by eexists.
  - by rewrite lookup_insert_ne.
Qed.

Lemma scope_parent_registered : preserves registered scope_parent.
Proof.
  intros st a st' HI. unfold scope_parent.
  destruct (scope st) as [r|]; [|done].
  destruct (scope_objs st !! r); [|done]. by intros [= _ <-].
Qed.

Lemma update_outer_registered (o : option ref) name :
  preserves registered
    (match o with
     | Some r => update_scope r (add_local name)
     | None => ret tt
     end).
Proof. destruct o; [apply update_scope_registered|apply preserves_ret]. Qed.

Lemma visit_stmt_registered node : preserves registered (visit_stmt node).
Proof.
  induction node as [node Hch] using stmt_blocks_ind.
  assert (Hgen : preserves registered
                   (generic_visit_stmt visit_expr visit_stmt node)).
  { apply preserves_generic_visit_stmt; [apply visit_expr_registered|done]. }
  destruct node as [nid' name args body|[value|]| | |target iter body orelse anno
                   | | | | | | ]; cbn [visit_stmt];
    try (apply preserves_bind; [exact Hgen|intros ?; apply preserves_ret]).
  - apply preserves_bind; [by intros st a st' HI [= _ <-]|]. intros outer.
    apply preserves_bind; [apply update_outer_registered|]. intros _.
    apply preserves_bind; [apply enter_scope_registered|]. intros r.
    apply preserves_bind.
    { apply preserves_mapM, Forall_forall. intros arg _.
      apply update_scope_registered. }
    intros _. apply preserves_bind; [exact Hgen|]. intros node'.
    apply preserves_bind; [apply scope_parent_registered|]. intros p.
    apply preserves_bind; [apply update_outer_registered|]. intros _.
    apply preserves_bind; [apply scope_parent_registered|]. intros p'.
    apply preserves_bind; [by intros st a st' HI [= _ <-]|]. intros _.
    apply preserves_ret.
  - simpl in Hch. destruct Hch as [Hb He].
    apply preserves_bind; [apply visit_For_target_registered|]. intros _.
    apply preserves_bind.
    { apply preserves_generic_visit_expr, children_all_intro,
        visit_expr_registered. }
    intros iter'.
    apply preserves_bind; [by apply preserves_visit_block|]. intros body'.
    apply preserves_bind; [by apply preserves_visit_block|]. intros orelse'.
    apply preserves_ret.
  - apply preserves_bind; [|intros ?; apply preserves_ret].
    apply _visit_free_registered.
  - apply preserves_bind; [|intros ?; apply preserves_ret].
    apply _visit_free_registered.
Qed.

Lemma visit_block_registered nodes :
  preserves registered (visit_block visit_stmt nodes).
Proof.
  apply preserves_visit_block, Forall_forall. intros node _.
  apply visit_stmt_registered.
Qed.

(** A visit that returns has registered what its node defines. *)
Local Abbreviation registers node :=
  (∀ st out st', visit_stmt node st = Ok (out, st') →
     defines nid node = true → registered st').

Lemma visit_block_registers nodes :
  Forall (fun node => registers node) nodes →
  ∀ st out st', visit_block visit_stmt nodes st = Ok (out, st') →
    existsb (defines nid) nodes = true → registered st'.
Proof.
  induction 1 as [|node nodes Hnode _ IH]; intros st out st' H Hd; [done|].
  simpl in H, Hd. inv_M.
  match goal with
  | Hv : visit_stmt node st = Ok _, Hb : visit_block _ nodes _ = Ok _ |- _ =>
    apply orb_true_iff in Hd as [Hd|Hd];
      [eapply visit_block_registered; [|exact Hb]; by eapply Hnode
      |by eapply IH]
  end.
Qed.

Lemma visit_stmt_registers node : registers node.
Proof.
  induction node as
    [nid' name args body IH|value|targets value|target op value
    |target iter body orelse anno IHb IHe
    |test body orelse anno IHb IHe|test body orelse anno IHb IHe
    |value| |names|names]
    using stmt_nested_ind; intros st out st' H Hd; try done.
  - cbn [visit_stmt] in H. simpl in Hd.
    apply mbind_Ok in H as (outer & sa & Ha & H).
    apply mbind_Ok in H as (? & sb & Hb & H).
    apply mbind_Ok in H as (r & sc & Hc & H).
    apply mbind_Ok in H as (? & sd & Hdd & H).
    apply mbind_Ok in H as (node' & se & He & H).
    assert (Hse : registered se).
    { cbn [generic_visit_stmt] in He.
      apply mbind_Ok in He as (body' & sf & Hf & He).
      apply ret_Ok in He as [_ ->].
      apply orb_true_iff in Hd as [Hd|Hd].
      - apply Nat.eqb_eq in Hd as ->.
        eapply visit_block_registered; [|exact Hf].
        eapply (preserves_mapM registered); [| |exact Hdd].
        + apply Forall_forall. intros arg _. apply update_scope_registered.
        + injection Hc as _ <-. simpl. rewrite lookup_insert_eq. by eexists.
      - by eapply (visit_block_registers body IH). }
    revert H. generalize se Hse. clear.
    intros se Hse H.
    eapply (preserves_bind registered); [| |exact Hse|exact H].
    + apply scope_parent_registered.
    + intros p. apply preserves_bind; [apply update_outer_registered|].
      intros _. apply preserves_bind; [apply scope_parent_registered|].
      intros p'. apply preserves_bind; [by intros sx a sy HI [= _ <-]|].
      intros _. apply preserves_ret.
  - cbn [visit_stmt] in H. simpl in Hd. inv_M.
    match goal with
    | Hb : visit_block _ body _ = Ok _, He : visit_block _ orelse _ = Ok _ |- _ =>
      apply orb_true_iff in Hd as [Hd|Hd];
        [eapply visit_block_registered; [|exact He];
         by eapply (visit_block_registers body IHb)
        |by eapply (visit_block_registers orelse IHe)]
    end.
  - cbn [visit_stmt generic_visit_stmt] in H. simpl in Hd. inv_M.
    match goal with
    | Hb : visit_block _ body _ = Ok _, He : visit_block _ orelse _ = Ok _ |- _ =>
      apply orb_true_iff in Hd as [Hd|Hd];
        [eapply visit_block_registered; [|exact He];
         by eapply (visit_block_registers body IHb)
        |by eapply (visit_block_registers orelse IHe)]
    end.
  - cbn [visit_stmt generic_visit_stmt] in H. simpl in Hd. inv_M.
    match goal with
    | Hb : visit_block _ body _ = Ok _, He : visit_block _ orelse _ = Ok _ |- _ =>
      apply orb_true_iff in Hd as [Hd|Hd];
        [eapply visit_block_registered; [|exact He];
         by eapply (visit_block_registers body IHb)
        |by eapply (visit_block_registers orelse IHe)]
    end.
Qed.

Lemma visit_registers tree tree' sc :
  visit tree = Ok (tree', sc) →
  existsb (defines nid) tree = true → is_Some (scopes sc !! nid).
Proof.
  apply visit_block_registers, Forall_forall. intros node _.
  apply visit_stmt_registers.
Qed.
End registered.

(** *** The analysis raises no AssertionError *)

Section analysis.
Import scoping.

Local Abbreviation no_assert m := (never_raises AssertionError m).

Lemma update_scope_no_assert r method : no_assert (update_scope r method).
Proof. intros st. unfold update_scope. by destruct (scope_objs st !! r). Qed.

Lemma _check_local_no_assert ctx name : no_assert (_check_local ctx name).
Proof.
  intros st. unfold _check_local.
  destruct (scope st) as [r|]; [|done].
  destruct (scope_objs st !! r) as [s|] eqn:Hs; [|done].
  destruct (is_global name s || is_nonlocal name s); [done|].
  destruct ctx; try apply update_scope_no_assert;
    (destruct (negb (is_local name s)); [apply update_scope_no_assert|done]).
Qed.

Lemma get_id_no_assert elt : get_id elt ≠ Raise AssertionError.
Proof. by destruct elt. Qed.

Lemma scoping_visit_expr_no_assert e : no_assert (visit_expr e).
Proof.
  induction e as [e Hch] using expr_children_ind.
  destruct e; try (by apply (never_raises_generic_visit_expr _ visit_expr)).
  simpl. unfold visit_Name.
  apply never_raises_bind; [apply _check_local_no_assert|].
  intros ?. apply never_raises_ret.
Qed.

Lemma visit_For_target_no_assert target : no_assert (visit_For_target target).
Proof.
  assert (Hseq : ∀ elts ctx,
    no_assert
      (do _ <- mapM (fun elt => do id <- lift (get_id elt);
                                _check_local ctx id) elts;
       ret tt : M ScopeTransformer unit)).
  { intros elts ctx.
    apply never_raises_bind; [|intros ?; apply never_raises_ret].
    apply never_raises_mapM. apply Forall_forall. intros elt _.
    apply never_raises_bind; [apply never_raises_lift, get_id_no_assert|].
    intros ?. apply _check_local_no_assert. }
  destruct target; simpl; try (by apply never_raises_raise); try apply Hseq.
  apply _check_local_no_assert.
Qed.

Lemma _visit_free_no_assert callback names :
  no_assert (_visit_free callback names).
Proof.
  intros st. unfold _visit_free. destruct (scope st) as [r|]; [|done].
  revert st.
  change (no_assert
    (do _ <- mapM (fun name => update_scope r (callback name)) names; ret tt)).
  apply never_raises_bind; [|intros ?; apply never_raises_ret].
  apply never_raises_mapM. apply Forall_forall. intros name _.
  apply update_scope_no_assert.
Qed.

Lemma scope_parent_no_assert : no_assert scope_parent.
Proof.
  intros st. unfold scope_parent. destruct (scope st) as [r|]; [|done].
  by destruct (scope_objs st !! r).
Qed.

Lemma update_outer_no_assert (o : option ref) name :
  no_assert
    (match o with
     | Some r => update_scope r (add_local name)
     | None => ret tt
     end).
Proof. destruct o; [apply update_scope_no_assert|apply never_raises_ret]. Qed.

Lemma scoping_visit_stmt_no_assert node : no_assert (visit_stmt node).
Proof.
  induction node as [node Hch] using stmt_blocks_ind.
  assert (Hgen : no_assert (generic_visit_stmt visit_expr visit_stmt node)).
  { apply never_raises_generic_visit_stmt;
      [apply scoping_visit_expr_no_assert|done]. }
  destruct node as [nid' name args body|[value|]| | |target iter body orelse anno
                   | | | | | | ]; cbn [visit_stmt];
    try (apply never_raises_bind; [exact Hgen|intros ?; apply never_raises_ret]).
  - apply never_raises_bind; [done|]. intros outer.
    apply never_raises_bind; [apply update_outer_no_assert|]. intros _.
    apply never_raises_bind; [done|]. intros r.
    apply never_raises_bind.
    { apply never_raises_mapM, Forall_forall. intros arg _.
      apply update_scope_no_assert. }
    intros _. apply never_raises_bind; [exact Hgen|]. intros node'.
    apply never_raises_bind; [apply scope_parent_no_assert|]. intros p.
    apply never_raises_bind; [apply update_outer_no_assert|]. intros _.
    apply never_raises_bind; [apply scope_parent_no_assert|]. intros p'.
    apply never_raises_bind; [done|]. intros _.
    apply never_raises_ret.
  - simpl in Hch. destruct Hch as [Hb He].
    apply never_raises_bind; [apply visit_For_target_no_assert|]. intros _.
    apply never_raises_bind.
    { apply never_raises_generic_visit_expr, children_all_intro,
        scoping_visit_expr_no_assert. }
    intros iter'.
    apply never_raises_bind; [by apply never_raises_visit_block|]. intros body'.
    apply never_raises_bind; [by apply never_raises_visit_block|].
    intros orelse'. apply never_raises_ret.
  - apply never_raises_bind; [|intros ?; apply never_raises_ret].
    apply _visit_free_no_assert.
  - apply never_raises_bind; [|intros ?; apply never_raises_ret].
    apply _visit_free_no_assert.
Qed.

Lemma should_virtualize_no_assert σ var : ∀ depth self,
  should_virtualize_rec depth σ self var ≠ Raise AssertionError.
Proof.
  induction depth as [|depth IH]; intros self; simpl; [done|].
  destruct (σ !! self) as [s|]; [|done].
  destruct (is_local var s); [done|].
  destruct (is_nonlocal var s || is_free var s); [|done].
  destruct (parent s); [apply IH|done].
Qed.
End analysis.

(** *** The Variables pass finds the Scope of every function *)

Section variables.
Import variables.
Context {N : Type} (new_symbol : string → gset string → N → string * N).
Context (overload : VirtualizationConfig).
Context (scopes : gmap nat ref) (scope_objs : list scoping.Scope).

Local Abbreviation visit_stmt :=
  (visit_stmt new_symbol overload scopes scope_objs).
Local Abbreviation visit_expr := (@visit_expr N overload scope_objs).
Local Abbreviation VT := (@VariableTransformer N).
Local Abbreviation no_assert m := (never_raises AssertionError m).

Lemma fresh_symbol_no_assert name_root reserved :
  no_assert (fresh_symbol new_symbol name_root reserved).
Proof.
  intros st. unfold fresh_symbol.
  by destruct (new_symbol name_root reserved (namer st)).
Qed.

Lemma current_scope_no_assert : no_assert (@current_scope N scope_objs).
Proof.
  intros st. unfold current_scope. destruct (scope st) as [r|]; [|done].
  by destruct (scope_objs !! r).
Qed.

Lemma variables_should_virtualize_no_assert name :
  no_assert (@should_virtualize N scope_objs name).
Proof.
  unfold should_virtualize.
  apply never_raises_bind; [apply current_scope_no_assert|]. intros rs.
  apply never_raises_lift, should_virtualize_no_assert.
Qed.

Lemma variables_visit_expr_no_assert e : no_assert (visit_expr e).
Proof.
  induction e as [e Hch] using expr_children_ind.
  destruct e; try (by apply (never_raises_generic_visit_expr _ visit_expr)).
  simpl. unfold visit_Name.
  destruct (negb (hasattr overload "read")); [apply never_raises_ret|].
  apply never_raises_bind; [apply variables_should_virtualize_no_assert|].
  intros v. destruct (truthy v); apply never_raises_ret.
Qed.

Lemma first_target_id_no_assert targets :
  first_target_id targets ≠ Raise AssertionError.
Proof. destruct targets as [|t ?]; [done|]. by destruct t. Qed.

Lemma for_targets_no_assert target :
  for_targets target ≠ Raise AssertionError.
Proof. by destruct target. Qed.

Lemma target_ids_no_assert targets :
  target_ids targets ≠ Raise AssertionError.
Proof.
  induction targets as [|t targets IH]; simpl; [done|].
  destruct t; simpl; try done.
  destruct (target_ids targets); simpl; [done|]. congruence.
Qed.

Lemma target_assigns_no_assert ids n_target :
  target_assigns overload ids n_target ≠ Raise AssertionError.
Proof.
  unfold target_assigns. destruct (1 <? length ids); [done|]. by destruct ids.
Qed.

Lemma variables_visit_stmt_no_assert node :
  (∀ nid, defines nid node = true → is_Some (scopes !! nid)) →
  no_assert (visit_stmt node).
Proof.
  induction node as
    [nid name args body IH|value|targets value|target op value
    |target iter body orelse anno IHb IHe
    |test body orelse anno IHb IHe|test body orelse anno IHb IHe
    |value| |names|names]
    using stmt_nested_ind; intros Hdef.
  - (* visit_FunctionDef *)
    assert (Hbody : no_assert (visit_block visit_stmt body)).
    { apply never_raises_visit_block.
      rewrite Forall_forall in IH |- *. intros node Hnode.
      apply (IH node Hnode). intros nid' Hd. apply Hdef. simpl.
      apply orb_true_iff. right. apply existsb_exists. exists node.
      split; [by apply list_elem_of_In|done]. }
    cbn [variables.visit_stmt].
    destruct (Hdef nid) as [r Hr]; [simpl; by rewrite Nat.eqb_refl|].
    rewrite Hr.
    apply never_raises_bind; [done|]. intros _.
    apply never_raises_bind.
    { apply never_raises_mapM, Forall_forall. intros arg _.
      apply fresh_symbol_no_assert. }
    intros n_arg_names.
    apply never_raises_bind; [apply current_scope_no_assert|]. intros rs.
    apply never_raises_bind; [exact Hbody|]. intros body'.
    apply never_raises_bind; [apply current_scope_no_assert|]. intros rs'.
    apply never_raises_bind.
    { destruct (scoping.parent rs'.2) as [p|]; [|apply never_raises_ret].
      destruct (scope_objs !! p);
        [apply never_raises_ret|by apply never_raises_raise]. }
    intros is_local_in_parent.
    apply never_raises_bind.
    { destruct is_local_in_parent.
      - apply never_raises_bind; [apply fresh_symbol_no_assert|]. intros ?.
        apply never_raises_bind; [done|]. intros ?. apply never_raises_ret.
      - apply never_raises_bind; [done|]. intros ?. apply never_raises_ret. }
    intros node'.
    apply never_raises_bind; [apply current_scope_no_assert|]. intros rs''.
    apply never_raises_bind; [done|]. intros _. apply never_raises_ret.
  - cbn [variables.visit_stmt].
    apply never_raises_bind; [|intros ?; apply never_raises_ret].
    apply never_raises_generic_visit_stmt;
      [apply variables_visit_expr_no_assert|done].
  - (* visit_Assign *)
    cbn [variables.visit_stmt].
    apply never_raises_bind; [apply variables_visit_expr_no_assert|].
    intros value'.
    apply never_raises_bind;
      [apply never_raises_lift, first_target_id_no_assert|].
    intros lhs.
    apply never_raises_bind; [apply variables_should_virtualize_no_assert|].
    intros v. destruct (negb (truthy v)); apply never_raises_ret.
  - (* visit_AugAssign *)
    cbn [variables.visit_stmt]. by apply never_raises_raise.
  - (* visit_For *)
    assert (Hblock : ∀ nodes,
      Forall (fun node =>
        (∀ nid, defines nid node = true → is_Some (scopes !! nid)) →
        no_assert (visit_stmt node)) nodes →
      (∀ nid, existsb (defines nid) nodes = true → is_Some (scopes !! nid)) →
      no_assert (visit_block visit_stmt nodes)).
    { intros nodes HF Hd. apply never_raises_visit_block.
      rewrite Forall_forall in HF |- *. intros node Hnode.
      apply (HF node Hnode). intros nid' Hd'. apply Hd.
      apply existsb_exists. exists node.
      split; [by apply list_elem_of_In|done]. }
    cbn [variables.visit_stmt].
    apply never_raises_bind; [apply variables_visit_expr_no_assert|].
    intros iter'.
    apply never_raises_bind.
    { apply Hblock; [done|]. intros nid' Hd. apply Hdef. simpl.
      by rewrite Hd. }
    intros body'.
    apply never_raises_bind.
    { apply Hblock; [done|]. intros nid' Hd. apply Hdef. simpl.
      rewrite Hd. apply orb_true_r. }
    intros orelse'.
    apply never_raises_bind; [apply never_raises_lift, for_targets_no_assert|].
    intros targets.
    apply never_raises_bind; [apply never_raises_lift, target_ids_no_assert|].
    intros ids.
    apply never_raises_bind; [apply fresh_symbol_no_assert|]. intros n_target.
    apply never_raises_bind;
      [apply never_raises_lift, target_assigns_no_assert|].
    intros assigns. apply never_raises_ret.
  - cbn [variables.visit_stmt].
    apply never_raises_bind; [|intros ?; apply never_raises_ret].
    apply never_raises_generic_visit_stmt;
      [apply variables_visit_expr_no_assert|]. simpl. split.
    + rewrite Forall_forall in IHb |- *. intros node Hnode.
      apply (IHb node Hnode). intros nid' Hd'. apply Hdef. simpl.
      apply orb_true_iff. left. apply existsb_exists. exists node.
      split; [by apply list_elem_of_In|done].
    + rewrite Forall_forall in IHe |- *. intros node Hnode.
      apply (IHe node Hnode). intros nid' Hd'. apply Hdef. simpl.
      apply orb_true_iff. right. apply existsb_exists. exists node.
      split; [by apply list_elem_of_In|done].
  - cbn [variables.visit_stmt].
    apply never_raises_bind; [|intros ?; apply never_raises_ret].
    apply never_raises_generic_visit_stmt;
      [apply variables_visit_expr_no_assert|]. simpl. split.
    + rewrite Forall_forall in IHb |- *. intros node Hnode.
      apply (IHb node Hnode). intros nid' Hd'. apply Hdef. simpl.
      apply orb_true_iff. left. apply existsb_exists. exists node.
      split; [by apply list_elem_of_In|done].
    + rewrite Forall_forall in IHe |- *. intros node Hnode.
      apply (IHe node Hnode). intros nid' Hd'. apply Hdef. simpl.
      apply orb_true_iff. right. apply existsb_exists. exists node.
      split; [by apply list_elem_of_In|done].
  - cbn [variables.visit_stmt].
    apply never_raises_bind; [|intros ?; apply never_raises_ret].
    apply never_raises_generic_visit_stmt;
      [apply variables_visit_expr_no_assert|done].
  - cbn [variables.visit_stmt].
    apply never_raises_bind; [|intros ?; apply never_raises_ret].
    apply never_raises_generic_visit_stmt;
      [apply variables_visit_expr_no_assert|done].
  - cbn [variables.visit_stmt].
    apply never_raises_bind; [|intros ?; apply never_raises_ret].
    apply never_raises_generic_visit_stmt;
      [apply variables_visit_expr_no_assert|done].
  - cbn [variables.visit_stmt].
    apply never_raises_bind; [|intros ?; apply never_raises_ret].
    apply never_raises_generic_visit_stmt;
      [apply variables_visit_expr_no_assert|done].
Qed.
End variables.

(** The scope analysis gives every function definition of the tree an entry
    in [scopes], and hands the tree back; so the assertion
    [id(node) in self.scopes] of [VariableTransformer.visit_FunctionDef]
    holds at every function definition [transform] visits, and [transform]
    never raises AssertionError, whatever the tree, the overload and the
    namer. *)
Theorem transform_finds_every_scope {N : Type}
    (new_symbol : string → gset string → N → string * N)
    (tree : list stmt) (namer : N) (next_id : nat)
    (overload : VirtualizationConfig) :
  (∀ tree' sc nid, scoping.visit tree = Ok (tree', sc) →
     existsb (defines nid) tree = true →
     is_Some (scoping.scopes sc !! nid)) ∧
  variables.transform new_symbol tree namer next_id overload ≠
    Raise AssertionError.
Proof.
  split; [intros tree' sc nid; apply visit_registers|].
  unfold variables.transform.
  destruct (scoping.visit tree) as [[tree1 sc]|e] eqn:Hv; simpl.
  - pose proof (scope_analysis_facts.visit_same _ _ _ Hv) as ->.
    apply never_raises_visit_block, Forall_forall. intros node Hnode.
    apply variables_visit_stmt_no_assert. intros nid Hd.
    apply (visit_registers nid tree tree sc Hv).
    apply existsb_exists. exists node. split; [by apply list_elem_of_In|done].
  - intros [= ->]. revert Hv. unfold scoping.visit.
    apply never_raises_visit_block, Forall_forall. intros node _.
    apply scoping_visit_stmt_no_assert.
Qed.

Lemma transform_finds_every_scope_witness :
  is_Some (scoping.scopes
             (scoping.mkScopeTransformer
                [scoping.scope_global_then_def;
                 scoping.new_Scope (Some 0) (Some "g")]
                (<[1 := 1]> (<[0 := 0]> ∅)) None) !! 1).
Proof.
  apply (proj1 (transform_finds_every_scope naming.new_symbol
                  examples.global_then_def ∅ 0 examples.py_defaults_config)
           examples.global_then_def).
  - vm_compute. reflexivity.
  - reflexivity.
Defined.

End scopes_cover_facts.

Module storage_facts.
Import py_defaults py_defaults_facts.

(** *** [read] through Variables that hold Variables *)

Lemma read_rec_self_cycle h nm w :
  vars w !! h = Some (mkVariable (VVar h) nm) →
  ∀ depth, read_rec depth (VVar h) w = Raise RecursionError.
Proof.
  intros Hh. induction depth as [|depth IH]; simpl; [done|].
  rewrite Hh. simpl. exact IH.
Qed.

(** Assigning a Variable to itself makes every later [read] of it raise
    RecursionError: [read] follows [var.val] while it is a Variable, and
    here it never stops being one. *)
Theorem read_self_assigned_raises h o w :
  vars w !! h = Some o →
  ∃ w1, assign (VVar h) (VVar h) w = Ok (VVar h, w1) ∧
        read (VVar h) w1 = Raise RecursionError.
Proof.
  intros Ho. unfold assign, set_val. rewrite Ho. simpl.
  eexists. split; [reflexivity|].
  apply (read_rec_self_cycle h (name o)). simpl.
  apply list_lookup_insert_eq. by eapply lookup_lt_Some.
Qed.

Lemma read_self_assigned_raises_witness :
  ∃ w1, assign (VVar 0) (VVar 0) (snd (init "x" (mkWorld [] []))) =
          Ok (VVar 0, w1) ∧
        read (VVar 0) w1 = Raise RecursionError.
Proof.
  apply (read_self_assigned_raises 0 (mkVariable (VUndefined "x") "x")).
  reflexivity.
Defined.

(** A Variable [a] that holds another Variable [b] reads as [b] does: the
    value of [b] when it holds a plain one, and the unbound-storage error
    with the name of [b]'s Undefined, not with the name of [a], when [b]
    was never assigned. *)
Theorem read_through_variable a b na ob w :
  vars w !! a = Some (mkVariable (VVar b) na) →
  vars w !! b = Some ob →
  (∀ v, val ob = v → is_undefined v = false → (∀ r, v ≠ VVar r) →
     read (VVar a) w = Ok v) ∧
  (∀ n, val ob = VUndefined n →
     read (VVar a) w =
       Raise (PyctUnboundLocalError
                ("local variable '" +:+ n +:+ "' referenced before assignment"))).
Proof.
  intros Ha Hb. split.
  - intros v Hv Hu Hr. rewrite read_unfold, Ha. simpl. rewrite Hb, Hv.
    destruct v; try done. by destruct (Hr r).
  - intros n Hn. rewrite read_unfold, Ha. simpl. by rewrite Hb, Hn.
Qed.

Lemma read_through_variable_witness :
  read (VVar 1)
    (mkWorld [mkVariable (VInt 7) "x"; mkVariable (VVar 0) "y"] []) =
    Ok (VInt 7).
Proof.
  apply (read_through_variable 1 0 "y" (mkVariable (VInt 7) "x")
           (mkWorld [mkVariable (VInt 7) "x"; mkVariable (VVar 0) "y"] []));
    try reflexivity; discriminate.
Defined.

(** *** What [for_stmt] leaves in its target *)

Lemma for_loop_last target nm items body : ∀ w w',
  vars w !! target = Some (mkVariable (val_at w target) nm) →
  (∀ w1 w2 v, body w1 = Ok (v, w2) → keeps target w1 w2) →
  for_loop (VVar target) items body w = Ok w' →
  vars w' !! target =
    Some (mkVariable (List.last items (val_at w target)) nm).
Proof.
  induction items as [|item items IH]; intros w w' Hw Hbody; cbn [for_loop].
  - by intros [= <-].
  - unfold set_val at 1. rewrite Hw. cbn [bind name].
    set (w1 := with_vars w (<[target:=mkVariable item nm]> (vars w))).
    destruct (body w1) as [[v w2]|] eqn:Hb; cbn [bind]; [|done].
    intros Hloop.
    assert (Hlt : target < length (vars w)) by by eapply lookup_lt_Some.
    assert (H1 : vars w1 !! target = Some (mkVariable item nm)).
    { unfold w1. simpl. by apply list_lookup_insert_eq. }
    assert (H2 : vars w2 !! target = Some (mkVariable item nm)).
    { destruct (Hbody _ _ _ Hb) as [_ ->]; [|done].
      unfold w1. simpl. by rewrite length_insert. }
    assert (Hv2 : val_at w2 target = item).
    { unfold val_at. by rewrite H2. }
    rewrite <- Hv2 in H2.
    rewrite (IH w2 w' H2 Hbody Hloop). f_equal. f_equal.
    rewrite Hv2. destruct items as [|i2 items]; [done|].
    clear. revert i2. induction items as [|i3 items IH]; intros i2; [done|].
    apply (IH i3).
Qed.

(** After [for_stmt(target, iter_, body, orelse, _)] has returned, with
    [body] and [orelse] leaving the target Variable alone, the call has
    returned None and the target holds the last item of [iter_]; over an
    empty sequence it holds what it held before. *)
Theorem for_stmt_leaves_last_item target iter_ items body orelse lw w v w' o :
  vars w !! target = Some o →
  seq_items iter_ = Ok items →
  (∀ w1 w2 r, body w1 = Ok (r, w2) → keeps target w1 w2) →
  (∀ w1 w2 r, orelse w1 = Ok (r, w2) → keeps target w1 w2) →
  for_stmt (VVar target) iter_ body orelse lw w = Ok (v, w') →
  v = VNone ∧ val_at w' target = List.last items (val_at w target).
Proof.
  intros Ho Hit Hb He. unfold for_stmt. rewrite Hit. cbn [bind].
  destruct (for_loop _ _ _ w) as [w1|] eqn:Hloop; cbn [bind]; [|done].
  destruct (orelse w1) as [[r w2]|] eqn:Hor; simpl; [|done].
  intros [= <- <-]. split; [done|].
  assert (Hw : vars w !! target =
               Some (mkVariable (val_at w target) (name o))).
  { unfold val_at. rewrite Ho. by destruct o. }
  pose proof (for_loop_last target (name o) items _ w w1 Hw Hb Hloop) as H1.
  destruct (He _ _ _ Hor) as [_ H2].
  { by eapply lookup_lt_Some. }
  unfold val_at at 1. by rewrite H2, H1.
Qed.

Lemma for_stmt_leaves_last_item_witness :
  ∃ w', for_stmt (VVar 0) (VStr "abc") (const_thunk VNone) (const_thunk VNone)
          VNone (snd (init "c" (mkWorld [] []))) = Ok (VNone, w') ∧
        val_at w' 0 = VStr "c".
Proof.
  destruct (for_stmt (VVar 0) (VStr "abc") (const_thunk VNone)
              (const_thunk VNone) VNone (snd (init "c" (mkWorld [] []))))
    as [[v w']|] eqn:H; [|vm_compute in H; discriminate].
  destruct (for_stmt_leaves_last_item 0 (VStr "abc")
              [VStr "a"; VStr "b"; VStr "c"] (const_thunk VNone)
              (const_thunk VNone) VNone (snd (init "c" (mkWorld [] []))) v w'
              (mkVariable (VUndefined "c") "c") eq_refl eq_refl)
    as [-> Hlast].
  - intros w1 w2 r [= _ <-]. apply keeps_refl.
  - intros w1 w2 r [= _ <-]. apply keeps_refl.
  - exact H.
  - exists w'. split; [reflexivity|exact Hlast].
Defined.

End storage_facts.

Module while_facts.
Import py_defaults staging.

Lemma while_loop_unfold fuel cond body w :
  while_loop (S fuel) cond body w =
    match cond w with
    | Raise e => Some (Raise e)
    | Ok (c, w1) =>
      if truthy c
      then
        match body w1 with
        | Raise e => Some (Raise e)
        | Ok (_, w2) => while_loop fuel cond body w2
        end
      else Some (Ok w1)
    end.
Proof. reflexivity. Qed.

(** [run_python_while] with the result of a first call of [cond] continues
    the loop [while_stmt] would have run from before that call: both end in
    the same world or raise the same exception, or both are still running,
    [while_stmt] being allowed one more call of [cond].  With a true first
    result the value returned is that of [while_stmt], None; with a false
    one it is what [orelse] returns. *)
Theorem run_python_while_continues fuel cond body orelse c w w1 :
  cond w = Ok (c, w1) →
  world_of (run_python_while fuel cond body orelse c w1) =
    world_of (while_stmt (S fuel) cond body orelse VNone w) ∧
  (truthy c = true →
   run_python_while fuel cond body orelse c w1 =
     while_stmt (S fuel) cond body orelse VNone w) ∧
  (truthy c = false →
   run_python_while fuel cond body orelse c w1 = Some (orelse w1)).
Proof.
  intros Hc.
  assert (Hstep : while_stmt (S fuel) cond body orelse VNone w =
    if truthy c
    then
      match body w1 with
      | Raise e => Some (Raise e)
      | Ok (_, w2) => while_stmt fuel cond body orelse VNone w2
      end
    else Some (let* (_, w2) := orelse w1 in Ok (VNone, w2))).
  { unfold while_stmt. rewrite while_loop_unfold, Hc.
    destruct (truthy c); [|done]. by destruct (body w1) as [[v w2]|e]. }
  rewrite Hstep. unfold run_python_while.
  destruct (truthy c); repeat split; try done; try discriminate.
  simpl. by destruct (orelse w1) as [[v w2]|e].
Qed.

Lemma run_python_while_continues_witness :
  run_python_while 5 (const_thunk (VBool false)) (logged_thunk "body" VNone)
    (logged_thunk "orelse" (VInt 1)) (VBool false) (mkWorld [] []) =
  Some (Ok (VInt 1, mkWorld [] ["orelse"])).
Proof.
  apply (run_python_while_continues 5 (const_thunk (VBool false))
           (logged_thunk "body" VNone) (logged_thunk "orelse" (VInt 1))
           (VBool false) (mkWorld [] []) (mkWorld [] []) eq_refl).
  reflexivity.
Defined.

End while_facts.

Module duality_facts.
Import py_defaults.

Lemma truthy_not_ v : truthy (not_ v) = negb (truthy v).
Proof. reflexivity. Qed.

Lemma and_loop_dual operands : ∀ w,
  and_loop operands w =
    let* (v, w1) := or_loop (negate_thunk <$> operands) w in Ok (not_ v, w1).
Proof.
  induction operands as [|op operands IH]; intros w; [done|].
  rewrite fmap_cons. cbn [and_loop or_loop]. unfold negate_thunk at 1.
  destruct (op w) as [[v w1]|e]; cbn [bind]; [|done].
  rewrite truthy_not_. destruct (truthy v); simpl; [apply IH|done].
Qed.

(** De Morgan for the default overload: [and_(x, operands)] is the negation
    of [or_(not_(x), ...)] over the negated operands.  The two calls invoke
    the same thunks in the same order, end in the same world, and raise the
    same exception when an operand raises. *)
Theorem and_is_negated_or x operands w :
  and_ x operands w =
    let* (v, w1) := or_ (not_ x) (negate_thunk <$> operands) w in
    Ok (not_ v, w1).
Proof.
  unfold and_, or_. rewrite truthy_not_, negb_involutive.
  destruct (truthy x); [apply and_loop_dual|done].
Qed.

End duality_facts.

Module call_overload_facts.
Import py_defaults staging.

(** After [wrapper(f)] for the closure [replaces(original)] returned, a call
    of [original] through the overload runs [f] with the arguments given,
    and a call of any function with another identity goes where it went
    before. *)
Theorem replaced_call_runs_replacement self original f args kwargs id :
  replaces self original = Ok id →
  let self' := snd (wrapper id (Some f) self) in
  fst (wrapper id (Some f) self) = Some f ∧
  __call__ self' original args kwargs = func_call f args kwargs ∧
  (∀ g, func_id g ≠ func_id original →
     __call__ self' g args kwargs = __call__ self g args kwargs).
Proof.
  intros Hr. assert (id = func_id original) as ->.
  { unfold replaces in Hr.
    destruct (_registry self !! func_id original) as [[?|]|]; congruence. }
  simpl. split; [done|]. unfold __call__. simpl. split.
  - by rewrite lookup_insert_eq.
  - intros g Hne. by rewrite lookup_insert_ne.
Qed.

Lemma replaced_call_runs_replacement_witness :
  __call__
    (snd (wrapper 1 (Some (mkCallable 2 "bar" (fun _ _ => const_thunk (VInt 2))))
            (new_RewritingCallOverload call)))
    (mkCallable 1 "foo" (fun _ _ => const_thunk (VInt 1))) [] [] =
  const_thunk (VInt 2).
Proof.
  apply (replaced_call_runs_replacement (new_RewritingCallOverload call)
           (mkCallable 1 "foo" (fun _ _ => const_thunk (VInt 1)))
           (mkCallable 2 "bar" (fun _ _ => const_thunk (VInt 2))) [] [] 1).
  reflexivity.
Defined.

(** [replaces] refuses a function that already has a replacement, with a
    ValueError naming both; but the test is made when [replaces] is called,
    not when its closure registers: of two closures obtained for the same
    function before either was used, both register, and the later
    registration is the one that stays. *)
Theorem replaces_checks_when_called self original f1 f2 id1 id2 :
  replaces self original = Ok id1 →
  replaces self original = Ok id2 →
  let self1 := snd (wrapper id1 (Some f1) self) in
  let self2 := snd (wrapper id2 (Some f2) self1) in
  replaces self1 original =
    Raise (ValueError (func_repr original +:+ " already replaced by "
                       +:+ func_repr f1)) ∧
  (∀ args kwargs,
     __call__ self2 original args kwargs = func_call f2 args kwargs).
Proof.
  intros H1 H2.
  assert (id1 = func_id original) as ->.
  { unfold replaces in H1.
    destruct (_registry self !! func_id original) as [[?|]|]; congruence. }
  assert (id2 = func_id original) as ->.
  { unfold replaces in H2.
    destruct (_registry self !! func_id original) as [[?|]|]; congruence. }
  simpl. split.
  - unfold replaces. simpl. by rewrite lookup_insert_eq.
  - intros args kwargs. unfold __call__. simpl. by rewrite lookup_insert_eq.
Qed.

Lemma replaces_checks_when_called_witness :
  ∃ msg,
    replaces
      (snd (wrapper 1 (Some (mkCallable 2 "bar" (fun _ _ => const_thunk VNone)))
              (new_RewritingCallOverload call)))
      (mkCallable 1 "foo" (fun _ _ => const_thunk VNone)) =
    Raise (ValueError msg).
Proof.
  eexists.
  apply (replaces_checks_when_called (new_RewritingCallOverload call)
           (mkCallable 1 "foo" (fun _ _ => const_thunk VNone))
           (mkCallable 2 "bar" (fun _ _ => const_thunk VNone))
           (mkCallable 3 "baz" (fun _ _ => const_thunk VNone)) 1 1);
    reflexivity.
Defined.

End call_overload_facts.

Module isolation_facts.
Import py_defaults staging.

Lemma get_vals_not_variable rs obj rest w :
  (∀ r, r ∈ rs → r < length (vars w)) →
  (∀ r, obj ≠ VVar r) →
  ∃ msg, get_vals ((VVar <$> rs) ++ obj :: rest) w =
           Raise (AttributeError msg).
Proof.
  intros Hvalid Hobj. induction rs as [|r rs IH].
  - simpl. destruct obj; try (by eexists). by destruct (Hobj r).
  - destruct (lookup_lt_is_Some_2 (vars w) r) as [o Ho].
    { apply Hvalid. left. }
    destruct IH as [msg IH]; [intros r' Hr'; apply Hvalid; by right|].
    exists msg.
    rewrite fmap_cons. cbn [app get_vals get_val]. rewrite Ho. cbn [bind].
    by rewrite IH.
Qed.



End isolation_facts.

Module variables_pass_facts.
Import gast transformer transformer_facts invariant_facts variables.

Section with_namer.
Context {N : Type} (new_symbol : string → gset string → N → string * N).
Context (overload : VirtualizationConfig).
Context (scopes : gmap nat ref) (scope_objs : list scoping.Scope).

Local Abbreviation visit_stmt :=
  (visit_stmt new_symbol overload scopes scope_objs).
Local Abbreviation visit_expr := (@visit_expr N overload scope_objs).
Local Abbreviation VT := (@VariableTransformer N).

(** Without a [read] attribute on the overload module the Variables pass
    leaves every expression as it is, whatever the scopes say, and does not
    touch its own state. *)
Theorem expressions_unchanged_without_read e :
  hasattr overload "read" = false →
  ∀ st : VT, visit_expr e st = Ok (e, st).
Proof.
  intros Hread. induction e as [e Hch] using expr_children_ind.
  destruct e; try (by apply (generic_visit_expr_id visit_expr)).
  intros st. simpl. unfold visit_Name. by rewrite Hread.
Qed.

(** *** The head of a rewritten function *)

Lemma fresh_symbols_spec reserved (args : list string) : ∀ (st : VT) syms st',
  mapM (fun arg => fresh_symbol new_symbol arg reserved) args st =
    Ok (syms, st') →
  length syms = length args ∧ scope st' = scope st.
Proof.
  induction args as [|arg args IH]; intros st syms st' H; simpl in H.
  - apply ret_Ok in H as [-> ->]. done.
  - apply mbind_Ok in H as (sym & st1 & Hsym & H).
    apply mbind_Ok in H as (syms' & st2 & Hsyms & H).
    apply ret_Ok in H as [-> ->].
    destruct (IH _ _ _ Hsyms) as [Hlen Hsc]. simpl. split; [by rewrite Hlen|].
    rewrite Hsc. unfold fresh_symbol in Hsym.
    destruct (new_symbol arg reserved (namer st)). by injection Hsym as _ <-.
Qed.


(** *** [visit_Assign] *)

(** What [visit_Assign] does once the value is rewritten: it looks at the
    first target only.  Without targets it raises IndexError; a first target
    that is no name raises AttributeError; when the first target's name is
    to be virtualized the statement becomes the single call
    [overload.assign(name, value)], whatever further targets there are and
    whether or not the module has an [assign] attribute; otherwise the
    statement stays, with all its targets. *)
Theorem visit_Assign_first_target targets value (st st1 : VT) value' :
  visit_expr value st = Ok (value', st1) →
  match targets with
  | [] =>
    visit_stmt (Assign targets value) st =
      Raise (IndexError "list index out of range")
  | Name lhs _ :: _ =>
    match should_virtualize scope_objs lhs st1 with
    | Ok (v, st2) =>
      visit_stmt (Assign targets value) st =
        Ok (if truthy v
            then [Expr (Call (Attribute (Name (symbol_name overload) Load)
                                "assign" Load)
                          [Name lhs Load; value'] [])]
            else [Assign targets value'], st2)
    | Raise e => visit_stmt (Assign targets value) st = Raise e
    end
  | _ :: _ =>
    ∃ msg, visit_stmt (Assign targets value) st = Raise (AttributeError msg)
  end.
Proof.
  intros Hv. cbn [variables.visit_stmt].
  rewrite (mbind_Ok_intro _ _ _ _ _ Hv).
  destruct targets as [|target rest]; [done|].
  destruct target; try (by eexists).
  cbn [first_target_id get_id]. rewrite mbind_lift_Ok.
  unfold mbind.
  destruct (should_virtualize scope_objs id st1) as [[v st2]|e]; [|done].
  by destruct (truthy v).
Qed.

(** *** A for-loop without targets *)

(** A for-loop whose target is an empty tuple or list passes the check of
    the target's type, and [visit_For] then raises IndexError at
    [targets[0]], once iterable, body and orelse are rewritten. *)
Theorem visit_For_empty_target target iter body orelse anno
    (st st1 st2 st3 : VT) iter' body' orelse' :
  for_targets target = Ok [] →
  visit_expr iter st = Ok (iter', st1) →
  visit_block visit_stmt body st1 = Ok (body', st2) →
  visit_block visit_stmt orelse st2 = Ok (orelse', st3) →
  name_or_names target = true ∧
  visit_stmt (For target iter body orelse anno) st =
    Raise (IndexError "list index out of range").
Proof.
  intros Ht Hi Hb He. split.
  { destruct target; try done; simpl in Ht; by injection Ht as ->. }
  cbn [variables.visit_stmt].
  rewrite (mbind_Ok_intro _ _ _ _ _ Hi).
  rewrite (mbind_Ok_intro _ _ _ _ _ Hb).
  rewrite (mbind_Ok_intro _ _ _ _ _ He).
  rewrite Ht, mbind_lift_Ok. cbn [target_ids]. rewrite mbind_lift_Ok.
  unfold mbind at 1. unfold fresh_symbol.
  destruct (new_symbol "n_target" (list_to_set []) (namer st3)). reflexivity.
Qed.
End with_namer.

Lemma visit_Assign_first_target_witness :
  variables.visit_stmt naming.new_symbol examples.storage_only_config
    (<[0 := 0]> ∅) [scoping.add_local "a" (scoping.new_Scope None (Some "f"))]
    (Assign [Name "a" Store; Name "b" Store] (Num 1))
    (mkVariableTransformer ∅ 0 (Some 0)) =
  Ok ([Expr (Call (Attribute (Name "overload" Load) "assign" Load)
               [Name "a" Load; Num 1] [])],
      mkVariableTransformer ∅ 0 (Some 0)).
Proof.
  apply (visit_Assign_first_target naming.new_symbol
           examples.storage_only_config (<[0 := 0]> ∅)
           [scoping.add_local "a" (scoping.new_Scope None (Some "f"))]
           [Name "a" Store; Name "b" Store] (Num 1)
           (mkVariableTransformer ∅ 0 (Some 0))
           (mkVariableTransformer ∅ 0 (Some 0)) (Num 1)).
  reflexivity.
Defined.

Lemma expressions_unchanged_without_read_witness :
  variables.visit_expr (mkConfig (list_to_set ["init"; "assign"]) "overload")
    [scoping.add_local "a" (scoping.new_Scope None (Some "f"))]
    (BinOp (Name "a" Load) Add (Num 1))
    (mkVariableTransformer (∅ : gset string) 0 (Some 0)) =
  Ok (BinOp (Name "a" Load) Add (Num 1),
      mkVariableTransformer (∅ : gset string) 0 (Some 0)).
Proof.
  apply (expressions_unchanged_without_read
           (mkConfig (list_to_set ["init"; "assign"]) "overload")).
  reflexivity.
Defined.


Lemma visit_For_empty_target_witness :
  variables.visit_stmt naming.new_symbol examples.storage_only_config
    (<[0 := 0]> ∅) [scoping.new_Scope None (Some "f")]
    (For (List [] Store) (Num 1) [Pass] [] no_anno)
    (mkVariableTransformer ∅ 0 (Some 0)) =
  Raise (IndexError "list index out of range").
Proof.
  apply (visit_For_empty_target naming.new_symbol examples.storage_only_config
           (<[0 := 0]> ∅) [scoping.new_Scope None (Some "f")]
           (List [] Store) (Num 1) [Pass] [] no_anno
           (mkVariableTransformer ∅ 0 (Some 0))
           (mkVariableTransformer ∅ 0 (Some 0))
           (mkVariableTransformer ∅ 0 (Some 0))
           (mkVariableTransformer ∅ 0 (Some 0)) (Num 1) [Pass] []);
    reflexivity.
Defined.

End variables_pass_facts.

Module logical_pass_facts.
Import gast transformer transformer_facts invariant_facts logical_ops.

Section with_overload.
Context (overload : VirtualizationConfig).

Local Abbreviation visit_expr := (visit_expr overload).
Local Abbreviation visit_stmt := (visit_stmt overload).
Local Abbreviation has_hook := (has_hook overload).
Local Abbreviation clean := (fun e => expr_exists has_hook e = false).

Lemma existsb_clean (l : list expr) :
  Forall clean l → existsb (expr_exists has_hook) l = false.
Proof.
  induction 1 as [|x l Hx _ IH]; simpl; [done|]. by rewrite Hx, IH.
Qed.

Lemma clean_existsb (l : list expr) :
  existsb (expr_exists has_hook) l = false → Forall clean l.
Proof.
  induction l as [|x l IH]; simpl; [done|].
  intros [Hx Hl]%orb_false_iff. constructor; [done|by apply IH].
Qed.

Lemma existsb_clean_kw (l : list (string * expr)) :
  Forall (fun kw => clean (snd kw)) l →
  existsb (fun kw => expr_exists has_hook (snd kw)) l = false.
Proof.
  induction 1 as [|x l Hx _ IH]; simpl; [done|]. by rewrite Hx, IH.
Qed.

Lemma clean_existsb_kw (l : list (string * expr)) :
  existsb (fun kw => expr_exists has_hook (snd kw)) l = false →
  Forall (fun kw => clean (snd kw)) l.
Proof.
  induction l as [|x l IH]; simpl; [done|].
  intros [Hx Hl]%orb_false_iff. constructor; [done|by apply IH].
Qed.

Lemma yields_mapM_kw (visit : expr → M unit expr) (l : list (string * expr)) :
  Forall (fun kw => yields clean (visit (snd kw))) l →
  yields (Forall (fun kw => clean (snd kw)))
    (mapM (fun kw => do v <- visit (snd kw); ret (fst kw, v)) l).
Proof.
  intros H. apply yields_mapM. eapply Forall_impl; [exact H|].
  intros [k x] Hx st out st' Ho. simpl in *. inv_M. simpl. by eapply Hx.
Qed.

Lemma expr_exists_unfold p e :
  expr_exists p e =
    p e ||
    match e with
    | Name _ _ | Num _ | Str _ | NameConstant _ => false
    | Attribute value _ _ | Starred value _ | UnaryOp _ value =>
      expr_exists p value
    | Subscript a b _ | BinOp a _ b => expr_exists p a || expr_exists p b
    | Tuple elts _ | List elts _ | BoolOp _ elts => existsb (expr_exists p) elts
    | Compare lhs _ comparators =>
      expr_exists p lhs || existsb (expr_exists p) comparators
    | Call func args keywords =>
      expr_exists p func || existsb (expr_exists p) args ||
      existsb (fun kw => expr_exists p (snd kw)) keywords
    | Lambda args body => existsb (expr_exists p) args || expr_exists p body
    end.
Proof. by destruct e. Qed.

(** What [generic_visit] returns is clean when the node itself is not
    replaced and the visits of its children return clean nodes. *)
Lemma generic_visit_expr_clean e :
  has_hook e = false →
  children_all (fun c => yields clean (visit_expr c)) e →
  yields clean (generic_visit_expr visit_expr e).
Proof.
  intros Hh Hch st out st' H.
  destruct e; simpl in Hch, H; inv_M;
    repeat match goal with H : _ ∧ _ |- _ => destruct H end;
    repeat match goal with
    | Hy : yields clean (visit_expr ?c), E : visit_expr ?c _ = Ok _ |- _ =>
      apply Hy in E
    | Hy : Forall (fun c => yields clean (visit_expr c)) ?l,
      E : mapM visit_expr ?l _ = Ok _ |- _ =>
      apply (yields_mapM clean visit_expr l Hy) in E; apply existsb_clean in E
    | Hy : Forall (fun kw => yields clean (visit_expr (snd kw))) ?l,
      E : mapM _ ?l _ = Ok _ |- _ =>
      apply (yields_mapM_kw visit_expr l Hy) in E; apply existsb_clean_kw in E
    end;
    rewrite expr_exists_unfold; cbn [has_hook logical_ops.has_hook] in Hh |- *;
    rewrite ?Hh;
    repeat match goal with E : _ = false |- _ => rewrite E; clear E end;
    try done.
Qed.

Lemma lambdas_clean (l : list expr) :
  Forall clean l → Forall clean (_make_lambda_nodes l).
Proof.
  induction 1 as [|x l Hx _ IH]; [constructor|].
  unfold _make_lambda_nodes. rewrite fmap_cons. constructor; [|exact IH].
  rewrite expr_exists_unfold. simpl. exact Hx.
Qed.

Lemma visit_expr_clean e : yields clean (visit_expr e).
Proof.
  induction e as [e Hch] using expr_children_ind.
  destruct e as [| | | | | | | | |op values| |op operand| | | ];
    try (by apply generic_visit_expr_clean).
  - (* visit_BoolOp *)
    simpl in Hch. cbn [logical_ops.visit_expr].
    destruct (hasattr overload (match op with And => "and_" | Or => "or_" end))
      eqn:Hhook.
    + intros st out st' H. inv_M.
      match goal with
      | E : mapM _ values _ = Ok (?vs, _) |- _ =>
        apply (yields_mapM clean visit_expr values Hch) in E;
          destruct vs as [|x' rest']; [done|]
      end.
      match goal with
      | E : lift _ _ = Ok _ |- _ => simpl in E; injection E as <- _
      end.
      match goal with
      | E : Forall clean (_ :: _) |- _ =>
        apply Forall_cons in E as [Hx Hrest]
      end.
      unfold overload_call. rewrite expr_exists_unfold. simpl.
      rewrite Hx. simpl. rewrite !orb_false_r.
      by apply existsb_clean, lambdas_clean.
    + apply generic_visit_expr_clean; [|done]. by destruct op.
  - (* visit_UnaryOp *)
    simpl in Hch. destruct op.
    + cbn [logical_ops.visit_expr].
      destruct (hasattr overload "not_") eqn:Hhook.
      * intros st out st' H. inv_M.
        match goal with
        | E : visit_expr operand _ = Ok _ |- _ => apply Hch in E
        end.
        unfold overload_call. rewrite expr_exists_unfold. simpl.
        match goal with E : _ = false |- _ => by rewrite E end.
      * by apply generic_visit_expr_clean.
    + by apply generic_visit_expr_clean.
Qed.

(** *** Expressions without anything to replace *)

Lemma visit_expr_fixed e :
  clean e → ∀ st, visit_expr e st = Ok (e, st).
Proof.
  induction e as [e Hch] using expr_children_ind. intros Hc.
  rewrite expr_exists_unfold in Hc. apply orb_false_iff in Hc as [Hh Hc].
  assert (Hgen : ∀ st, generic_visit_expr visit_expr e st = Ok (e, st)).
  { apply generic_visit_expr_id.
    destruct e; simpl in Hch, Hc |- *; try done;
      repeat match goal with
      | H : _ || _ = false |- _ => apply orb_false_iff in H as [? ?]
      | H : _ ∧ _ |- _ => destruct H
      end;
      repeat split; auto.
    all: try (match goal with
      | HF : Forall _ ?l, E : existsb (expr_exists has_hook) ?l = false |- Forall _ ?l =>
        apply clean_existsb in E; rewrite Forall_forall in HF, E |- *;
          intros c Hin; by apply (HF c Hin), E
      end).
    match goal with
    | HF : Forall _ ?l, E : existsb _ ?l = false |- Forall _ ?l =>
      apply clean_existsb_kw in E; rewrite Forall_forall in HF, E |- *;
        intros c Hin; by apply (HF c Hin), E
    end. }
  destruct e as [| | | | | | | | |op values| |op operand| | | ];
    try exact Hgen.
  - cbn [logical_ops.visit_expr]. cbn [has_hook logical_ops.has_hook] in Hh.
    destruct op; by rewrite Hh.
  - destruct op; [|exact Hgen].
    cbn [logical_ops.visit_expr]. cbn [has_hook logical_ops.has_hook] in Hh.
    by rewrite Hh.
Qed.

(** *** Statements *)

Local Abbreviation clean_stmt :=
  (fun node => stmt_exists_expr has_hook node = false).

Lemma existsb_clean_stmt (l : list stmt) :
  Forall clean_stmt l ↔ existsb (stmt_exists_expr has_hook) l = false.
Proof.
  induction l as [|x l IH]; simpl; [done|].
  rewrite Forall_cons, orb_false_iff, IH. done.
Qed.

Lemma visit_stmt_clean node : yields (Forall clean_stmt) (visit_stmt node).
Proof.
  induction node as
    [nid name args body IH|value|targets value|target op value
    |target iter body orelse anno IHb IHe
    |test body orelse anno IHb IHe|test body orelse anno IHb IHe
    |value| |names|names]
    using stmt_nested_ind; intros st out st' H;
    cbn [logical_ops.visit_stmt] in H;
    try destruct value as [value|];
    cbn [generic_visit_stmt] in H; inv_M;
    repeat match goal with
    | E : logical_ops.visit_expr overload ?c _ = Ok _ |- _ =>
      apply visit_expr_clean in E
    | E : mapM (logical_ops.visit_expr overload) ?l _ = Ok _ |- _ =>
      apply (yields_mapM clean visit_expr l) in E;
        [apply existsb_clean in E
        |apply Forall_forall; intros; apply visit_expr_clean]
    | HF : Forall _ ?l,
      E : visit_block (logical_ops.visit_stmt overload) ?l _ = Ok _ |- _ =>
      apply (yields_visit_block clean_stmt visit_stmt l HF) in E;
        apply existsb_clean_stmt in E
    end;
    constructor; try constructor; simpl;
    repeat match goal with E : _ = false |- _ => rewrite E; clear E end;
    done.
Qed.

Lemma mapM_fixed (l : list expr) :
  Forall clean l → ∀ st, mapM visit_expr l st = Ok (l, st).
Proof.
  intros H. apply mapM_id. eapply Forall_impl; [exact H|].
  intros e He. by apply visit_expr_fixed.
Qed.

Lemma logical_visit_stmt_fixed node :
  clean_stmt node → ∀ st, visit_stmt node st = Ok ([node], st).
Proof.
  induction node as
    [nid name args body IH|value|targets value|target op value
    |target iter body orelse anno IHb IHe
    |test body orelse anno IHb IHe|test body orelse anno IHb IHe
    |value| |names|names]
    using stmt_nested_ind; intros Hc st;
    cbn [logical_ops.visit_stmt];
    try destruct value as [value|];
    cbn [generic_visit_stmt]; simpl in Hc;
    repeat match goal with
    | H : _ || _ = false |- _ => apply orb_false_iff in H as [? ?]
    end;
    unfold mbind;
    repeat match goal with
    | E : expr_exists has_hook ?e = false
      |- context [logical_ops.visit_expr overload ?e ?st'] =>
      rewrite (visit_expr_fixed e E st')
    | E : existsb (expr_exists has_hook) ?l = false
      |- context [mapM (logical_ops.visit_expr overload) ?l ?st'] =>
      rewrite (mapM_fixed l (clean_existsb l E) st')
    | HF : Forall _ ?l, E : existsb (stmt_exists_expr has_hook) ?l = false
      |- context [visit_block (logical_ops.visit_stmt overload) ?l ?st'] =>
      rewrite (visit_block_id visit_stmt l); [|
        apply existsb_clean_stmt in E; rewrite Forall_forall in HF, E |- *;
        intros c Hin; by apply (HF c Hin), E]
    end; done.
Qed.


(** A tree that holds nothing to replace is returned as it is, so the
    Logical-Ops pass applied to its own result changes nothing. *)
Theorem logical_pass_idempotent :
  (∀ e e', transform_expr overload e = Ok e' →
     transform_expr overload e' = Ok e') ∧
  (∀ node st out st', visit_stmt node st = Ok (out, st') →
     visit_block visit_stmt out st' = Ok (out, st')).
Proof.
  split.
  - intros e e' H. unfold transform_expr in H.
    destruct (visit_expr e tt) as [[out st']|] eqn:Hv; [|done].
    injection H as <-. apply visit_expr_clean in Hv.
    unfold transform_expr. by rewrite (visit_expr_fixed out Hv tt).
  - intros node st out st' H. apply visit_stmt_clean in H.
    apply visit_block_id. eapply Forall_impl; [exact H|].
    intros c Hc. by apply logical_visit_stmt_fixed.
Qed.
End with_overload.


Lemma logical_pass_idempotent_witness :
  transform_expr examples.py_defaults_config
    (Call (Attribute (Name "overload" Load) "and_" Load)
       [Name "x" Load;
        Tuple [Lambda [] (Name "y" Load);
               Lambda [] (Call (Name "foo" Load) [] [])] Load] []) =
  Ok (Call (Attribute (Name "overload" Load) "and_" Load)
        [Name "x" Load;
         Tuple [Lambda [] (Name "y" Load);
                Lambda [] (Call (Name "foo" Load) [] [])] Load] []).
Proof.
  apply (proj1 (logical_pass_idempotent examples.py_defaults_config)
           examples.and_chain).
  reflexivity.
Defined.

End logical_pass_facts.

Module control_flow_pass_facts.
Import gast transformer transformer_facts invariant_facts control_flow
  control_flow_facts.

Section with_namer.
Context {N : Type} (new_symbol : string → gset string → N → string * N).
Context (overload : VirtualizationConfig).

Local Abbreviation visit_stmt := (visit_stmt new_symbol overload).
Local Abbreviation visit_expr := (@visit_expr N).
Local Abbreviation CFT := (@ControlFlowTransformer N).
Local Abbreviation has_hook := (has_hook overload).

(** Nothing in the statement is to be replaced, and the statement carries
    its annotations. *)
Local Abbreviation settled :=
  (fun node => stmt_exists has_hook node = false ∧ annotated node = true).

Lemma settled_block (l : list stmt) :
  Forall settled l ↔
  existsb (stmt_exists has_hook) l = false ∧ forallb annotated l = true.
Proof.
  induction l as [|x l IH]; simpl; [done|].
  rewrite Forall_cons, orb_false_iff, andb_true_iff, IH. tauto.
Qed.

Lemma settled_orelse_or_pass (l : list stmt) :
  Forall settled l → Forall settled (orelse_or_pass l).
Proof. destruct l; [|done]. intros _. by repeat constructor. Qed.

Lemma target_inits_settled targets inits :
  target_inits overload targets = Ok inits → Forall settled inits.
Proof.
  revert inits. induction targets as [|t targets IH]; intros inits; simpl.
  - intros [= <-]. constructor.
  - unfold _make_target_init. destruct (get_id t) as [id|]; simpl; [|done].
    destruct (target_inits overload targets) as [rest|]; simpl; [|done].
    intros [= <-]. constructor; [done|]. by apply IH.
Qed.

Lemma modified_in_cond_has_anno anno (st : CFT) lw st' :
  modified_in_cond anno st = Ok (lw, st') → has_anno anno = true.
Proof.
  unfold modified_in_cond, has_anno, getanno.
  destruct (BODY_SCOPE anno), (ORELSE_SCOPE anno); done.
Qed.

Lemma rewrite_cond_settled kind test body orelse lw (st : CFT) out st' :
  Forall settled body → Forall settled orelse →
  rewrite_cond new_symbol overload kind test body orelse lw st = Ok (out, st') →
  Forall settled out.
Proof.
  intros Hb He H. unfold rewrite_cond in H. inv_M.
  apply settled_orelse_or_pass in He.
  apply settled_block in Hb as [Hb1 Hb2]. apply settled_block in He as [He1 He2].
  unfold cond_template. repeat constructor; simpl; by rewrite ?Hb1, ?He1.
Qed.

Lemma visit_stmt_settled node : yields (Forall settled) (visit_stmt node).
Proof.
  induction node as
    [nid name args body IH|value|targets value|target op value
    |target iter body orelse anno IHb IHe
    |test body orelse anno IHb IHe|test body orelse anno IHb IHe
    |value| |names|names]
    using stmt_nested_ind; intros st out st' H;
    cbn [control_flow.visit_stmt] in H.
  - cbn [generic_visit_stmt] in H. inv_M.
    match goal with
    | E : visit_block _ body _ = Ok _ |- _ =>
      apply (yields_visit_block settled visit_stmt body IH) in E;
        apply settled_block in E as [E1 E2]
    end.
    repeat constructor; simpl; by rewrite ?E1.
  - destruct value; cbn [generic_visit_stmt] in H; inv_M; by repeat constructor.
  - cbn [generic_visit_stmt] in H; inv_M; by repeat constructor.
  - cbn [generic_visit_stmt] in H; inv_M; by repeat constructor.
  - (* visit_For *)
    apply mbind_Ok in H as (lw & s1 & H1 & H).
    apply mbind_Ok in H as (target' & s2 & H2 & H).
    apply mbind_Ok in H as (iter' & s3 & H3 & H).
    apply mbind_Ok in H as (body' & s4 & H4 & H).
    apply mbind_Ok in H as (orelse' & s5 & H5 & H).
    apply modified_in_cond_has_anno in H1.
    apply (yields_visit_block settled visit_stmt body IHb) in H4.
    apply (yields_visit_block settled visit_stmt orelse IHe) in H5.
    destruct (hasattr overload "for_stmt") eqn:Hhook; cbn [negb] in H.
    + inv_M.
      match goal with
      | E : lift (target_inits _ _) _ = Ok (?inits, _) |- _ =>
        assert (Forall settled inits) as Hin
          by (unfold lift in E;
              destruct (target_inits overload _) eqn:Hti; [|done];
              injection E as <- _; by eapply target_inits_settled)
      end.
      apply settled_orelse_or_pass in H5.
      apply settled_block in H4 as [Hb1 Hb2].
      apply settled_block in H5 as [He1 He2].
      unfold for_template. apply Forall_app. split; [done|].
      repeat constructor; simpl; by rewrite ?Hb1, ?He1.
    + apply ret_Ok in H as [-> _].
      apply settled_block in H4 as [Hb1 Hb2].
      apply settled_block in H5 as [He1 He2].
      repeat constructor; simpl; by rewrite ?Hhook, ?Hb1, ?He1, ?H1, ?Hb2, ?He2.
  - (* visit_While *)
    apply mbind_Ok in H as (lw & s1 & H1 & H).
    apply mbind_Ok in H as (test' & s2 & H2 & H).
    apply mbind_Ok in H as (body' & s4 & H4 & H).
    apply mbind_Ok in H as (orelse' & s5 & H5 & H).
    apply modified_in_cond_has_anno in H1.
    apply (yields_visit_block settled visit_stmt body IHb) in H4.
    apply (yields_visit_block settled visit_stmt orelse IHe) in H5.
    destruct (hasattr overload "while_stmt") eqn:Hhook; cbn [negb] in H.
    + exact (rewrite_cond_settled _ _ _ _ _ _ _ _ H4 H5 H).
    + apply ret_Ok in H as [-> _].
      apply settled_block in H4 as [Hb1 Hb2].
      apply settled_block in H5 as [He1 He2].
      repeat constructor; simpl; by rewrite ?Hhook, ?Hb1, ?He1, ?H1, ?Hb2, ?He2.
  - (* visit_If *)
    apply mbind_Ok in H as (lw & s1 & H1 & H).
    apply mbind_Ok in H as (test' & s2 & H2 & H).
    apply mbind_Ok in H as (body' & s4 & H4 & H).
    apply mbind_Ok in H as (orelse' & s5 & H5 & H).
    apply modified_in_cond_has_anno in H1.
    apply (yields_visit_block settled visit_stmt body IHb) in H4.
    apply (yields_visit_block settled visit_stmt orelse IHe) in H5.
    destruct (hasattr overload "if_stmt") eqn:Hhook; cbn [negb] in H.
    + exact (rewrite_cond_settled _ _ _ _ _ _ _ _ H4 H5 H).
    + apply ret_Ok in H as [-> _].
      apply settled_block in H4 as [Hb1 Hb2].
      apply settled_block in H5 as [He1 He2].
      repeat constructor; simpl; by rewrite ?Hhook, ?Hb1, ?He1, ?H1, ?Hb2, ?He2.
  - cbn [generic_visit_stmt] in H; inv_M; by repeat constructor.
  - cbn [generic_visit_stmt] in H; inv_M; by repeat constructor.
  - cbn [generic_visit_stmt] in H; inv_M; by repeat constructor.
  - cbn [generic_visit_stmt] in H; inv_M; by repeat constructor.
Qed.

Lemma has_anno_modified_in_cond anno (st : CFT) :
  has_anno anno = true →
  ∃ lw, modified_in_cond anno st = Ok (lw, st).
Proof.
  unfold modified_in_cond, has_anno, getanno.
  destruct (BODY_SCOPE anno), (ORELSE_SCOPE anno); try done. by eexists.
Qed.

Lemma control_flow_visit_stmt_fixed node :
  settled node → ∀ st : CFT, visit_stmt node st = Ok ([node], st).
Proof.
  induction node as
    [nid name args body IH|value|targets value|target op value
    |target iter body orelse anno IHb IHe
    |test body orelse anno IHb IHe|test body orelse anno IHb IHe
    |value| |names|names]
    using stmt_nested_ind; intros [Hc Ha] st;
    cbn [control_flow.visit_stmt]; simpl in Hc, Ha;
    try (match goal with
         | |- context [generic_visit_stmt _ _ ?n] =>
           rewrite (mbind_Ok_intro _ _ st n st);
             [done|apply generic_visit_stmt_id; [apply visit_expr_id|done]]
         end).
  - rewrite (mbind_Ok_intro _ _ st (FunctionDef nid name args body) st); [done|].
    apply generic_visit_stmt_id; [apply visit_expr_id|]. simpl.
    rewrite Forall_forall in IH |- *. intros c Hin. apply (IH c Hin).
    rewrite forallb_forall in Ha.
    split; [|apply Ha; by apply list_elem_of_In].
    apply not_true_is_false. intros Hcc.
    assert (existsb (stmt_exists has_hook) body = true) as Hex.
    { apply existsb_exists. exists c. split; [by apply list_elem_of_In|done]. }
    congruence.
  - apply orb_false_iff in Hc as [Hh Hc]. apply orb_false_iff in Hc as [Hcb Hce].
    apply andb_true_iff in Ha as [Ha Hae]. apply andb_true_iff in Ha as [Ha Hab].
    destruct (has_anno_modified_in_cond anno st Ha) as [lw Hlw].
    rewrite (mbind_Ok_intro _ _ _ _ _ Hlw).
    rewrite (mbind_Ok_intro _ _ _ _ _ (visit_expr_id target st)).
    rewrite (mbind_Ok_intro _ _ _ _ _ (visit_expr_id iter st)).
    rewrite (mbind_Ok_intro _ _ st body st).
    2:{ apply visit_block_id. rewrite Forall_forall in IHb |- *.
        intros c Hin. apply (IHb c Hin).
        assert (Forall settled body) as HF by by apply settled_block.
        rewrite Forall_forall in HF. by apply HF. }
    rewrite (mbind_Ok_intro _ _ st orelse st).
    2:{ apply visit_block_id. rewrite Forall_forall in IHe |- *.
        intros c Hin. apply (IHe c Hin).
        assert (Forall settled orelse) as HF by by apply settled_block.
        rewrite Forall_forall in HF. by apply HF. }
    cbn [has_hook control_flow.has_hook] in Hh. by rewrite Hh.
  - apply orb_false_iff in Hc as [Hh Hc]. apply orb_false_iff in Hc as [Hcb Hce].
    apply andb_true_iff in Ha as [Ha Hae]. apply andb_true_iff in Ha as [Ha Hab].
    destruct (has_anno_modified_in_cond anno st Ha) as [lw Hlw].
    rewrite (mbind_Ok_intro _ _ _ _ _ Hlw).
    rewrite (mbind_Ok_intro _ _ _ _ _ (visit_expr_id test st)).
    rewrite (mbind_Ok_intro _ _ st body st).
    2:{ apply visit_block_id. rewrite Forall_forall in IHb |- *.
        intros c Hin. apply (IHb c Hin).
        assert (Forall settled body) as HF by by apply settled_block.
        rewrite Forall_forall in HF. by apply HF. }
    rewrite (mbind_Ok_intro _ _ st orelse st).
    2:{ apply visit_block_id. rewrite Forall_forall in IHe |- *.
        intros c Hin. apply (IHe c Hin).
        assert (Forall settled orelse) as HF by by apply settled_block.
        rewrite Forall_forall in HF. by apply HF. }
    cbn [has_hook control_flow.has_hook] in Hh. by rewrite Hh.
  - apply orb_false_iff in Hc as [Hh Hc]. apply orb_false_iff in Hc as [Hcb Hce].
    apply andb_true_iff in Ha as [Ha Hae]. apply andb_true_iff in Ha as [Ha Hab].
    destruct (has_anno_modified_in_cond anno st Ha) as [lw Hlw].
    rewrite (mbind_Ok_intro _ _ _ _ _ Hlw).
    rewrite (mbind_Ok_intro _ _ _ _ _ (visit_expr_id test st)).
    rewrite (mbind_Ok_intro _ _ st body st).
    2:{ apply visit_block_id. rewrite Forall_forall in IHb |- *.
        intros c Hin. apply (IHb c Hin).
        assert (Forall settled body) as HF by by apply settled_block.
        rewrite Forall_forall in HF. by apply HF. }
    rewrite (mbind_Ok_intro _ _ st orelse st).
    2:{ apply visit_block_id. rewrite Forall_forall in IHe |- *.
        intros c Hin. apply (IHe c Hin).
        assert (Forall settled orelse) as HF by by apply settled_block.
        rewrite Forall_forall in HF. by apply HF. }
    cbn [has_hook control_flow.has_hook] in Hh. by rewrite Hh.
Qed.


End with_namer.



End control_flow_pass_facts.

Module closure_domain_facts.
Import conversion conversion_facts.

Section closure.
Context {Cell Globals Defaults : Type}.
Local Abbreviation function := (@function Cell Globals Defaults).

(** The name is a key of [{v: c for v, c in zip(freevars, closure)}]: it
    stands at a position of [freevars] that [closure] reaches. *)
Local Abbreviation has_cell freevars closure name :=
  (∃ j, freevars !! j = Some name ∧ j < length (closure : list Cell)).

Lemma dict_of_zip_key (freevars : list string) (closure : list Cell) name :
  is_Some (dict_of_zip freevars closure !! name) ↔
  has_cell freevars closure name.
Proof.
  split.
  - intros [c Hc]. rewrite dict_of_zip_eq in Hc.
    apply elem_of_list_to_map_2 in Hc. rewrite elem_of_reverse in Hc.
    apply elem_of_zip_lookup in Hc as (j & Hn & Hcl). exists j.
    split; [done|]. by eapply lookup_lt_Some.
  - intros (j & Hn & Hj). by eapply dict_of_zip_is_Some.
Qed.

Lemma lookup_all_missing (d : gmap string Cell) freevars :
  (∃ name, name ∈ freevars ∧ d !! name = None) →
  ∃ name, lookup_all d freevars = Raise (KeyError name) ∧
          name ∈ freevars ∧ d !! name = None.
Proof.
  induction freevars as [|n freevars IH]; intros (name & Hin & Hnone).
  - by apply elem_of_nil in Hin.
  - simpl. destruct (d !! n) as [c|] eqn:Hn.
    + destruct IH as (name' & Hl & Hin' & Hnone').
      { exists name. split; [|done].
        apply elem_of_cons in Hin as [->|?]; [congruence|done]. }
      exists name'. rewrite Hl. split; [done|]. split; [by right|done].
    + exists n. split; [done|]. split; [by left|done].
Qed.

End closure.


End closure_domain_facts.

Module deferred_facts.
Import scoping scoping_facts scope_chain_facts.

(** [should_virtualize] in closed form: the call is true exactly when,
    going up from the Scope through the Scopes that hold the name in
    [nonlocals] or [free] without holding it in [locals], one reaches a
    Scope that holds it in [locals].  A Scope on the way that holds the name
    in none of the three sets, or that has no parent, ends the search with
    a false answer. *)
Theorem should_virtualize_iff_deferred σ var : ∀ self s,
  heap_wf σ → σ !! self = Some s →
  (virtualizes σ self var ↔
   ∃ a sa, deferred σ var self a ∧ σ !! a = Some sa ∧ var ∈ locals sa).
Proof.
  induction self as [self IH] using lt_wf_ind. intros s Hwf Hs.
  unfold virtualizes. rewrite (should_virtualize_unfold _ _ _ _ Hwf Hs).
  unfold is_local, is_nonlocal, is_free.
  destruct (decide (var ∈ locals s)) as [Hl|Hl].
  { rewrite bool_decide_eq_true_2 by done. split.
    - intros _. exists self, s. split; [constructor|done].
    - intros _. by exists (VBool true). }
  rewrite (bool_decide_eq_false_2 _ Hl).
  destruct (decide (var ∈ nonlocals s ∨ var ∈ free s)) as [Hnf|Hnf].
  - assert (bool_decide (var ∈ nonlocals s) || bool_decide (var ∈ free s)
            = true) as ->.
    { apply orb_true_iff. by rewrite !bool_decide_eq_true. }
    destruct (parent s) as [p|] eqn:Hp.
    + destruct (parent_allocated _ _ _ _ Hwf Hs Hp) as [sp Hsp].
      pose proof (IH p (Hwf _ _ _ Hs Hp) sp Hwf Hsp) as IHp.
      unfold virtualizes in IHp. rewrite IHp. split.
      * intros (a & sa & Hd & Hsa & Hin). exists a, sa.
        split; [by econstructor|done].
      * intros (a & sa & Hd & Hsa & Hin).
        inversion Hd as [|? s' p' ? Hs' Hl' Hnf' Hp' Hd']; subst.
        -- rewrite Hs in Hsa. injection Hsa as <-. done.
        -- rewrite Hs in Hs'. injection Hs' as <-. rewrite Hp in Hp'.
           injection Hp' as <-. by exists a, sa.
    + split.
      * by intros (v & [= <-] & Ht).
      * intros (a & sa & Hd & Hsa & Hin).
        inversion Hd as [|? s' p' ? Hs' Hl' Hnf' Hp' Hd']; subst.
        -- rewrite Hs in Hsa. injection Hsa as <-. done.
        -- rewrite Hs in Hs'. injection Hs' as <-. congruence.
  - assert (bool_decide (var ∈ nonlocals s) || bool_decide (var ∈ free s)
            = false) as ->.
    { apply orb_false_iff. rewrite !bool_decide_eq_false. tauto. }
    split.
    + by intros (v & [= <-] & Ht).
    + intros (a & sa & Hd & Hsa & Hin).
      inversion Hd as [|? s' p' ? Hs' Hl' Hnf' Hp' Hd']; subst.
      * rewrite Hs in Hsa. injection Hsa as <-. done.
      * rewrite Hs in Hs'. injection Hs' as <-. done.
Qed.

Lemma should_virtualize_iff_deferred_witness :
  virtualizes [add_local "x" (new_Scope None None);
               add_free "x" (new_Scope (Some 0) None);
               add_nonlocal "x" (new_Scope (Some 1) None)] 2 "x".
Proof.
  apply (should_virtualize_iff_deferred _ "x" 2
           (add_nonlocal "x" (new_Scope (Some 1) None))).
  - intros [|[|[|r]]] s p Hs Hp; simpl in Hs; try done;
      injection Hs as <-; try done; injection Hp as <-; lia.
  - reflexivity.
  - exists 0, (add_local "x" (new_Scope None None)).
    split; [|split; [reflexivity|simpl; set_solver]].
    eapply (deferred_up _ _ 2 _ 1); [reflexivity|simpl; set_solver| |reflexivity|].
    + left. simpl. set_solver.
    + eapply (deferred_up _ _ 1 _ 0);
        [reflexivity|simpl; set_solver| |reflexivity|constructor].
      right. simpl. set_solver.
Defined.

End deferred_facts.

Module pipeline_facts.
Import transformer transformer_facts conversion.

Section pipeline.
Context {Tree Ctx Overload : Type}.
Local Abbreviation transformer_module := (@transformer_module Tree Ctx Overload).

End pipeline.


End pipeline_facts.

Module scope_structure_facts.
Import gast transformer transformer_facts invariant_facts scoping
  scope_analysis_facts.

(** *** Which entries of [scopes] a visit touches *)

Section keys.
(** A property of [self.scopes] that reassigning the keys in [ids] keeps. *)
Context (P : gmap nat ref → Prop).

Local Abbreviation on_scopes := (fun st : ScopeTransformer => P (scopes st)).
Local Abbreviation stable ids :=
  (∀ nid m r, nid ∈ (ids : list nat) → P m → P (<[nid := r]> m)).

Lemma update_scope_keys r method : preserves on_scopes (update_scope r method).
Proof.
  intros st a st' HI. unfold update_scope.
  destruct (scope_objs st !! r); [|done]. by intros [= _ <-].
Qed.

Lemma _check_local_keys ctx name : preserves on_scopes (_check_local ctx name).
Proof.
  intros st a st' HI. unfold _check_local.
  destruct (scope st) as [r|]; [|by intros [= _ <-]].
  destruct (scope_objs st !! r) as [s|] eqn:Hs; [|done].
  destruct (is_global name s || is_nonlocal name s); [by intros [= _ <-]|].
  destruct ctx; try (by apply update_scope_keys);
    (destruct (negb (is_local name s));
     [by apply update_scope_keys|by intros [= _ <-]]).
Qed.

Lemma visit_expr_keys e : preserves on_scopes (visit_expr e).
Proof.
  induction e as [e Hch] using expr_children_ind.
  destruct e; try (by apply (preserves_generic_visit_expr _ visit_expr)).
  simpl. unfold visit_Name.
  apply preserves_bind; [apply _check_local_keys|].
  intros ?. apply preserves_ret.
Qed.

Lemma visit_For_target_keys target :
  preserves on_scopes (visit_For_target target).
Proof.
  assert (Hseq : ∀ elts ctx,
    preserves on_scopes
      (do _ <- mapM (fun elt => do id <- lift (get_id elt);
                                _check_local ctx id) elts;
       ret tt : M ScopeTransformer unit)).
  { intros elts ctx. apply preserves_bind; [|intros ?; apply preserves_ret].
    apply preserves_mapM. apply Forall_forall. intros elt _.
    apply preserves_bind; [apply preserves_lift|].
    intros ?. apply _check_local_keys. }
  destruct target; simpl; try apply preserves_raise; try apply Hseq.
  apply _check_local_keys.
Qed.

Lemma _visit_free_keys callback names :
  preserves on_scopes (_visit_free callback names).
Proof.
  intros st a st' HI. unfold _visit_free.
  destruct (scope st) as [r|]; [|done].
  revert st a st' HI.
  change (preserves on_scopes
    (do _ <- mapM (fun name => update_scope r (callback name)) names; ret tt)).
  apply preserves_bind; [|intros ?; apply preserves_ret].
  apply preserves_mapM. apply Forall_forall. intros name _.
  apply update_scope_keys.
Qed.

Lemma scope_parent_keys : preserves on_scopes scope_parent.
Proof.
  intros st a st' HI. unfold scope_parent.
  destruct (scope st) as [r|]; [|done].
  destruct (scope_objs st !! r); [|done]. by intros [= _ <-].
Qed.

Lemma update_outer_keys (o : option ref) name :
  preserves on_scopes
    (match o with
     | Some r => update_scope r (add_local name)
     | None => ret tt
     end).
Proof. destruct o; [apply update_scope_keys|apply preserves_ret]. Qed.

Lemma stable_block node (nodes : list stmt) :
  node ∈ nodes → stable (flat_map function_ids nodes) →
  stable (function_ids node).
Proof.
  intros Hin Hst nid m r Hnid. apply Hst.
  apply list_elem_of_In, in_flat_map. exists node.
  split; by apply list_elem_of_In.
Qed.

Lemma visit_stmt_keys node :
  stable (function_ids node) → preserves on_scopes (visit_stmt node).
Proof.
  induction node as
    [nid' name args body IH|value|targets value|target op value
    |target iter body orelse anno IHb IHe
    |test body orelse anno IHb IHe|test body orelse anno IHb IHe
    |value| |names|names]
    using stmt_nested_ind; intros Hst.
  all: assert (Hblock : ∀ nodes : list stmt,
         Forall (fun node => stable (function_ids node) →
                             preserves on_scopes (visit_stmt node)) nodes →
         stable (flat_map function_ids nodes) →
         preserves on_scopes (visit_block visit_stmt nodes)).
  all: try (intros nodes HF Hs; apply preserves_visit_block;
            rewrite Forall_forall in HF |- *; intros c Hc;
            apply (HF c Hc); by eapply stable_block).
  all: cbn [visit_stmt];
    try (apply preserves_bind; [|intros ?; apply preserves_ret];
         apply preserves_generic_visit_stmt; [apply visit_expr_keys|done]).
  - apply preserves_bind; [by intros st a st' HI [= _ <-]|]. intros outer.
    apply preserves_bind; [apply update_outer_keys|]. intros _.
    apply preserves_bind.
    { intros st a st' HI [= _ <-]. simpl. apply Hst; [|done]. simpl. left. }
    intros r. apply preserves_bind.
    { apply preserves_mapM, Forall_forall. intros arg _.
      apply update_scope_keys. }
    intros _. apply preserves_bind.
    { cbn [generic_visit_stmt].
      apply preserves_bind; [|intros ?; apply preserves_ret].
      apply Hblock; [done|]. intros nid m r' Hnid. apply Hst. simpl.
      by right. }
    intros node'.
    apply preserves_bind; [apply scope_parent_keys|]. intros p.
    apply preserves_bind; [apply update_outer_keys|]. intros _.
    apply preserves_bind; [apply scope_parent_keys|]. intros p'.
    apply preserves_bind; [by intros st a st' HI [= _ <-]|]. intros _.
    apply preserves_ret.
  - simpl in Hst.
    apply preserves_bind; [apply visit_For_target_keys|]. intros _.
    apply preserves_bind.
    { apply preserves_generic_visit_expr, children_all_intro, visit_expr_keys. }
    intros iter'.
    apply preserves_bind.
    { apply Hblock; [done|]. intros nid m r Hnid. apply Hst.
      apply elem_of_app. by left. }
    intros body'.
    apply preserves_bind.
    { apply Hblock; [done|]. intros nid m r Hnid. apply Hst.
      apply elem_of_app. by right. }
    intros orelse'. apply preserves_ret.
  - simpl in Hst. apply preserves_bind; [|intros ?; apply preserves_ret].
    cbn [generic_visit_stmt].
    apply preserves_bind; [apply visit_expr_keys|]. intros ?.
    apply preserves_bind.
    { apply Hblock; [done|]. intros nid m r Hnid. apply Hst.
      apply elem_of_app. by left. }
    intros ?. apply preserves_bind; [|intros ?; apply preserves_ret].
    apply Hblock; [done|]. intros nid m r Hnid. apply Hst.
    apply elem_of_app. by right.
  - simpl in Hst. apply preserves_bind; [|intros ?; apply preserves_ret].
    cbn [generic_visit_stmt].
    apply preserves_bind; [apply visit_expr_keys|]. intros ?.
    apply preserves_bind.
    { apply Hblock; [done|]. intros nid m r Hnid. apply Hst.
      apply elem_of_app. by left. }
    intros ?. apply preserves_bind; [|intros ?; apply preserves_ret].
    apply Hblock; [done|]. intros nid m r Hnid. apply Hst.
    apply elem_of_app. by right.
  - apply preserves_bind; [|intros ?; apply preserves_ret].
    apply _visit_free_keys.
  - apply preserves_bind; [|intros ?; apply preserves_ret].
    apply _visit_free_keys.
Qed.

Lemma visit_block_keys (nodes : list stmt) :
  stable (flat_map function_ids nodes) →
  preserves on_scopes (visit_block visit_stmt nodes).
Proof.
  intros Hst. apply preserves_visit_block, Forall_forall. intros c Hc.
  apply visit_stmt_keys. by eapply stable_block.
Qed.
End keys.

(** A visit leaves alone the entries of the functions it does not hold. *)
Lemma visit_block_other_keys nodes nid st out st' :
  nid ∉ flat_map function_ids nodes →
  visit_block visit_stmt nodes st = Ok (out, st') →
  scopes st' !! nid = scopes st !! nid.
Proof.
  intros Hnid H.
  apply (visit_block_keys (fun m => m !! nid = scopes st !! nid) nodes)
    with (st := st) (a := out); [|done|done].
  intros nid' m r Hin Hm. rewrite lookup_insert_ne; [done|]. by intros ->.
Qed.

(** *** [scoped] survives what later visits do *)

Lemma scoped_stable scopes1 scopes2 (σ1 σ2 : list Scope) node : ∀ cur,
  scoped scopes1 σ1 cur node →
  (∀ nid, nid ∈ function_ids node → scopes2 !! nid = scopes1 !! nid) →
  (∀ r s, σ1 !! r = Some s → ∃ s', σ2 !! r = Some s' ∧ parent s' = parent s) →
  scoped scopes2 σ2 cur node.
Proof.
  induction node as
    [nid name args body IH|value|targets value|target op value
    |target iter body orelse anno IHb IHe
    |test body orelse anno IHb IHe|test body orelse anno IHb IHe
    |value| |names|names]
    using stmt_nested_ind; intros cur Hsc Hkeys Hext;
    try (by apply scoped_simple).
  all: assert (Hblock : ∀ (nodes : list stmt) cur,
         Forall (fun node => ∀ cur, scoped scopes1 σ1 cur node →
           (∀ nid, nid ∈ function_ids node →
                   scopes2 !! nid = scopes1 !! nid) →
           (∀ r s, σ1 !! r = Some s →
                   ∃ s', σ2 !! r = Some s' ∧ parent s' = parent s) →
           scoped scopes2 σ2 cur node) nodes →
         Forall (scoped scopes1 σ1 cur) nodes →
         (∀ nid, nid ∈ flat_map function_ids nodes →
                 scopes2 !! nid = scopes1 !! nid) →
         Forall (scoped scopes2 σ2 cur) nodes).
  all: try (intros nodes cur' HF Hs Hk;
            rewrite Forall_forall in HF, Hs |- *; intros c Hc;
            apply (HF c Hc); [by apply Hs| |done];
            intros nid' Hnid'; apply Hk;
            apply list_elem_of_In, in_flat_map; exists c;
            split; by apply list_elem_of_In).
  - inversion Hsc as [? ? ? ? ? r s Hr Hs Hp Hbody| | | |? ? Hsimple]; subst;
      [|done].
    destruct (Hext r s Hs) as (s' & Hs' & Hp').
    apply (scoped_FunctionDef _ _ _ _ _ _ _ r s'); [|done|done|].
    + rewrite Hkeys; [done|]. simpl. left.
    + apply Hblock; [done|done|]. intros nid' Hnid'. apply Hkeys. simpl.
      by right.
  - inversion Hsc as [|? ? ? ? ? ? Hb He| | |? ? Hsimple]; subst; [|done].
    apply scoped_For.
    + apply Hblock; [done|done|]. intros nid' Hnid'. apply Hkeys. simpl.
      apply elem_of_app. by left.
    + apply Hblock; [done|done|]. intros nid' Hnid'. apply Hkeys. simpl.
      apply elem_of_app. by right.
  - inversion Hsc as [| |? ? ? ? ? Hb He| |? ? Hsimple]; subst; [|done].
    apply scoped_While.
    + apply Hblock; [done|done|]. intros nid' Hnid'. apply Hkeys. simpl.
      apply elem_of_app. by left.
    + apply Hblock; [done|done|]. intros nid' Hnid'. apply Hkeys. simpl.
      apply elem_of_app. by right.
  - inversion Hsc as [| | |? ? ? ? ? Hb He|? ? Hsimple]; subst; [|done].
    apply scoped_If.
    + apply Hblock; [done|done|]. intros nid' Hnid'. apply Hkeys. simpl.
      apply elem_of_app. by left.
    + apply Hblock; [done|done|]. intros nid' Hnid'. apply Hkeys. simpl.
      apply elem_of_app. by right.
Qed.

(** *** What the analysis records *)

Lemma total_post {S A} (I : S → Prop) (m : M S A) st a st' :
  total I m → I st → m st = Ok (a, st') → I st'.
Proof.
  intros Hm HI H. destruct (Hm st HI) as (a' & st2 & H2 & HI2).
  rewrite H in H2. by injection H2 as <- <-.
Qed.

Lemma visit_block_same_scope in_func nodes st out st' :
  forallb (analyzable in_func) nodes = true →
  st_ok st → (in_func = true → is_Some (scope st)) →
  visit_block visit_stmt nodes st = Ok (out, st') →
  same_scope st st'.
Proof.
  intros Han Hok Hin H.
  eapply (total_post (same_scope st)); [|by apply same_scope_refl|exact H].
  apply total_visit_block. apply Forall_forall. intros node Hnode.
  apply (visit_stmt_total node in_func); [|done].
  rewrite forallb_forall in Han. apply Han. by apply list_elem_of_In.
Qed.

(** The statements of a block, visited one after the other. *)
Lemma visit_block_scoped in_func nodes :
  Forall (fun node =>
    analyzable in_func node = true → NoDup (function_ids node) →
    ∀ st out st', st_ok st → (in_func = true → is_Some (scope st)) →
      visit_stmt node st = Ok (out, st') →
      scoped (scopes st') (scope_objs st') (scope st) node) nodes →
  forallb (analyzable in_func) nodes = true →
  NoDup (flat_map function_ids nodes) →
  ∀ st out st', st_ok st → (in_func = true → is_Some (scope st)) →
    visit_block visit_stmt nodes st = Ok (out, st') →
    Forall (scoped (scopes st') (scope_objs st') (scope st)) nodes.
Proof.
  induction 1 as [|node nodes Hnode _ IH]; intros Han Hnd st out st' Hok Hin H;
    [constructor|].
  cbn [forallb] in Han. apply andb_true_iff in Han as [Han1 Han2].
  cbn [flat_map] in Hnd. apply NoDup_app in Hnd as (Hnd1 & Hdisj & Hnd2).
  cbn [visit_block] in H.
  apply mbind_Ok in H as (o1 & st1 & H1 & H).
  apply mbind_Ok in H as (o2 & st2 & H2 & H).
  apply ret_Ok in H as [-> ->].
  assert (Hs1 : same_scope st st1).
  { eapply (total_post (same_scope st));
      [by apply (visit_stmt_total node in_func)
      |by apply same_scope_refl|exact H1]. }
  destruct Hs1 as (Hsc1 & Hok1 & Hext1).
  assert (Hin1 : in_func = true → is_Some (scope st1)).
  { rewrite Hsc1. exact Hin. }
  pose proof (visit_block_same_scope in_func nodes st1 o2 st2 Han2 Hok1 Hin1 H2)
    as (Hsc2 & Hok2 & Hext2).
  constructor.
  - eapply scoped_stable; [by eapply Hnode| |exact Hext2].
    intros nid Hnid. eapply visit_block_other_keys; [|exact H2].
    by apply Hdisj.
  - rewrite <- Hsc1. by eapply IH.
Qed.

Lemma two_blocks_scoped in_func body orelse st2 body' st3 orelse' st4 :
  Forall (fun node => ∀ in_func,
    analyzable in_func node = true → NoDup (function_ids node) →
    ∀ st out st', st_ok st → (in_func = true → is_Some (scope st)) →
      visit_stmt node st = Ok (out, st') →
      scoped (scopes st') (scope_objs st') (scope st) node) body →
  Forall (fun node => ∀ in_func,
    analyzable in_func node = true → NoDup (function_ids node) →
    ∀ st out st', st_ok st → (in_func = true → is_Some (scope st)) →
      visit_stmt node st = Ok (out, st') →
      scoped (scopes st') (scope_objs st') (scope st) node) orelse →
  forallb (analyzable in_func) body = true →
  forallb (analyzable in_func) orelse = true →
  NoDup (flat_map function_ids body ++ flat_map function_ids orelse) →
  st_ok st2 → (in_func = true → is_Some (scope st2)) →
  visit_block visit_stmt body st2 = Ok (body', st3) →
  visit_block visit_stmt orelse st3 = Ok (orelse', st4) →
  Forall (scoped (scopes st4) (scope_objs st4) (scope st2)) body ∧
  Forall (scoped (scopes st4) (scope_objs st4) (scope st2)) orelse.
Proof.
  intros IHb IHe Hb He Hnd Hok2 Hin2 H3 H4.
  apply NoDup_app in Hnd as (Hnd1 & Hdisj & Hnd2).
  pose proof (visit_block_same_scope in_func body st2 _ st3 Hb Hok2 Hin2 H3)
    as (Hsc3 & Hok3 & Hext3).
  assert (Hin3 : in_func = true → is_Some (scope st3)).
  { rewrite Hsc3. exact Hin2. }
  pose proof (visit_block_same_scope in_func orelse st3 _ st4 He Hok3 Hin3 H4)
    as (Hsc4 & Hok4 & Hext4).
  split.
  - assert (Hbody : Forall (scoped (scopes st3) (scope_objs st3) (scope st2))
                      body).
    { eapply (visit_block_scoped in_func body); [|done..].
      eapply Forall_impl; [exact IHb|]. intros c Hc. apply (Hc in_func). }
    rewrite Forall_forall in Hbody |- *. intros c Hc.
    eapply scoped_stable; [by apply Hbody| |exact Hext4].
    intros nid' Hnid'. eapply visit_block_other_keys; [|exact H4].
    apply Hdisj. apply list_elem_of_In, in_flat_map. exists c.
    split; by apply list_elem_of_In.
  - assert (Horelse : Forall (scoped (scopes st4) (scope_objs st4)
                                (scope st3)) orelse).
    { eapply (visit_block_scoped in_func orelse); [|done..].
      eapply Forall_impl; [exact IHe|]. intros c Hc. apply (Hc in_func). }
    by rewrite Hsc3 in Horelse.
Qed.

Lemma visit_stmt_scoped node : ∀ in_func,
  analyzable in_func node = true → NoDup (function_ids node) →
  ∀ st out st', st_ok st → (in_func = true → is_Some (scope st)) →
    visit_stmt node st = Ok (out, st') →
    scoped (scopes st') (scope_objs st') (scope st) node.
Proof.
  induction node as
    [nid name args body IH|value|targets value|target op value
    |target iter body orelse anno IHb IHe
    |test body orelse anno IHb IHe|test body orelse anno IHb IHe
    |value| |names|names]
    using stmt_nested_ind; intros in_func Han Hnd st out st' Hok Hin H;
    try (by apply scoped_simple).
  - (* visit_FunctionDef *)
    simpl in Han. cbn [function_ids] in Hnd.
    apply NoDup_cons in Hnd as [Hnid Hnd].
    cbn [visit_stmt] in H.
    apply mbind_Ok in H as (outer & sa & Ha & H). injection Ha as <- <-.
    apply mbind_Ok in H as ([] & st1 & H1 & H).
    assert (Hst1 : scope st1 = scope st ∧ st_ok st1 ∧ extends st st1).
    { destruct (scope st) as [r0|] eqn:Hr0.
      - destruct (update_scope_spec r0 (add_local name) st)
          as (st1' & Hu & ? & ? & ?); [done|done|by apply Hok|].
        rewrite Hu in H1. injection H1 as <-.
        split; [congruence|done].
      - apply ret_Ok in H1 as [_ ->].
        split; [done|]. split; [done|apply extends_refl]. }
    destruct Hst1 as (Hsc1 & Hok1 & Hext1).
    destruct (enter_scope_spec nid name st1 Hok1)
      as (st2 & Hst2 & Hok2 & Hext2 & Hsc2 & Hnew).
    apply mbind_Ok in H as (r & st2' & H2 & H).
    rewrite Hst2 in H2. injection H2 as <- <-.
    set (r := length (scope_objs st1)) in *.
    apply mbind_Ok in H as (u & st3 & H3 & H).
    assert (Hs3 : same_scope st2 st3).
    { eapply (total_post (same_scope st2));
        [|by apply same_scope_refl|exact H3].
      apply total_mapM, Forall_forall. intros arg _.
      by apply update_current_total. }
    destruct Hs3 as (Hsc3 & Hok3 & Hext3).
    assert (Hkey3 : scopes st3 !! nid = Some r).
    { eapply (preserves_mapM (fun st => scopes st !! nid = Some r));
        [| |exact H3].
      - apply Forall_forall. intros arg _.
        apply (update_scope_keys (fun m => m !! nid = Some r)).
      - unfold enter_scope in Hst2. injection Hst2 as <-. simpl.
        apply lookup_insert_eq. }
    apply mbind_Ok in H as (node' & st4o & H4 & H).
    cbn [generic_visit_stmt] in H4.
    apply mbind_Ok in H4 as (body' & st4 & H4 & Hret).
    apply ret_Ok in Hret as [-> ->].
    assert (Hin3 : true = true → is_Some (scope st3)).
    { intros _. rewrite Hsc3, Hsc2. by eexists. }
    pose proof (visit_block_same_scope true body st3 body' st4 Han Hok3 Hin3 H4)
      as (Hsc4 & Hok4 & Hext4).
    assert (Hbody : Forall (scoped (scopes st4) (scope_objs st4) (scope st3))
                      body).
    { eapply (visit_block_scoped true body); [|done..].
      eapply Forall_impl; [exact IH|]. intros c Hc. apply (Hc true). }
    rewrite Hsc3, Hsc2 in Hbody.
    assert (Hkey4 : scopes st4 !! nid = Some r).
    { rewrite <- Hkey3. by eapply visit_block_other_keys. }
    destruct (Hext3 r _ Hnew) as (s3 & Hs3 & Hp3).
    destruct (Hext4 r _ Hs3) as (s4 & Hs4 & Hp4).
    assert (Hcur4 : scope st4 = Some r) by congruence.
    rewrite (mbind_Ok_intro _ _ st4 _ st4
               (scope_parent_spec st4 r s4 Hcur4 Hs4)) in H.
    apply mbind_Ok in H as ([] & st5 & H5 & H).
    assert (Hst5 : scope st5 = scope st4 ∧ scopes st5 = scopes st4 ∧
                   extends st4 st5).
    { destruct (parent s4) as [pr|] eqn:Hpr.
      - unfold update_scope in H5.
        destruct (scope_objs st4 !! pr) as [ps|] eqn:Hps; [|done].
        injection H5 as <-. simpl. split; [done|]. split; [done|].
        intros r' s' Hs'. simpl.
        destruct (decide (r' = pr)) as [->|Hne].
        + rewrite list_lookup_insert_eq by by eapply lookup_lt_Some.
          eexists. split; [done|]. simpl. congruence.
        + rewrite list_lookup_insert_ne by done. by exists s'.
      - apply ret_Ok in H5 as [_ ->]. split; [done|]. split; [done|].
        apply extends_refl. }
    destruct Hst5 as (Hsc5 & Hkeys5 & Hext5).
    destruct (Hext5 r _ Hs4) as (s5 & Hs5 & Hp5).
    rewrite (mbind_Ok_intro _ _ st5 _ st5
               (scope_parent_spec st5 r s5 ltac:(congruence) Hs5)) in H.
    apply mbind_Ok in H as ([] & st6 & H6 & H).
    apply ret_Ok in H as [-> ->].
    injection H6 as <-. simpl.
    apply (scoped_FunctionDef _ _ _ _ _ _ _ r s5).
    + by rewrite Hkeys5.
    + done.
    + rewrite Hp5, Hp4, Hp3. simpl. done.
    + eapply Forall_impl; [exact Hbody|]. intros c Hc.
      eapply scoped_stable; [exact Hc| |exact Hext5].
      intros nid' _. by rewrite Hkeys5.
  - (* visit_For *)
    simpl in Han. apply andb_true_iff in Han as [Han He].
    apply andb_true_iff in Han as [Ht Hb].
    cbn [function_ids] in Hnd.
    cbn [visit_stmt] in H.
    apply mbind_Ok in H as (u & st1 & H1 & H).
    apply mbind_Ok in H as (iter' & st2 & H2 & H).
    apply mbind_Ok in H as (body' & st3 & H3 & H).
    apply mbind_Ok in H as (orelse' & st4 & H4 & H).
    apply ret_Ok in H as [-> ->].
    assert (Hs1 : same_scope st st1).
    { eapply (total_post (same_scope st));
        [by apply visit_For_target_total|by apply same_scope_refl|exact H1]. }
    assert (Hs2 : same_scope st st2).
    { eapply (total_post (same_scope st)); [|exact Hs1|exact H2].
      apply total_generic_visit_expr, children_all_intro, visit_expr_total. }
    destruct Hs2 as (Hsc2 & Hok2 & Hext2).
    assert (Hin2 : in_func = true → is_Some (scope st2)).
    { rewrite Hsc2. exact Hin. }
    destruct (two_blocks_scoped in_func body orelse st2 body' st3 orelse' st4
                IHb IHe Hb He Hnd Hok2 Hin2 H3 H4) as [Hbody Horelse].
    rewrite Hsc2 in Hbody, Horelse. by apply scoped_For.
  - (* visit_While *)
    simpl in Han. apply andb_true_iff in Han as [Hb He].
    cbn [function_ids] in Hnd.
    cbn [visit_stmt generic_visit_stmt] in H.
    apply mbind_Ok in H as (node' & st5 & H & Hret).
    apply ret_Ok in Hret as [-> ->].
    apply mbind_Ok in H as (test' & st2 & H2 & H).
    apply mbind_Ok in H as (body' & st3 & H3 & H).
    apply mbind_Ok in H as (orelse' & st4 & H4 & H).
    apply ret_Ok in H as [-> ->].
    assert (Hs2 : same_scope st st2).
    { eapply (total_post (same_scope st));
        [apply visit_expr_total|by apply same_scope_refl|exact H2]. }
    destruct Hs2 as (Hsc2 & Hok2 & Hext2).
    assert (Hin2 : in_func = true → is_Some (scope st2)).
    { rewrite Hsc2. exact Hin. }
    destruct (two_blocks_scoped in_func body orelse st2 body' st3 orelse' st4
                IHb IHe Hb He Hnd Hok2 Hin2 H3 H4) as [Hbody Horelse].
    rewrite Hsc2 in Hbody, Horelse. by apply scoped_While.
  - (* visit_If *)
    simpl in Han. apply andb_true_iff in Han as [Hb He].
    cbn [function_ids] in Hnd.
    cbn [visit_stmt generic_visit_stmt] in H.
    apply mbind_Ok in H as (node' & st5 & H & Hret).
    apply ret_Ok in Hret as [-> ->].
    apply mbind_Ok in H as (test' & st2 & H2 & H).
    apply mbind_Ok in H as (body' & st3 & H3 & H).
    apply mbind_Ok in H as (orelse' & st4 & H4 & H).
    apply ret_Ok in H as [-> ->].
    assert (Hs2 : same_scope st st2).
    { eapply (total_post (same_scope st));
        [apply visit_expr_total|by apply same_scope_refl|exact H2]. }
    destruct Hs2 as (Hsc2 & Hok2 & Hext2).
    assert (Hin2 : in_func = true → is_Some (scope st2)).
    { rewrite Hsc2. exact Hin. }
    destruct (two_blocks_scoped in_func body orelse st2 body' st3 orelse' st4
                IHb IHe Hb He Hnd Hok2 Hin2 H3 H4) as [Hbody Horelse].
    rewrite Hsc2 in Hbody, Horelse. by apply scoped_If.
Qed.

Lemma visit_returns_analyzable tree tree' sc :
  visit tree = Ok (tree', sc) → forallb (analyzable false) tree = true.
Proof.
  intros Hv. destruct (forallb (analyzable false) tree) eqn:Hb; [done|].
  assert (∃ e, visit_block visit_stmt tree new_ScopeTransformer = Raise e)
    as [e He].
  { apply (scope_domain_facts.visit_block_raises false tree
             new_ScopeTransformer).
    - done.
    - apply Forall_forall. intros node _ Hf.
      by apply (scope_domain_facts.visit_stmt_raises node false).
    - exact Hb.
    - apply same_scope_refl, scope_domain_facts.new_ScopeTransformer_ok. }
  unfold visit in Hv. congruence.
Qed.

Lemma visit_scoped tree tree' sc :
  NoDup (flat_map function_ids tree) →
  visit tree = Ok (tree', sc) →
  Forall (scoped (scopes sc) (scope_objs sc) None) tree ∧
  heap_wf (scope_objs sc).
Proof.
  intros Hnd Hv.
  pose proof (visit_returns_analyzable _ _ _ Hv) as Han.
  pose proof scope_domain_facts.new_ScopeTransformer_ok as Hok.
  split.
  - apply (visit_block_scoped false tree) with (st := new_ScopeTransformer)
      (out := tree'); [|exact Han|exact Hnd|exact Hok|done|exact Hv].
    apply Forall_forall. intros node _ Hn Hndn. by apply visit_stmt_scoped.
  - eapply (visit_block_same_scope false tree new_ScopeTransformer);
      [exact Han|exact Hok|done|exact Hv].
Qed.

(** When the analysis returns on a tree whose function definitions are
    distinct objects, it has recorded the nesting of the functions: every
    function definition has an entry in [scopes]; the Scope of a definition
    at the top of the tree has no parent, and the Scope of a definition
    inside a function has that function's Scope as parent.  Parents are
    older objects than their children. *)
Theorem analysis_records_nesting tree tree' sc :
  NoDup (flat_map function_ids tree) →
  visit tree = Ok (tree', sc) →
  Forall (scoped (scopes sc) (scope_objs sc) None) tree ∧
  heap_wf (scope_objs sc).
Proof. apply visit_scoped. Qed.

Lemma analysis_records_nesting_witness :
  ∃ sc, visit examples.global_then_def = Ok (examples.global_then_def, sc) ∧
    Forall (scoped (scopes sc) (scope_objs sc) None) examples.global_then_def.
Proof.
  destruct (visit examples.global_then_def) as [[tree' sc]|] eqn:Hv;
    [|vm_compute in Hv; discriminate].
  assert (NoDup (flat_map function_ids examples.global_then_def)) as Hnd.
  { simpl. apply NoDup_cons. split; [set_solver|]. apply NoDup_singleton. }
  destruct (analysis_records_nesting _ _ _ Hnd Hv) as [Hsc _].
  pose proof (visit_same _ _ _ Hv) as ->.
  exists sc. split; [reflexivity|exact Hsc].
Defined.

End scope_structure_facts.

Module variables_total_facts.
Import gast transformer transformer_facts invariant_facts variables.

Section with_namer.
Context {N : Type} (new_symbol : string → gset string → N → string * N).
Context (overload : VirtualizationConfig).
Context (scopes : gmap nat ref) (scope_objs : list scoping.Scope).
Hypothesis Hwf : scoping.heap_wf scope_objs.

Local Abbreviation visit_stmt :=
  (visit_stmt new_symbol overload scopes scope_objs).
Local Abbreviation visit_expr := (@visit_expr N overload scope_objs).
Local Abbreviation VT := (@VariableTransformer N).

(** The current Scope is [cur]. *)
Local Abbreviation at_scope cur := (fun st : VT => scope st = cur).

Lemma fresh_symbol_total cur name_root reserved :
  total (at_scope cur) (fresh_symbol new_symbol name_root reserved).
Proof.
  intros st HI. unfold fresh_symbol.
  destruct (new_symbol name_root reserved (namer st)) as [sym n'].
  by eexists _, _.
Qed.

Lemma fresh_id_total cur : total (at_scope cur) (@fresh_id N).
Proof. intros st HI. by eexists _, _. Qed.

Lemma current_scope_spec r s (st : VT) :
  scope st = Some r → scope_objs !! r = Some s →
  current_scope scope_objs st = Ok ((r, s), st).
Proof. intros Hr Hs. unfold current_scope. by rewrite Hr, Hs. Qed.

Lemma should_virtualize_total r name :
  is_Some (scope_objs !! r) →
  total (at_scope (Some r)) (should_virtualize scope_objs name).
Proof.
  intros [s Hs] st HI. unfold should_virtualize.
  rewrite (mbind_Ok_intro _ _ _ _ _ (current_scope_spec r s st HI Hs)).
  destruct (scoping_facts.should_virtualize_returns scope_objs name r s Hwf Hs)
    as [v Hv].
  simpl. rewrite Hv. by eexists _, _.
Qed.

Lemma variables_visit_expr_total r e :
  is_Some (scope_objs !! r) → total (at_scope (Some r)) (visit_expr e).
Proof.
  intros Hr. induction e as [e Hch] using expr_children_ind.
  destruct e; try (by apply (total_generic_visit_expr _ visit_expr)).
  simpl. unfold visit_Name.
  destruct (negb (hasattr overload "read")); [apply total_ret|].
  apply total_bind; [by apply should_virtualize_total|].
  intros v. destruct (truthy v); apply total_ret.
Qed.

Lemma target_assigns_total ids n_target :
  ids ≠ [] → ∃ assigns, target_assigns overload ids n_target = Ok assigns.
Proof.
  intros Hne. unfold target_assigns.
  destruct (1 <? length ids); [by eexists|].
  destruct ids; [done|by eexists].
Qed.

Lemma for_target_total target :
  match target with
  | Name _ _ => true
  | Tuple elts _ | List elts _ =>
    forallb is_Name elts && negb (Nat.eqb (length elts) 0)
  | _ => false
  end = true →
  ∃ targets ids, for_targets target = Ok targets ∧
                 target_ids targets = Ok ids ∧ ids ≠ [].
Proof.
  assert (Hseq : ∀ elts,
    forallb is_Name elts && negb (Nat.eqb (length elts) 0) = true →
    ∃ ids, target_ids elts = Ok ids ∧ ids ≠ []).
  { intros elts [Hn Hl]%andb_true_iff.
    destruct (for_target_facts.target_ids_names elts Hn) as (ids & Hids & Hlen).
    exists ids. split; [done|]. intros ->. simpl in Hlen.
    rewrite <- Hlen in Hl. done. }
  destruct target; try done; intros H.
  - eexists _, _. split; [reflexivity|]. split; [reflexivity|done].
  - destruct (Hseq _ H) as (ids & ? & ?). by exists elts, ids.
  - destruct (Hseq _ H) as (ids & ? & ?). by exists elts, ids.
Qed.

Lemma total_bind_lift_Ok {A B} cur (a : A) (k : A → M VT B) :
  total (at_scope cur) (k a) → total (at_scope cur) (mbind (lift (Ok a)) k).
Proof. intros H st HI. exact (H st HI). Qed.

Lemma variables_visit_stmt_total node : ∀ cur,
  scoping.scoped scopes scope_objs cur node →
  supported node = true →
  (∀ r, cur = Some r → is_Some (scope_objs !! r)) →
  (cur = None → is_FunctionDef node = true) →
  total (at_scope cur) (visit_stmt node).
Proof.
  induction node as
    [nid name args body IH|value|targets value|target op value
    |target iter body orelse anno IHb IHe
    |test body orelse anno IHb IHe|test body orelse anno IHb IHe
    |value| |names|names]
    using stmt_nested_ind; intros cur Hsc Hsup Hcur Hdef.
  all: assert (Hblock : ∀ (nodes : list stmt) r,
         Forall (fun node => ∀ cur,
           scoping.scoped scopes scope_objs cur node →
           supported node = true →
           (∀ r, cur = Some r → is_Some (scope_objs !! r)) →
           (cur = None → is_FunctionDef node = true) →
           total (at_scope cur) (visit_stmt node)) nodes →
         Forall (scoping.scoped scopes scope_objs (Some r)) nodes →
         forallb supported nodes = true →
         is_Some (scope_objs !! r) →
         Forall (fun node => total (at_scope (Some r)) (visit_stmt node))
           nodes).
  all: try (intros nodes r HF Hs Hsp Hr;
            rewrite Forall_forall in HF, Hs |- *; intros c Hc;
            apply (HF c Hc);
            [by apply Hs
            |rewrite forallb_forall in Hsp; apply Hsp; by apply list_elem_of_In
            |by intros ? [= <-]|done]).
  all: try (destruct cur as [r|]; [|by discriminate (Hdef eq_refl)];
            assert (Hr : is_Some (scope_objs !! r)) by (by apply Hcur)).
  - (* visit_FunctionDef *)
    inversion Hsc as [? ? ? ? ? r' s' Hr' Hs' Hp Hbody| | | |? ? Hsimple];
      subst; [|done].
    simpl in Hsup. intros st HI. cbn [variables.visit_stmt]. rewrite Hr'.
    set (st1 := mkVariableTransformer (namer st) (next_id st) (Some r')).
    rewrite (mbind_Ok_intro (set_scope (Some r')) _ st tt st1 eq_refl).
    destruct (total_mapM (at_scope (Some r'))
                (fun arg => fresh_symbol new_symbol arg (list_to_set args))
                args) with (st := st1) as (n_arg_names & st2 & H2 & HI2).
    { apply Forall_forall. intros arg _. apply fresh_symbol_total. }
    { done. }
    rewrite (mbind_Ok_intro _ _ _ _ _ H2).
    rewrite (mbind_Ok_intro _ _ _ _ _ (current_scope_spec r' s' st2 HI2 Hs')).
    destruct (total_visit_block (at_scope (Some r')) visit_stmt body
                (Hblock body r' IH Hbody Hsup (mk_is_Some _ _ Hs')) st2 HI2)
      as (body' & st3 & H3 & HI3).
    rewrite (mbind_Ok_intro _ _ _ _ _ H3).
    rewrite (mbind_Ok_intro _ _ _ _ _ (current_scope_spec r' s' st3 HI3 Hs')).
    cbn [snd].
    assert (∃ b, (match scoping.parent s' with
                  | None => ret false
                  | Some p =>
                    match scope_objs !! p with
                    | None => raise (RuntimeError "no such Scope")
                    | Some ps => ret (scoping.is_local name ps)
                    end
                  end : M VT bool) st3 = Ok (b, st3)) as [b Hb].
    { destruct (scoping.parent s') as [p|] eqn:Hpar; [|by eexists].
      destruct (Hcur p eq_refl) as [ps Hps]. rewrite Hps. by eexists. }
    rewrite (mbind_Ok_intro _ _ _ _ _ Hb).
    assert (∃ node' st4,
      (if b
       then
         do new_fun_name <- fresh_symbol new_symbol name {[name]};
         do fid <- fresh_id;
         ret [FunctionDef fid new_fun_name n_arg_names
                ((init_template overload <$> elements (scoping.locals s')) ++
                 ((fun an => assign_template overload (Name (fst an) Load)
                               (Name (snd an) Load))
                    <$> zip args n_arg_names) ++ body');
              assign_template overload (Name name Load)
                (Name new_fun_name Load)]
       else
         do fid <- fresh_id;
         ret [FunctionDef fid name n_arg_names
                ((init_template overload <$> elements (scoping.locals s')) ++
                 ((fun an => assign_template overload (Name (fst an) Load)
                               (Name (snd an) Load))
                    <$> zip args n_arg_names) ++ body')]) st3 =
        Ok (node', st4) ∧ scope st4 = Some r') as (node' & st4 & H4 & HI4).
    { destruct b.
      - apply (total_bind (at_scope (Some r'))); [apply fresh_symbol_total| |done].
        intros ?. apply total_bind; [apply fresh_id_total|].
        intros ?. apply total_ret.
      - apply (total_bind (at_scope (Some r'))); [apply fresh_id_total| |done].
        intros ?. apply total_ret. }
    rewrite (mbind_Ok_intro _ _ _ _ _ H4).
    rewrite (mbind_Ok_intro _ _ _ _ _ (current_scope_spec r' s' st4 HI4 Hs')).
    eexists _, _. split; [reflexivity|]. done.
  - (* Return *)
    cbn [variables.visit_stmt].
    apply total_bind; [|intros ?; apply total_ret].
    apply total_generic_visit_stmt; [intros e; by apply variables_visit_expr_total|done].
  - (* visit_Assign *)
    cbn [variables.visit_stmt]. simpl in Hsup.
    destruct targets as [|[lhs ctx| | | | | | | | | | | | | | ] rest]; try done.
    apply total_bind; [by apply variables_visit_expr_total|]. intros value'.
    cbn [first_target_id get_id].
    apply total_bind; [apply total_lift|]. intros lhs'.
    apply total_bind; [by apply should_virtualize_total|]. intros v.
    destruct (negb (truthy v)); apply total_ret.
  - (* visit_AugAssign *)
    done.
  - (* visit_For *)
    inversion Hsc as [|? ? ? ? ? ? Hb He| | |? ? Hsimple]; subst; [|done].
    simpl in Hsup. apply andb_true_iff in Hsup as [Hsup Hse].
    apply andb_true_iff in Hsup as [Ht Hsb].
    destruct (for_target_total target Ht) as (targets & ids & Hts & Hids & Hne).
    cbn [variables.visit_stmt].
    apply total_bind; [by apply variables_visit_expr_total|]. intros iter'.
    apply total_bind; [by apply total_visit_block, Hblock|]. intros body'.
    apply total_bind; [by apply total_visit_block, Hblock|]. intros orelse'.
    rewrite Hts. apply total_bind_lift_Ok.
    rewrite Hids. apply total_bind_lift_Ok.
    apply total_bind; [apply fresh_symbol_total|]. intros n_target.
    destruct (target_assigns_total ids n_target Hne) as [assigns Has].
    rewrite Has. apply total_bind_lift_Ok. apply total_ret.
  - (* While *)
    inversion Hsc as [| |? ? ? ? ? Hb He| |? ? Hsimple]; subst; [|done].
    simpl in Hsup. apply andb_true_iff in Hsup as [Hsb Hse].
    cbn [variables.visit_stmt].
    apply total_bind; [|intros ?; apply total_ret].
    apply total_generic_visit_stmt; [intros e; by apply variables_visit_expr_total|].
    simpl. split; by apply Hblock.
  - (* If *)
    inversion Hsc as [| | |? ? ? ? ? Hb He|? ? Hsimple]; subst; [|done].
    simpl in Hsup. apply andb_true_iff in Hsup as [Hsb Hse].
    cbn [variables.visit_stmt].
    apply total_bind; [|intros ?; apply total_ret].
    apply total_generic_visit_stmt; [intros e; by apply variables_visit_expr_total|].
    simpl. split; by apply Hblock.
  - cbn [variables.visit_stmt].
    apply total_bind; [|intros ?; apply total_ret].
    apply total_generic_visit_stmt; [intros e; by apply variables_visit_expr_total|done].
  - cbn [variables.visit_stmt].
    apply total_bind; [|intros ?; apply total_ret].
    apply total_generic_visit_stmt; [intros e; by apply variables_visit_expr_total|done].
  - cbn [variables.visit_stmt].
    apply total_bind; [|intros ?; apply total_ret].
    apply total_generic_visit_stmt; [intros e; by apply variables_visit_expr_total|done].
  - cbn [variables.visit_stmt].
    apply total_bind; [|intros ?; apply total_ret].
    apply total_generic_visit_stmt; [intros e; by apply variables_visit_expr_total|done].
Qed.

(** *** The statements the pass raises on *)

Lemma forallb_false_Exists {A} (p : A → bool) (Q : A → Prop) l :
  Forall (fun x => p x = false → Q x) l →
  forallb p l = false → Exists Q l.
Proof.
  induction 1 as [|x l Hx _ IH]; simpl; [done|].
  intros [Hp|Hp]%andb_false_iff.
  - left. by apply Hx.
  - right. by apply IH.
Qed.

Lemma for_target_fails target iter' (body' orelse' : list stmt) :
  match target with
  | Name _ _ => true
  | Tuple elts _ | List elts _ =>
    forallb is_Name elts && negb (Nat.eqb (length elts) 0)
  | _ => false
  end = false →
  fails (do targets <- lift (for_targets target);
         do ids <- lift (target_ids targets);
         do n_target <- fresh_symbol new_symbol "n_target" (list_to_set ids);
         do assigns <- lift (target_assigns overload ids n_target);
         ret [For (Name n_target Store) iter' (assigns ++ body') orelse'
                no_anno] : M VT (list stmt)).
Proof.
  assert (Hseq : ∀ elts,
    forallb is_Name elts && negb (Nat.eqb (length elts) 0) = false →
    fails (do ids <- lift (target_ids elts);
           do n_target <- fresh_symbol new_symbol "n_target" (list_to_set ids);
           do assigns <- lift (target_assigns overload ids n_target);
           ret [For (Name n_target Store) iter' (assigns ++ body') orelse'
                  no_anno] : M VT (list stmt))).
  { intros elts [Hn|Hl]%andb_false_iff.
    - apply fails_bind_l.
      rewrite (for_target_facts.target_ids_not_names elts Hn).
      apply fails_lift.
    - destruct elts; [|done]. cbn [target_ids].
      apply fails_bind_lift. apply fails_bind_r. intros n_target.
      apply fails_bind_l. apply fails_lift. }
  destruct target; try done; intros H; cbn [for_targets];
    try (apply fails_bind_l, fails_lift);
    apply fails_bind_lift; by apply Hseq.
Qed.

Lemma visit_stmt_unsupported_fails node :
  supported node = false → fails (visit_stmt node).
Proof.
  induction node as
    [nid name args body IH|value|targets value|target op value
    |target iter body orelse anno IHb IHe
    |test body orelse anno IHb IHe|test body orelse anno IHb IHe
    |value| |names|names]
    using stmt_nested_ind; simpl; intros Hsup; try done.
  - destruct (scopes !! nid); [|apply fails_raise].
    do 3 (apply fails_bind_r; intros ?). apply fails_bind_l.
    apply fails_visit_block. by eapply forallb_false_Exists.
  - apply fails_bind_r. intros value'. apply fails_bind_l.
    destruct targets as [|t rest]; [apply fails_lift|].
    destruct t; try done; apply fails_lift.
  - apply fails_raise.
  - apply fails_bind_r; intros iter'.
    destruct (forallb supported body) eqn:Hb.
    + apply fails_bind_r; intros body'.
      destruct (forallb supported orelse) eqn:He.
      * apply fails_bind_r; intros orelse'.
        rewrite !andb_true_r in Hsup. by apply for_target_fails.
      * apply fails_bind_l, fails_visit_block. by eapply forallb_false_Exists.
    + apply fails_bind_l, fails_visit_block. by eapply forallb_false_Exists.
  - apply fails_bind_l. apply fails_bind_r; intros ?.
    apply andb_false_iff in Hsup as [Hc|Hc].
    + apply fails_bind_l, fails_visit_block. by eapply forallb_false_Exists.
    + apply fails_bind_r; intros ?.
      apply fails_bind_l, fails_visit_block. by eapply forallb_false_Exists.
  - apply fails_bind_l. apply fails_bind_r; intros ?.
    apply andb_false_iff in Hsup as [Hc|Hc].
    + apply fails_bind_l, fails_visit_block. by eapply forallb_false_Exists.
    + apply fails_bind_r; intros ?.
      apply fails_bind_l, fails_visit_block. by eapply forallb_false_Exists.
Qed.
End with_namer.

(** For a tree of function definitions that are distinct objects,
    [variables.transform] returns exactly when the scope analysis takes the
    tree (every for-target a name or a tuple or list of names, [nonlocal]
    and [global] only inside functions) and the tree has no augmented
    assignment, no assignment whose first target is not a name and no
    for-loop over an empty tuple or list of targets; on every other such
    tree it raises.  The namer and the overload module play no part in
    this. *)
Theorem transform_returns_iff_supported {N : Type}
    (new_symbol : string → gset string → N → string * N)
    (tree : list stmt) (namer : N) (next_id : nat)
    (overload : VirtualizationConfig) :
  forallb is_FunctionDef tree = true →
  NoDup (flat_map function_ids tree) →
  ((∃ out st',
      transform new_symbol tree namer next_id overload = Ok (out, st')) ↔
   forallb (analyzable false) tree = true ∧ forallb supported tree = true).
Proof.
  intros Hdefs Hnd. split.
  - intros (out & st' & H). unfold transform in H.
    destruct (scoping.visit tree) as [[tree1 sc]|e] eqn:Hv; [|done].
    simpl in H.
    pose proof (scope_analysis_facts.visit_same _ _ _ Hv) as ->.
    split; [by eapply scope_structure_facts.visit_returns_analyzable|].
    destruct (forallb supported tree) eqn:Hsup; [done|].
    destruct (fails_visit_block
                (visit_stmt new_symbol overload (scoping.scopes sc)
                   (scoping.scope_objs sc)) tree)
      with (st := mkVariableTransformer namer next_id None) as [e He].
    + eapply forallb_false_Exists; [|exact Hsup].
      apply Forall_forall. intros node _. apply visit_stmt_unsupported_fails.
    + congruence.
  - intros [Han Hsup].
    destruct (scope_analysis_facts.visit_total tree Han) as (tree1 & sc & Hv).
    pose proof (scope_analysis_facts.visit_same _ _ _ Hv) as ->.
    destruct (scope_structure_facts.visit_scoped _ _ _ Hnd Hv) as [Hsc Hwf].
    unfold transform. rewrite Hv. simpl.
    destruct (total_visit_block (fun st => scope st = None)
                (visit_stmt new_symbol overload (scoping.scopes sc)
                   (scoping.scope_objs sc)) tree)
      with (st := mkVariableTransformer namer next_id None)
      as (out & st' & H & _); [|done|by exists out, st'].
    rewrite Forall_forall in Hsc |- *. intros node Hnode.
    rewrite forallb_forall in Hsup, Hdefs.
    apply (variables_visit_stmt_total new_symbol overload _ _ Hwf node None).
    + by apply Hsc.
    + apply Hsup. by apply list_elem_of_In.
    + done.
    + intros _. apply Hdefs. by apply list_elem_of_In.
Qed.

Lemma transform_returns_iff_supported_witness :
  ∃ out st',
    transform naming.new_symbol examples.local_and_free ∅ 0
      examples.py_defaults_config = Ok (out, st').
Proof.
  apply (transform_returns_iff_supported naming.new_symbol
           examples.local_and_free ∅ 0 examples.py_defaults_config).
  - reflexivity.
  - simpl. apply NoDup_singleton.
  - split; reflexivity.
Defined.

End variables_total_facts.

Module for_normal_facts.
Import gast transformer transformer_facts invariant_facts variables.

Section with_namer.
Context {N : Type} (new_symbol : string → gset string → N → string * N).
Context (overload : VirtualizationConfig).
Context (scopes : gmap nat ref) (scope_objs : list scoping.Scope).

Local Abbreviation visit_stmt :=
  (visit_stmt new_symbol overload scopes scope_objs).

(** No for-loop in the statement unpacks its items. *)
Local Abbreviation plain := (fun node => stmt_exists unpacks node = false).

Lemma plain_block (l : list stmt) :
  Forall plain l ↔ existsb (stmt_exists unpacks) l = false.
Proof.
  induction l as [|x l IH]; simpl; [done|].
  rewrite Forall_cons, orb_false_iff, IH. done.
Qed.

Lemma plain_fmap {A} (f : A → stmt) (l : list A) :
  (∀ x, plain (f x)) → Forall plain (f <$> l).
Proof. intros Hf. apply Forall_fmap, Forall_forall. intros x _. apply Hf. Qed.

Lemma target_assigns_plain ids n_target assigns :
  target_assigns overload ids n_target = Ok assigns → Forall plain assigns.
Proof.
  unfold target_assigns. destruct (1 <? length ids).
  - intros [= <-]. apply Forall_forall. intros node Hnode.
    apply elem_of_lookup_imap in Hnode as (i & id & -> & _). done.
  - destruct ids; [done|]. intros [= <-]. by repeat constructor.
Qed.

Lemma visit_stmt_plain node : yields (Forall plain) (visit_stmt node).
Proof.
  induction node as
    [nid name args body IH|value|targets value|target op value
    |target iter body orelse anno IHb IHe
    |test body orelse anno IHb IHe|test body orelse anno IHb IHe
    |value| |names|names]
    using stmt_nested_ind; intros st out st' H;
    cbn [variables.visit_stmt] in H.
  - (* visit_FunctionDef *)
    destruct (scopes !! nid) as [r|]; [|done].
    apply mbind_Ok in H as (? & st1 & H1 & H).
    apply mbind_Ok in H as (params & st2 & H2 & H).
    apply mbind_Ok in H as (rs & st3 & H3 & H).
    apply mbind_Ok in H as (body' & st4 & H4 & H).
    apply mbind_Ok in H as (rs' & st5 & H5 & H).
    apply mbind_Ok in H as (is_local_in_parent & st6 & H6 & H).
    apply mbind_Ok in H as (node' & st7 & H7 & H).
    apply mbind_Ok in H as (rs'' & st8 & H8 & H).
    apply mbind_Ok in H as (? & st9 & H9 & H).
    apply ret_Ok in H as [-> ->].
    apply (yields_visit_block plain visit_stmt body IH) in H4.
    assert (Hbody : existsb (stmt_exists unpacks)
              ((init_template overload <$> elements (scoping.locals rs.2)) ++
               ((fun an => assign_template overload (Name an.1 Load)
                             (Name an.2 Load)) <$> zip args params) ++ body')
            = false).
    { apply plain_block. rewrite !Forall_app. split; [|split; [|done]].
      - by apply plain_fmap.
      - by apply plain_fmap. }
    destruct is_local_in_parent.
    + apply mbind_Ok in H7 as (fname & sa & Ha & H7).
      apply mbind_Ok in H7 as (fid & sb & Hb & H7).
      apply ret_Ok in H7 as [-> ->].
      repeat constructor. simpl. exact Hbody.
    + apply mbind_Ok in H7 as (fid & sb & Hb & H7).
      apply ret_Ok in H7 as [-> ->].
      repeat constructor. simpl. exact Hbody.
  - destruct value; cbn [generic_visit_stmt] in H; inv_M; by repeat constructor.
  - (* visit_Assign *)
    apply mbind_Ok in H as (value' & st1 & H1 & H).
    apply mbind_Ok in H as (lhs & st2 & H2 & H).
    apply mbind_Ok in H as (v & st3 & H3 & H).
    destruct (negb (truthy v)); apply ret_Ok in H as [-> ->];
      by repeat constructor.
  - done.
  - (* visit_For *)
    apply mbind_Ok in H as (iter' & st1 & H1 & H).
    apply mbind_Ok in H as (body' & st2 & H2 & H).
    apply mbind_Ok in H as (orelse' & st3 & H3 & H).
    apply mbind_Ok in H as (targets & st4 & H4 & H).
    apply mbind_Ok in H as (ids & st5 & H5 & H).
    apply mbind_Ok in H as (n_target & st6 & H6 & H).
    apply mbind_Ok in H as (assigns & st7 & H7 & H).
    apply ret_Ok in H as [-> ->].
    apply (yields_visit_block plain visit_stmt body IHb) in H2.
    apply (yields_visit_block plain visit_stmt orelse IHe) in H3.
    assert (Forall plain assigns) as Has.
    { unfold lift in H7.
      destruct (target_assigns overload ids n_target) eqn:Hta; [|done].
      injection H7 as <- _. by eapply target_assigns_plain. }
    repeat constructor. simpl.
    apply orb_false_iff. split; apply plain_block; [|done].
    apply Forall_app. by split.
  - (* While *)
    cbn [generic_visit_stmt] in H. inv_M.
    repeat match goal with
    | HF : Forall _ ?l, E : visit_block _ ?l _ = Ok _ |- _ =>
      apply (yields_visit_block plain visit_stmt l HF) in E;
        apply plain_block in E
    end.
    repeat constructor. simpl.
    repeat match goal with E : _ = false |- _ => rewrite E; clear E end. done.
  - (* If *)
    cbn [generic_visit_stmt] in H. inv_M.
    repeat match goal with
    | HF : Forall _ ?l, E : visit_block _ ?l _ = Ok _ |- _ =>
      apply (yields_visit_block plain visit_stmt l HF) in E;
        apply plain_block in E
    end.
    repeat constructor. simpl.
    repeat match goal with E : _ = false |- _ => rewrite E; clear E end. done.
  - cbn [generic_visit_stmt] in H; inv_M; by repeat constructor.
  - cbn [generic_visit_stmt] in H; inv_M; by repeat constructor.
  - cbn [generic_visit_stmt] in H; inv_M; by repeat constructor.
  - cbn [generic_visit_stmt] in H; inv_M; by repeat constructor.
Qed.
End with_namer.



End for_normal_facts.
